(** * photo-selector-poc: the Jina-CLIP image search and its MobileNet scorer

    A shallow embedding of [jina-clip-search/src]: [utils.ts]
    ([isImageFile], [getImageFiles]), [JinaClipSearch.ts] (the searcher class),
    [index.ts] ([main]) and the MobileNet auxiliary scorer
    ([MobileNetScorer]), followed by the properties of the scoring and
    ranking pipeline and of the functions around it.

    Conventions of the embedding.
    - A JavaScript [number] is an IEEE 754 binary64 value: Rocq's primitive
      [float], whose operations are the ones the JavaScript engine performs
      ([+], [*], [-], [/], [Math.sqrt], [>=], [===] on numbers).
    - An [async] function is a sequential computation: every [await] is a
      call into the host that either yields a value or throws.  A thrown
      value is an [exn]; a computation that may throw returns a [result].
    - The methods of a class take the object ([this]) and give back the
      object next to their result: a throw keeps the fields written so far.
    - The file system, the clock, Node's [path] module, the embedding model
      and the ONNX session are collaborators: they are fields of the [Host]
      record (or of the object that holds them), never fixed functions.
    - [console.log], [console.warn] and [console.error] write to the
      terminal only and are left out. *)

From stdpp Require Import gmap strings list sorting.
From Stdlib Require Import Ascii ZArith Floats Lia.

(** ** JavaScript values *)

Abbreviation number := float (only parsing).

(** A thrown value: the [code] property a Node system error carries
    ([ENOENT], [EACCES], ...), absent on [new Error(message)]. *)
Record exn := Thrown { code : option string; message : string }.

(** [new Error(message)] *)
Definition Error (message : string) : exn := Thrown None message.

(** The [TypeError] of reading a property of [undefined]. *)
Definition TypeError (message : string) : exn := Thrown None message.

Inductive result (A : Type) : Type :=
  | Ok (a : A)
  | Throw (e : exn).
Arguments Ok {A} a.
Arguments Throw {A} e.

Definition result_bind {A B} (f : A → result B) (m : result A) : result B :=
  match m with
  | Ok a => f a
  | Throw e => Throw e
  end.

#[export] Instance result_ret : MRet result := λ A a, Ok a.
#[export] Instance result_mbind : MBind result := λ A B f m, result_bind f m.
#[export] Instance result_fmap : FMap result :=
  λ A B f m, result_bind (λ a, Ok (f a)) m.

(** [try { body } catch (error) { handler }] *)
Definition try_catch {A} (body : result A) (handler : exn → result A) : result A :=
  match body with
  | Ok a => Ok a
  | Throw e => handler e
  end.

(** [await Promise.all(xs.map(f))], the calls taken in index order. *)
Fixpoint mapM {A B} (f : A → result B) (xs : list A) : result (list B) :=
  match xs with
  | [] => Ok []
  | x :: xs' => y ← f x; ys ← mapM f xs'; Ok (y :: ys)
  end.

(** *** Numbers *)

(** [a >= b] *)
Definition js_ge (a b : float) : bool := (b <=? a)%float.
(** [a > b] *)
Definition js_gt (a b : float) : bool := (b <? a)%float.
(** [a === b] on numbers: [NaN] differs from itself, [+0 === -0]. *)
Definition js_strict_eq (a b : float) : bool := (a =? b)%float.

(** [Math.max(...xs)] (ECMAScript, Math.max): the result starts at
    [-Infinity]; a [NaN] argument gives [NaN]; [+0] is larger than [-0]. *)
Definition is_pos_zero (x : float) : bool :=
  match classify x with PZero => true | _ => false end.
Definition is_neg_zero (x : float) : bool :=
  match classify x with NZero => true | _ => false end.

Fixpoint Math_max_from (highest : float) (xs : list float) : float :=
  match xs with
  | [] => highest
  | x :: xs' =>
      if is_nan x then nan
      else if is_pos_zero x && is_neg_zero highest then Math_max_from x xs'
      else if js_gt x highest then Math_max_from x xs'
      else Math_max_from highest xs'
  end.

Definition Math_max (xs : list float) : float := Math_max_from neg_infinity xs.

(** *** Arrays *)

(** The relative index of [Array.prototype.slice] and of
    [TypedArray.prototype.slice]: a negative index counts from the end. *)
Definition slice_index (len : nat) (k : Z) : nat :=
  if (k <? 0)%Z then Z.to_nat (Z.max (Z.of_nat len + k) 0)
  else Nat.min (Z.to_nat k) len.

(** [xs.slice(start, end)] *)
Definition slice {A} (xs : list A) (start end_ : Z) : list A :=
  let from := slice_index (length xs) start in
  let to := slice_index (length xs) end_ in
  take (to - from) (drop from xs).

(** [xs.sort(comparefn)].  ECMAScript asks for a stable sort and leaves the
    algorithm open; for a consistent [comparefn] every stable sort gives the
    same array.  The model is the stable insertion sort: an element moves
    behind another exactly when [comparefn] of the two is positive (a [NaN]
    from [comparefn] counts as [+0]). *)
Fixpoint sort_insert {A} (comparefn : A → A → float) (x : A) (sorted : list A) : list A :=
  match sorted with
  | [] => [x]
  | y :: sorted' =>
      if js_gt (comparefn x y) 0 then y :: sort_insert comparefn x sorted'
      else x :: y :: sorted'
  end.

Definition sort {A} (comparefn : A → A → float) (xs : list A) : list A :=
  foldr (sort_insert comparefn) [] xs.

(** [s.toLowerCase()] on the ASCII letters.  The code units outside ASCII
    are kept: none of them lowers to a string of ASCII letters that occurs in
    an extension of [SUPPORTED_IMAGE_FORMATS]. *)
Definition lower_ascii (c : Ascii.ascii) : Ascii.ascii :=
  let n := Ascii.nat_of_ascii c in
  if (65 <=? n)%nat && (n <=? 90)%nat then Ascii.ascii_of_nat (n + 32) else c.

Fixpoint toLowerCase (s : string) : string :=
  match s with
  | EmptyString => EmptyString
  | String c s' => String (lower_ascii c) (toLowerCase s')
  end.

(** ** The host: file system, clock, [path], images, models *)

(** [fs.Stats], as far as [getImageFiles] reads it. *)
Record Stats := { isFile : bool }.

(** Node's [path] module: [join], [extname], [basename]. *)
Record PathModule := {
  join : string → string → string;
  extname : string → string;
  basename : string → string;
}.

(** The decoded image of [@huggingface/transformers]. *)
Module RawImage.
Record t := { data : list Z; width : Z; height : Z; channels : Z }.
End RawImage.

(** A tensor: its dimensions and its flat data. *)
Module Tensor.
Record t := { dims : list Z; data : list float }.
End Tensor.

(** What a processor hands to the model: named tensors. *)
Definition Inputs := list (string * Tensor.t).

(** [Processor]: called as [processor(text, images, options)]. *)
Record Processor := {
  processor_call : option (list string) → option (list RawImage.t) → result Inputs;
}.

(** The outputs of the Jina-CLIP model; an output the model did not return
    (or an [undefined] record of outputs) is [None]. *)
Record ModelOutputs := {
  l2norm_image_embeddings : option Tensor.t;
  image_embeds : option Tensor.t;
  image_embeddings : option Tensor.t;
  l2norm_text_embeddings : option Tensor.t;
  text_embeds : option Tensor.t;
  text_embeddings : option Tensor.t;
}.

(** [PreTrainedModel]: called as [model(inputs)]. *)
Record PreTrainedModel := {
  model_call : Inputs → result ModelOutputs;
}.

(** An output of an ONNX session; [data] may be missing. *)
Module OrtTensor.
Record t := { data : option (list float) }.
End OrtTensor.

(** [ort.InferenceSession]: [run(feeds)] gives the outputs by name. *)
Record InferenceSession := {
  run : Tensor.t → result (gmap string OrtTensor.t);
  outputNames : list string;
}.

Record Host := {
  path : PathModule;
  (** [fs/promises.readdir(directory)] *)
  readdir : string → result (list string);
  (** [fs/promises.stat(path)] *)
  stat : string → result Stats;
  (** [RawImage.read(path)] *)
  RawImage_read : string → result RawImage.t;
  (** [Date.now()] at the start of a call and at its return; the calls of
      one [searchMultiple] read the same two values. *)
  Date_now_start : Z;
  Date_now_end : Z;
  (** [AutoProcessor.from_pretrained(modelId)] *)
  AutoProcessor_from_pretrained : string → result Processor;
  (** [AutoModel.from_pretrained(modelId, { device: 'cpu' })] *)
  AutoModel_from_pretrained : string → result PreTrainedModel;
  (** [ort.InferenceSession.create(path)] *)
  InferenceSession_create : string → result InferenceSession;
  (** [JSON.parse(readFileSync(join(process.cwd(), 'models',
      'imagenet_labels.json'), 'utf-8'))] *)
  read_labels : result (list string);
  (** [MobileNetScorer.preprocessImage(image)]: [image.resize(224, 224)] and
      the ImageNet normalisation, computed in a [Float32Array]. *)
  preprocessImage : RawImage.t → result Tensor.t;
}.

(** ** types.ts *)

(** [SearchResult]; [clipScore], [auxScore] and [predictedLabels] are the
    optional properties of the later revision of [types.ts]. *)
Record SearchResult := {
  imagePath : string;
  similarity : float;
  fileName : string;
  rank : Z;
  clipScore : option float;
  auxScore : option float;
  predictedLabels : option (list string);
}.

(** [SearchConfig]: an absent optional property is [None].  [enableAuxScorer]
    and [fusionWeight] are the two properties the later revision of
    [types.ts] adds. *)
Record SearchConfig := {
  imageFolder : string;
  query : string;
  threshold : option float;
  maxResults : option Z;
  enableAuxScorer : option bool;
  fusionWeight : option float;
}.

Record SearchStats := {
  totalImages : Z;
  matchingImages : Z;
  processingTimeMs : Z;
  stats_query : string;
}.

Record SearchResponse := {
  results : list SearchResult;
  stats : SearchStats;
}.

Definition SUPPORTED_IMAGE_FORMATS : list string :=
  [".jpg"; ".jpeg"; ".png"; ".bmp"; ".webp"; ".gif"].

(** ** utils.ts *)

Module Utils.

(** [SUPPORTED_IMAGE_FORMATS.includes(extname(filename).toLowerCase())] *)
Definition isImageFile (p : PathModule) (filename : string) : bool :=
  let ext := toLowerCase (extname p filename) in
  bool_decide (ext ∈ SUPPORTED_IMAGE_FORMATS).

(** The body of the [for (const file of files)] loop of [getImageFiles],
    with [imagePaths] the array built so far. *)
Fixpoint collectImages (h : Host) (directory : string) (files : list string)
    (imagePaths : list string) : result (list string) :=
  match files with
  | [] => Ok imagePaths
  | file :: files' =>
      let fullPath := join (path h) directory file in
      fileStat ← stat h fullPath;
      if isFile fileStat && isImageFile (path h) file
      then collectImages h directory files' (imagePaths ++ [fullPath])
      else collectImages h directory files' imagePaths
  end.

Definition getImageFiles (h : Host) (directory : string) : result (list string) :=
  try_catch
    (files ← readdir h directory;
     collectImages h directory files [])
    (λ error,
       if bool_decide (code error = Some "ENOENT")
       then Throw (Error ("Directory not found: " +:+ directory))
       else Throw error).

End Utils.

(** ** Vector arithmetic shared by the two classes *)

(** [for (let i = 0; i < a.length; i++) s += a[i] * b[i]], from the sum [s]
    so far; it is also [a.reduce((sum, val, i) => sum + val * b[i], s)].  An
    index past the end of [b] reads [undefined], and the product is [NaN]. *)
Fixpoint sum_products (s : float) (a b : list float) : float :=
  match a with
  | [] => s
  | x :: a' => sum_products (s + x * hd nan b)%float a' (tl b)
  end.

(** [v.reduce((s, x) => s + x * x, 0)] *)
Definition sum_squares (v : list float) : float :=
  fold_left (λ s x, (s + x * x)%float) v 0%float.

(** ** JinaClipSearch.ts *)

Module JinaClipSearch.

Record t := {
  model : option PreTrainedModel;
  processor : option Processor;
  modelId : string;
  isInitialized : bool;
}.

(** [new JinaClipSearch()] *)
Definition new : t :=
  {| model := None; processor := None;
     modelId := "jinaai/jina-clip-v2"; isInitialized := false |}.

Definition initialize (h : Host) (this : t) : result unit * t :=
  if isInitialized this then (Ok (), this)
  else
    match AutoProcessor_from_pretrained h (modelId this) with
    | Throw _ => (Throw (Error "Model initialization failed"), this)
    | Ok p =>
        let this1 := {| model := model this; processor := Some p;
                        modelId := modelId this;
                        isInitialized := isInitialized this |} in
        match AutoModel_from_pretrained h (modelId this) with
        | Throw _ => (Throw (Error "Model initialization failed"), this1)
        | Ok m =>
            (Ok (), {| model := Some m; processor := Some p;
                        modelId := modelId this; isInitialized := true |})
        end
    end.

Definition not_initialized_message : string :=
  "Model not initialized. Call initialize() first.".

Definition ensureInitialized (this : t) : result unit :=
  if negb (isInitialized this) || negb (bool_decide (is_Some (model this)))
     || negb (bool_decide (is_Some (processor this)))
  then Throw (Error not_initialized_message)
  else Ok ().

(** The message of the thrown error ends with the dimensions; their
    rendering is left out. *)
Definition tensor2DToArrays (t : Tensor.t) : result (list (list float)) :=
  match Tensor.dims t with
  | [batch; dim] =>
      Ok ((λ i : Z, slice (Tensor.data t) (i * dim) (i * dim + dim)) <$> seqZ 0 batch)
  | _ => Throw (Error "Expected 2D tensor, got dims=")
  end.

Definition normalize (v : list float) : list float :=
  let n := sqrt (sum_squares v) in
  if js_strict_eq n 0 then v
  else (λ x, (x / n)%float) <$> v.

Definition dot (a b : list float) : float := sum_products 0 a b.

(** [this.processor!] and [this.model!]: a call on [null] is a
    [TypeError]. *)
Definition the_processor (this : t) : result Processor :=
  match processor this with
  | Some p => Ok p
  | None => Throw (TypeError "this.processor is not a function")
  end.

Definition the_model (this : t) : result PreTrainedModel :=
  match model this with
  | Some m => Ok m
  | None => Throw (TypeError "this.model is not a function")
  end.

Definition getImageEmbeddings (this : t) (images : list RawImage.t)
    : result (list (list float)) :=
  _ ← ensureInitialized this;
  p ← the_processor this;
  inputs ← processor_call p None (Some images);
  m ← the_model this;
  outputs ← model_call m inputs;
  match l2norm_image_embeddings outputs with
  | Some t => arr ← tensor2DToArrays t; Ok (normalize <$> arr)
  | None =>
  match image_embeds outputs with
  | Some t => arr ← tensor2DToArrays t; Ok (normalize <$> arr)
  | None =>
  match image_embeddings outputs with
  | Some t => arr ← tensor2DToArrays t; Ok (normalize <$> arr)
  | None =>
      Throw (Error "Model did not return image embeddings (l2norm_image_embeddings/image_embeds/image_embeddings).")
  end end end.

Definition query_prefix : string :=
  "Represent the query for retrieving evidence documents: ".

Definition getTextEmbedding (this : t) (text : string) : result (list float) :=
  _ ← ensureInitialized this;
  p ← the_processor this;
  inputs ← processor_call p (Some [query_prefix +:+ text]) None;
  m ← the_model this;
  outputs ← model_call m inputs;
  match l2norm_text_embeddings outputs with
  | Some t => Ok (normalize (Tensor.data t))
  | None =>
  match text_embeds outputs with
  | Some t => Ok (normalize (Tensor.data t))
  | None =>
  match text_embeddings outputs with
  | Some t => Ok (normalize (Tensor.data t))
  | None =>
      Throw (Error "Model did not return text embeddings (l2norm_text_embeddings/text_embeds/text_embeddings).")
  end end end.

Definition cosineSimilarity (vecA vecB : list float) : float :=
  let dotProduct := sum_products 0 vecA vecB in
  let magnitudeA := sqrt (sum_squares vecA) in
  let magnitudeB := sqrt (sum_squares vecB) in
  if js_strict_eq magnitudeA 0 || js_strict_eq magnitudeB 0 then 0%float
  else (dotProduct / (magnitudeA * magnitudeB))%float.

(** The lines a search result starts from: [rank: 0], and none of the
    optional properties. *)
Definition new_result (h : Host) (imagePath : string) (similarity : float)
    : SearchResult :=
  {| imagePath := imagePath; similarity := similarity;
     fileName := basename (path h) imagePath; rank := 0;
     clipScore := None; auxScore := None; predictedLabels := None |}.

(** The [for (let i = 0; i < imagePaths.length; i++)] loop of [search],
    from index [i] on, with [results] the array pushed so far.  A missing
    [imageEmbeddings[i]] makes [dot] read [undefined.length]. *)
Fixpoint score_loop (h : Host) (imagePaths : list string) (i : nat)
    (imageEmbeddings : list (list float)) (textEmbedding : list float)
    (threshold : float) (results : list SearchResult)
    : result (list SearchResult) :=
  match imagePaths with
  | [] => Ok results
  | imagePath_i :: rest =>
      match imageEmbeddings !! i with
      | None =>
          Throw (TypeError "Cannot read properties of undefined (reading 'length')")
      | Some embedding =>
          let similarity := dot embedding textEmbedding in
          score_loop h rest (S i) imageEmbeddings textEmbedding threshold
            (if js_ge similarity threshold
             then results ++ [new_result h imagePath_i similarity]
             else results)
      end
  end.

(** [(a, b) => b.similarity - a.similarity] *)
Definition by_similarity (a b : SearchResult) : float :=
  (similarity b - similarity a)%float.

(** [(r, idx) => (r.rank = idx + 1)] *)
Definition set_rank (idx : nat) (r : SearchResult) : SearchResult :=
  {| imagePath := imagePath r; similarity := similarity r;
     fileName := fileName r; rank := Z.of_nat idx + 1;
     clipScore := clipScore r; auxScore := auxScore r;
     predictedLabels := predictedLabels r |}.

Definition default_threshold : float := 0x1.3333333333333p-2%float.
Definition default_maxResults : Z := 100.

Definition search_body (h : Host) (config : SearchConfig) (this : t)
    : result SearchResponse :=
  _ ← ensureInitialized this;
  let threshold := default default_threshold (threshold config) in
  let maxResults := default default_maxResults (maxResults config) in
  let startTime := Date_now_start h in
  imagePaths ← Utils.getImageFiles h (imageFolder config);
  if bool_decide (length imagePaths = 0%nat) then
    Ok {| results := [];
          stats := {| totalImages := 0; matchingImages := 0;
                      processingTimeMs := Date_now_end h - startTime;
                      stats_query := query config |} |}
  else
    images ← mapM (RawImage_read h) imagePaths;
    imageEmbeddings ← getImageEmbeddings this images;
    textEmbedding ← getTextEmbedding this (query config);
    results ← score_loop h imagePaths 0 imageEmbeddings textEmbedding threshold [];
    let sorted := sort by_similarity results in
    let limitedResults := imap set_rank (slice sorted 0 maxResults) in
    Ok {| results := limitedResults;
          stats := {| totalImages := Z.of_nat (length imagePaths);
                      matchingImages := Z.of_nat (length limitedResults);
                      processingTimeMs := Date_now_end h - startTime;
                      stats_query := query config |} |}.

(** [search] reads the fields of [this] and writes none. *)
Definition search (h : Host) (config : SearchConfig) (this : t)
    : result SearchResponse * t :=
  (search_body h config this, this).

(** [Map.prototype.set]: the value of a present key is replaced in place,
    a new key goes to the end. *)
Fixpoint map_set {V} (k : string) (v : V) (m : list (string * V)) : list (string * V) :=
  match m with
  | [] => [(k, v)]
  | (k', v') :: m' =>
      if bool_decide (k = k') then (k, v) :: m' else (k', v') :: map_set k v m'
  end.

(** The [for (const query of queries)] loop of [searchMultiple]. *)
Fixpoint searchMultiple_loop (h : Host) (imageFolder : string) (queries : list string)
    (threshold : float) (this : t) (results : list (string * SearchResponse))
    : result (list (string * SearchResponse)) :=
  match queries with
  | [] => Ok results
  | query :: queries' =>
      response ← search_body h
        {| imageFolder := imageFolder; query := query;
           threshold := Some threshold; maxResults := None;
           enableAuxScorer := None; fusionWeight := None |} this;
      searchMultiple_loop h imageFolder queries' threshold this
        (map_set query response results)
  end.

Definition searchMultiple (h : Host) (imageFolder : string) (queries : list string)
    (threshold : option float) (this : t)
    : result (list (string * SearchResponse)) * t :=
  (_ ← ensureInitialized this;
   searchMultiple_loop h imageFolder queries
     (default default_threshold threshold) this [],
   this).

(** What [selfCheck] prints, before [toFixed]. *)
Record SelfCheckLog := {
  image_dim : nat; image_norm : float;
  text_dim : nat; text_norm : float;
  cosine_self : float;
}.

(** [selfCheck]; [None] is the run that found no image. *)
Definition selfCheck (h : Host) (imageFolder : string) (this : t)
    : result (option SelfCheckLog) * t :=
  (_ ← ensureInitialized this;
   images ← Utils.getImageFiles h imageFolder;
   match images with
   | [] => Ok None
   | image0 :: _ =>
       oneImage ← RawImage_read h image0;
       embs ← getImageEmbeddings this [oneImage];
       txt ← getTextEmbedding this "test";
       match embs with
       | [] => Throw (TypeError "Cannot read properties of undefined (reading 'reduce')")
       | emb :: _ =>
           let l2 := λ v, sqrt (sum_squares v) in
           let cos := cosineSimilarity emb emb in
           Ok (Some {| image_dim := length emb; image_norm := l2 emb;
                       text_dim := length txt; text_norm := l2 txt;
                       cosine_self := cos |})
       end
   end,
   this).

End JinaClipSearch.

(** ** The MobileNet v2 auxiliary scorer *)

Module MobileNetScorer.

Record t := {
  session : option InferenceSession;
  labels : list string;
  labelEmbeddings : gmap string (list float);
  isInitialized : bool;
  getTextEmbeddingFn : option (string → result (list float));
}.

(** [new MobileNetScorer()] *)
Definition new : t :=
  {| session := None; labels := []; labelEmbeddings := ∅;
     isInitialized := false; getTextEmbeddingFn := None |}.

(** The [for] loop of [precomputeLabelEmbeddings] over the labels still to
    embed: a label whose embedding throws is skipped. *)
Fixpoint precompute_loop (fn : string → result (list float)) (todo : list string)
    (table : gmap string (list float)) : gmap string (list float) :=
  match todo with
  | [] => table
  | label :: todo' =>
      match fn label with
      | Ok embedding => precompute_loop fn todo' (<[label := embedding]> table)
      | Throw _ => precompute_loop fn todo' table
      end
  end.

Definition precomputeLabelEmbeddings (this : t) : result unit * t :=
  match getTextEmbeddingFn this with
  | None => (Throw (TypeError "this.getTextEmbeddingFn is not a function"), this)
  | Some fn =>
      (Ok (), {| session := session this; labels := labels this;
                  labelEmbeddings := precompute_loop fn (labels this) (labelEmbeddings this);
                  isInitialized := isInitialized this;
                  getTextEmbeddingFn := getTextEmbeddingFn this |})
  end.

Definition initialize (h : Host) (fn : string → result (list float)) (this : t)
    : result unit * t :=
  if isInitialized this then (Ok (), this)
  else
    let failed := Throw (Error "MobileNet initialization failed") in
    let this1 := {| session := session this; labels := labels this;
                    labelEmbeddings := labelEmbeddings this;
                    isInitialized := isInitialized this;
                    getTextEmbeddingFn := Some fn |} in
    match InferenceSession_create h "models/mobilenet_v2.onnx" with
    | Throw _ => (failed, this1)
    | Ok s =>
        let this2 := {| session := Some s; labels := labels this1;
                        labelEmbeddings := labelEmbeddings this1;
                        isInitialized := isInitialized this1;
                        getTextEmbeddingFn := getTextEmbeddingFn this1 |} in
        match read_labels h with
        | Throw _ => (failed, this2)
        | Ok ls =>
            let this3 := {| session := session this2; labels := ls;
                            labelEmbeddings := labelEmbeddings this2;
                            isInitialized := isInitialized this2;
                            getTextEmbeddingFn := getTextEmbeddingFn this2 |} in
            match precomputeLabelEmbeddings this3 with
            | (Throw _, this4) => (failed, this4)
            | (Ok _, this4) =>
                (Ok (), {| session := session this4; labels := labels this4;
                            labelEmbeddings := labelEmbeddings this4;
                            isInitialized := true;
                            getTextEmbeddingFn := getTextEmbeddingFn this4 |})
            end
        end
    end.

(** [(a, b) => b.val - a.val] on the pairs [{ val, idx }] *)
Definition by_val (a b : float * nat) : float := (b.1 - a.1)%float.

(** [this.labels[i] || 'unknown']: a missing label and the empty string
    are both falsy. *)
Definition label_at (this : t) (i : nat) : string :=
  match labels this !! i with
  | Some l => if bool_decide (l = "") then "unknown" else l
  | None => "unknown"
  end.

Definition default_topK : Z := 20.

(** The [try] block of [getTopLabels]. *)
Definition infer_labels (h : Host) (s : InferenceSession) (this : t)
    (image : RawImage.t) (topK : Z) : result (list string) :=
  inputTensor ← preprocessImage h image;
  results ← run s inputTensor;
  let outputName := default "undefined" (outputNames s !! 0%nat) in
  match results !! outputName ≫= OrtTensor.data with
  | None => Ok []
  | Some logits =>
      let indices :=
        snd <$> slice (sort by_val (imap (λ idx val, (val, idx)) logits)) 0 topK in
      Ok (label_at this <$> indices)
  end.

Definition getTopLabels (h : Host) (image : RawImage.t) (topK : option Z) (this : t)
    : result (list string) * t :=
  (match isInitialized this, session this with
   | true, Some s =>
       try_catch (infer_labels h s this image (default default_topK topK))
         (λ _, Ok [])
   | _, _ => Throw (Error "MobileNet not initialized. Call initialize() first.")
   end,
   this).

Definition dot (a b : list float) : float := sum_products 0 a b.

(** The [for (const label of imageLabels)] loop of [computeSemanticScore],
    with [similarities] the array pushed so far. *)
Fixpoint collect_similarities (this : t) (imageLabels : list string)
    (queryEmbedding : list float) (similarities : list float) : list float :=
  match imageLabels with
  | [] => similarities
  | label :: rest =>
      match labelEmbeddings this !! label with
      | Some labelEmbedding =>
          collect_similarities this rest queryEmbedding
            (similarities ++ [dot queryEmbedding labelEmbedding])
      | None => collect_similarities this rest queryEmbedding similarities
      end
  end.

Definition computeSemanticScore (this : t) (imageLabels : list string)
    (queryEmbedding : list float) : float :=
  if bool_decide (length imageLabels = 0%nat) then 0%float
  else
    let similarities := collect_similarities this imageLabels queryEmbedding [] in
    if bool_decide (0 < length similarities)%nat then Math_max similarities
    else 0%float.

End MobileNetScorer.

(** ** The fused score (specification, section 4.2) *)

(** Modelled from the spec: the fusion of the visual score with the score of
    the auxiliary scorer.  [JinaClipSearch.search] as it stands under
    [jina-clip-search/src] scores with [dot] alone; the revision that the
    later [types.ts] ([enableAuxScorer], [fusionWeight]) and [index.ts]
    ([searcher.initialize(config.enableAuxScorer)]) call is missing.
    "[fusionWeight] clamped to [0,1]". *)
Definition clamp_weight (fusionWeight : float) : float :=
  if js_gt 0 fusionWeight then 0%float
  else if js_gt fusionWeight 1 then 1%float
  else fusionWeight.




(** ** The ranker (specification, section 4.3) *)

(** The scored images of a search, in enumeration order: the image at
    index [i] with the dot product of its embedding and the query's. *)
Definition scored (h : Host) (imagePaths : list string)
    (imageEmbeddings : list (list float)) (textEmbedding : list float)
    : list SearchResult :=
  zip_with
    (λ imagePath embedding,
       JinaClipSearch.new_result h imagePath
         (JinaClipSearch.dot embedding textEmbedding))
    imagePaths imageEmbeddings.

(** Every element with its index. *)
Definition enumerate {A} (xs : list A) : list (nat * A) :=
  imap (λ i x, (i, x)) xs.

(** "Filter to entries where [fusedScore >= threshold] (inclusive)." *)
Definition reaches (threshold : float) (e : nat * SearchResult) : Prop :=
  js_ge (similarity e.2) threshold = true.

#[export] Instance reaches_dec threshold e : Decision (reaches threshold e).
Proof. unfold reaches. apply _. Defined.

(** "Sort descending by [fusedScore]; ties broken by original enumeration
    order": [a] stands before [b] when its score is larger, or equal with a
    smaller enumeration index. *)
Definition ranks_before (a b : nat * SearchResult) : Prop :=
  js_gt (similarity a.2) (similarity b.2) = true ∨
  (js_strict_eq (similarity a.2) (similarity b.2) = true ∧ a.1 < b.1).

(** [sorted] is the stable descending sort of [entries]. *)
Definition stable_descending (entries sorted : list (nat * SearchResult)) : Prop :=
  sorted ≡ₚ entries ∧ StronglySorted ranks_before sorted.

(** "The number of files in the folder whose extension is in the supported
    allow-list": a directory entry counts when it is a regular file and
    [isImageFile] accepts its name. *)
Definition is_supported_image (h : Host) (directory file : string) : Prop :=
  match stat h (join (path h) directory file) with
  | Ok fileStat => isFile fileStat && Utils.isImageFile (path h) file = true
  | Throw _ => False
  end.

#[export] Instance is_supported_image_dec h directory file :
  Decision (is_supported_image h directory file).
Proof. unfold is_supported_image. destruct (stat h _); apply _. Defined.

(** The searcher is ready: [initialize] has completed. *)
Definition ready (this : JinaClipSearch.t) : Prop :=
  JinaClipSearch.ensureInitialized this = Ok ().

(** The error of a missing directory. *)
Definition directory_not_found (directory : string) : exn :=
  Error ("Directory not found: " +:+ directory).

(** ** A small host to run the code on *)

(** The part of a name from its last dot on, the empty string when there is
    none: Node's [extname] on entry names that have no slash and do not start
    with a dot. *)
Fixpoint last_dot_suffix (found : string) (s : string) : string :=
  match s with
  | EmptyString => found
  | String c s' =>
      if bool_decide (c = "."%char) then last_dot_suffix s s'
      else last_dot_suffix found s'
  end.

Definition demo_extname (s : string) : string := last_dot_suffix "" s.

(** The part of a path after its last slash: Node's [basename] on paths
    that do not end with a slash. *)
Fixpoint last_segment (found : string) (s : string) : string :=
  match s with
  | EmptyString => found
  | String c s' =>
      if bool_decide (c = "/"%char) then last_segment s' s'
      else last_segment found s'
  end.

Definition demo_basename (s : string) : string := last_segment s s.

Definition demo_path : PathModule :=
  {| join := λ directory file, directory +:+ "/" +:+ file;
     extname := demo_extname;
     basename := demo_basename |}.

(** The image whose single sample is [k]. *)
Definition demo_image (k : Z) : RawImage.t :=
  {| RawImage.data := [k]; RawImage.width := 1%Z; RawImage.height := 1%Z;
     RawImage.channels := 1%Z |}.

(** The processor hands the samples of the images, or nothing for a text. *)
Definition demo_processor : Processor :=
  {| processor_call := λ text images,
       match images with
       | Some imgs =>
           Ok [("pixel_values",
                {| Tensor.dims := [Z.of_nat (length imgs); 1%Z];
                   Tensor.data := (λ img, match RawImage.data img with
                                          | [1%Z] => 1%float
                                          | [2%Z] => 2%float
                                          | _ => 3%float
                                          end) <$> imgs |})]
       | None => Ok []
       end |}.

(** The model embeds sample 1 and sample 3 as [(3, 4)], sample 2 as
    [(4, 3)], and every text as [(3, 4)]; none of them is normalised. *)
Definition demo_embedding (sample : float) : list float :=
  if js_strict_eq sample 2 then [4%float; 3%float] else [3%float; 4%float].

Definition demo_model : PreTrainedModel :=
  {| model_call := λ inputs,
       match inputs with
       | [(_, pixels)] =>
           Ok {| l2norm_image_embeddings := None;
                 image_embeds :=
                   Some {| Tensor.dims := [Z.of_nat (length (Tensor.data pixels)); 2%Z];
                           Tensor.data := Tensor.data pixels ≫= demo_embedding |};
                 image_embeddings := None;
                 l2norm_text_embeddings := None;
                 text_embeds := None;
                 text_embeddings := None |}
       | _ =>
           Ok {| l2norm_image_embeddings := None;
                 image_embeds := None;
                 image_embeddings := None;
                 l2norm_text_embeddings :=
                   Some {| Tensor.dims := [1%Z; 2%Z]; Tensor.data := [3%float; 4%float] |};
                 text_embeds := None;
                 text_embeddings := None |}
       end |}.

(** The folder [photos] holds three images, a text file and a directory
    with an image extension; no other directory exists. *)
Definition demo_host : Host :=
  {| path := demo_path;
     readdir := λ directory,
       if bool_decide (directory = "photos")
       then Ok ["mountain.jpg"; "notes.txt"; "cat.PNG"; "album.gif"; "lake.jpeg"]
       else Throw (Thrown (Some "ENOENT") "ENOENT: no such file or directory, scandir");
     stat := λ p, Ok {| isFile := negb (bool_decide (p = "photos/album.gif")) |};
     RawImage_read := λ p,
       if bool_decide (p = "photos/mountain.jpg") then Ok (demo_image 1)
       else if bool_decide (p = "photos/cat.PNG") then Ok (demo_image 2)
       else Ok (demo_image 3);
     Date_now_start := 1000%Z;
     Date_now_end := 1250%Z;
     AutoProcessor_from_pretrained := λ _, Ok demo_processor;
     AutoModel_from_pretrained := λ _, Ok demo_model;
     InferenceSession_create := λ _,
       Ok {| run := λ _, Ok {[ "logits" :=
                        {| OrtTensor.data := Some [1%float; 5%float; 3%float; 4%float] |} ]};
             outputNames := ["logits"] |};
     read_labels := Ok ["cat"; "dog"; ""; "mountain"];
     preprocessImage := λ _, Ok {| Tensor.dims := [1%Z; 3%Z; 224%Z; 224%Z]; Tensor.data := [] |};
  |}.

(** The searcher after [initialize] on the host. *)
Definition demo_searcher : JinaClipSearch.t :=
  (JinaClipSearch.initialize demo_host JinaClipSearch.new).2.

Definition demo_config : SearchConfig :=
  {| imageFolder := "photos"; query := "mountain";
     threshold := Some 0.5%float; maxResults := Some 2%Z;
     enableAuxScorer := None; fusionWeight := None |}.

(** The states of a searcher on which [initialize] has not yet completed:
    the new object, and what any call other than a successful [initialize]
    leaves behind. *)
Inductive before_initialize : JinaClipSearch.t → Prop :=
  | before_new : before_initialize JinaClipSearch.new
  | before_failed_initialize h this e this' :
      before_initialize this →
      JinaClipSearch.initialize h this = (Throw e, this') →
      before_initialize this'
  | before_search h config this r this' :
      before_initialize this →
      JinaClipSearch.search h config this = (r, this') →
      before_initialize this'
  | before_searchMultiple h imageFolder queries threshold this r this' :
      before_initialize this →
      JinaClipSearch.searchMultiple h imageFolder queries threshold this = (r, this') →
      before_initialize this'
  | before_selfCheck h imageFolder this r this' :
      before_initialize this →
      JinaClipSearch.selfCheck h imageFolder this = (r, this') →
      before_initialize this'.

(** The error of a call on a searcher that is not initialized. *)
Definition not_initialized : exn :=
  Error "Model not initialized. Call initialize() first.".

(** A host on which the model cannot be loaded, and the searcher a failed
    [initialize] leaves on it. *)
Definition offline_host : Host :=
  {| path := path demo_host; readdir := readdir demo_host; stat := stat demo_host;
     RawImage_read := RawImage_read demo_host;
     Date_now_start := Date_now_start demo_host;
     Date_now_end := Date_now_end demo_host;
     AutoProcessor_from_pretrained := AutoProcessor_from_pretrained demo_host;
     AutoModel_from_pretrained := λ _, Throw (Error "fetch failed");
     InferenceSession_create := λ _, Throw (Error "Load model failed");
     read_labels := read_labels demo_host;
     preprocessImage := preprocessImage demo_host |}.

Definition failed_searcher : JinaClipSearch.t :=
  (JinaClipSearch.initialize offline_host JinaClipSearch.new).2.

(** The scorer after [initialize] on the host, with the text embedding of
    the searcher. *)
Definition demo_scorer : MobileNetScorer.t :=
  (MobileNetScorer.initialize demo_host
     (JinaClipSearch.getTextEmbedding demo_searcher) MobileNetScorer.new).2.

(** A scorer whose table holds two labels, on the two axes. *)
Definition axes_scorer : MobileNetScorer.t :=
  {| MobileNetScorer.session := None;
     MobileNetScorer.labels := ["cat"; "dog"];
     MobileNetScorer.labelEmbeddings :=
       {[ "cat" := [1%float; 0%float]; "dog" := [0%float; 1%float] ]};
     MobileNetScorer.isInitialized := true;
     MobileNetScorer.getTextEmbeddingFn := None |}.

(** "Within floating-point tolerance [tol]": the distance of the two
    numbers is at most [tol]. *)
Definition within (tol a b : float) : bool := (abs (a - b) <=? tol)%float.

Definition tol_1e6 : float := 0x1.0c6f7a0b5ed8dp-20%float.

(** ** The order of binary64 numbers *)

(** A finite binary64 number is an integer multiple of [2 ^ emin64]:
    [SFval] is that integer, with the infinities beyond every finite value.
    It is the yardstick of the comparisons below; the code never computes
    it. *)
Definition inf_val : Z := 2 ^ 2200.
Definition emin64 : Z := -1074.
Definition mag (m : positive) (e : Z) : Z := Z.pos m * 2 ^ (e - emin64).
Arguments mag : simpl never.
Definition SFval (x : spec_float) : Z :=
  match x with
  | S754_zero _ => 0
  | S754_finite s m e => cond_Zopp s (mag m e)
  | S754_infinity s => cond_Zopp s inf_val
  | S754_nan => 0
  end.
Definition SF_is_nan (x : spec_float) : bool :=
  match x with S754_nan => true | _ => false end.
Definition SF_signed (s : bool) (x : spec_float) : Prop :=
  match x with
  | S754_finite s' _ _ | S754_infinity s' => s' = s
  | _ => False
  end.
Definition SF_zero_or_nan (x : spec_float) : Prop :=
  match x with
  | S754_zero _ | S754_nan => True
  | _ => False
  end.
Definition fval (x : float) : Z := SFval (Prim2SF x).
Definition SF_finite (x : spec_float) : bool :=
  match x with
  | S754_zero _ | S754_finite _ _ _ => true
  | _ => false
  end.

(** ** The cosine similarity of a vector with itself *)

(** On the yardstick, [A] is [B] up to the relative error [2 ^ - k]. *)
Definition approx (k : Z) (A B : Z) : Prop :=
  (0 < B ∧ 2 ^ k * Z.abs (A - B) ≤ B)%Z.

(** The number [1] on the yardstick. *)
Definition one_val : Z := 2 ^ 1074.

(** A squared norm far from overflow and from underflow: between
    [2 ^ -800] and [2 ^ 800].  The squared norm of a normalized vector is
    about [1]. *)
Definition norm_lo : float := 0x1p-800%float.
Definition norm_hi : float := 0x1p+800%float.
Definition moderate (s : float) : bool :=
  (norm_lo <=? s)%float && (s <=? norm_hi)%float.

(** A zero vector: every component is [0] or [-0]. *)
Definition is_zero (x : float) : bool := js_strict_eq x 0.
Definition zero_vector (v : list float) : bool := forallb is_zero v.

(** Two components whose squares leave the range of binary64: [huge * huge]
    is [Infinity], [tiny * tiny] is [0]. *)
Definition huge : float := 0x1p+600%float.
Definition tiny : float := 0x1p-600%float.

(** ** The life of a searcher and of a scorer *)

(** The states of a searcher: the new object, and what a call of one of its
    four public methods leaves behind, on any host. *)
Inductive reachable : JinaClipSearch.t → Prop :=
  | reachable_new : reachable JinaClipSearch.new
  | reachable_initialize h this r this' :
      reachable this →
      JinaClipSearch.initialize h this = (r, this') →
      reachable this'
  | reachable_search h config this r this' :
      reachable this →
      JinaClipSearch.search h config this = (r, this') →
      reachable this'
  | reachable_searchMultiple h imageFolder queries threshold this r this' :
      reachable this →
      JinaClipSearch.searchMultiple h imageFolder queries threshold this = (r, this') →
      reachable this'
  | reachable_selfCheck h imageFolder this r this' :
      reachable this →
      JinaClipSearch.selfCheck h imageFolder this = (r, this') →
      reachable this'.

(** The error of a failed [initialize]. *)
Definition initialization_failed : exn := Error "Model initialization failed".

(** The host of the demonstration with a dangling entry in [photos]: the
    entry [notes.txt] is listed by [readdir], and [stat] fails on it with
    [ENOENT], as on a symbolic link whose target is gone. *)
Definition dangling_host : Host :=
  {| path := path demo_host; readdir := readdir demo_host;
     stat := λ p,
       if bool_decide (p = "photos/notes.txt")
       then Throw (Thrown (Some "ENOENT") "ENOENT: no such file or directory, stat")
       else stat demo_host p;
     RawImage_read := RawImage_read demo_host;
     Date_now_start := Date_now_start demo_host;
     Date_now_end := Date_now_end demo_host;
     AutoProcessor_from_pretrained := AutoProcessor_from_pretrained demo_host;
     AutoModel_from_pretrained := AutoModel_from_pretrained demo_host;
     InferenceSession_create := InferenceSession_create demo_host;
     read_labels := read_labels demo_host;
     preprocessImage := preprocessImage demo_host |}.

(** The host of the demonstration with another model behind
    [AutoModel.from_pretrained]. *)
Definition with_model (m : PreTrainedModel) : Host :=
  {| path := path demo_host; readdir := readdir demo_host; stat := stat demo_host;
     RawImage_read := RawImage_read demo_host;
     Date_now_start := Date_now_start demo_host;
     Date_now_end := Date_now_end demo_host;
     AutoProcessor_from_pretrained := AutoProcessor_from_pretrained demo_host;
     AutoModel_from_pretrained := λ _, Ok m;
     InferenceSession_create := InferenceSession_create demo_host;
     read_labels := read_labels demo_host;
     preprocessImage := preprocessImage demo_host |}.

(** A model that embeds one image only, however many it is given. *)
Definition one_row_model : PreTrainedModel :=
  {| model_call := λ inputs,
       match inputs with
       | [(_, pixels)] =>
           Ok {| l2norm_image_embeddings := None;
                 image_embeds :=
                   Some {| Tensor.dims := [1%Z; 2%Z]; Tensor.data := [3%float; 4%float] |};
                 image_embeddings := None;
                 l2norm_text_embeddings := None;
                 text_embeds := None;
                 text_embeddings := None |}
       | _ => model_call demo_model inputs
       end |}.

(** A model whose text embedding has one dimension, and whose image
    embeddings have two. *)
Definition short_text_model : PreTrainedModel :=
  {| model_call := λ inputs,
       match inputs with
       | [(_, pixels)] => model_call demo_model inputs
       | _ =>
           Ok {| l2norm_image_embeddings := None;
                 image_embeds := None;
                 image_embeddings := None;
                 l2norm_text_embeddings :=
                   Some {| Tensor.dims := [1%Z; 1%Z]; Tensor.data := [1%float] |};
                 text_embeds := None;
                 text_embeddings := None |}
       end |}.

(** The searcher after [initialize] on a host. *)
Definition searcher_on (h : Host) : JinaClipSearch.t :=
  (JinaClipSearch.initialize h JinaClipSearch.new).2.

(** The [TypeError] of [dot] on a missing embedding. *)
Definition undefined_length : exn :=
  TypeError "Cannot read properties of undefined (reading 'length')".

(** The configuration that [searchMultiple] hands to [search] for a query:
    the folder, the query and the threshold; [maxResults] is left out. *)
Definition query_config (imageFolder query : string) (threshold : option float)
    : SearchConfig :=
  {| imageFolder := imageFolder; query := query;
     threshold := Some (default JinaClipSearch.default_threshold threshold);
     maxResults := None; enableAuxScorer := None; fusionWeight := None |}.

(** The two errors of the scorer. *)
Definition scorer_initialization_failed : exn :=
  Error "MobileNet initialization failed".
Definition scorer_not_initialized : exn :=
  Error "MobileNet not initialized. Call initialize() first.".

(** The order of the classes in [getTopLabels]: a class (its logit and its
    index) stands before another when its logit is larger, or equal with a
    smaller index. *)
Definition logit_before (a b : float * nat) : Prop :=
  js_gt a.1 b.1 = true ∨ (js_strict_eq a.1 b.1 = true ∧ a.2 < b.2).

(** The classes of an output, each logit with its index. *)
Definition classes (logits : list float) : list (float * nat) :=
  imap (λ idx val, (val, idx)) logits.

(** The error of a model that returns none of the three image outputs. *)
Definition no_image_embeddings : exn :=
  Error "Model did not return image embeddings (l2norm_image_embeddings/image_embeds/image_embeddings).".

(** The error of a model that returns none of the three text outputs. *)
Definition no_text_embeddings : exn :=
  Error "Model did not return text embeddings (l2norm_text_embeddings/text_embeds/text_embeddings).".

(** ** index.ts *)

(** [s.includes(sub)] *)
Fixpoint starts_with (sub s : string) : bool :=
  match sub, s with
  | EmptyString, _ => true
  | String c sub', String d s' => bool_decide (c = d) && starts_with sub' s'
  | String _ _, EmptyString => false
  end.

Fixpoint includes (s sub : string) : bool :=
  starts_with sub s ||
  match s with
  | EmptyString => false
  | String _ s' => includes s' sub
  end.

(** The configuration that [main] searches with. *)
Definition main_config : SearchConfig :=
  {| imageFolder := "./images"; query := "tennis";
     threshold := Some 0%float; maxResults := Some 20%Z;
     enableAuxScorer := None; fusionWeight := None |}.

(** How [main] ends: with the results handed to [printResults], or in the
    [catch] block, which prints the message of the error, then the hint to
    create the folder when the message includes "Directory not found", and
    calls [process.exit(1)]. *)
Inductive MainOutcome :=
  | Printed (response : SearchResponse)
  | Exit1 (message : string) (hint : bool).

Definition main_catch (error : exn) : MainOutcome :=
  Exit1 (message error) (includes (message error) "Directory not found").

(** [main()]; [SELF_CHECK] tells whether [process.env.SELF_CHECK] is set. *)
Definition main (h : Host) (SELF_CHECK : bool) : MainOutcome :=
  let searcher := JinaClipSearch.new in
  match JinaClipSearch.initialize h searcher with
  | (Throw error, _) => main_catch error
  | (Ok _, searcher) =>
      match (if SELF_CHECK
             then JinaClipSearch.selfCheck h (imageFolder main_config) searcher
             else (Ok None, searcher)) with
      | (Throw error, _) => main_catch error
      | (Ok _, searcher) =>
          match JinaClipSearch.search h main_config searcher with
          | (Throw error, _) => main_catch error
          | (Ok response, _) => Printed response
          end
      end
  end.

(** ** The words of the specification *)


(** "One of a fixed allow-list {jpg, jpeg, png, bmp, webp, gif}";
    "extension (case-insensitive)". *)
Definition allow_list : list string := ["jpg"; "jpeg"; "png"; "bmp"; "webp"; "gif"].

Definition allowed_extension (ext : string) : bool :=
  bool_decide (toLowerCase ext ∈ (λ name, "." +:+ name) <$> allow_list).

(** "The files in the folder whose extension is in the supported
    allow-list": a directory entry that is a regular file and has an allowed
    extension. *)
Definition listed_image (h : Host) (directory file : string) : bool :=
  match stat h (join (path h) directory file) with
  | Ok fileStat => isFile fileStat && allowed_extension (extname (path h) file)
  | Throw _ => false
  end.

(** The host of the demonstration with one more folder, [empty], that holds
    nothing. *)
Definition empty_folder_host : Host :=
  {| path := path demo_host;
     readdir := λ directory,
       if bool_decide (directory = "empty") then Ok [] else readdir demo_host directory;
     stat := stat demo_host;
     RawImage_read := RawImage_read demo_host;
     Date_now_start := Date_now_start demo_host;
     Date_now_end := Date_now_end demo_host;
     AutoProcessor_from_pretrained := AutoProcessor_from_pretrained demo_host;
     AutoModel_from_pretrained := AutoModel_from_pretrained demo_host;
     InferenceSession_create := InferenceSession_create demo_host;
     read_labels := read_labels demo_host;
     preprocessImage := preprocessImage demo_host |}.


(** * Properties *)

(** ** Binary64 comparisons and the sign of a difference *)

Lemma emin_eq : SpecFloat.emin prec emax = emin64.
Proof. reflexivity. Qed.

Lemma digits2_pos_size p : digits2_pos p = Pos.size p.
Proof. induction p; simpl; congruence. Qed.

Lemma digits2_pos_bounds p :
  (2 ^ (Z.pos (digits2_pos p) - 1) ≤ Z.pos p < 2 ^ Z.pos (digits2_pos p))%Z.
Proof.
  rewrite digits2_pos_size. split.
  - pose proof (Pos.size_le p) as H.
    assert (Z.pos (2 ^ Pos.size p) ≤ Z.pos p~0)%Z as H0 by lia.
    rewrite Pos2Z.inj_pow in H0.
    replace (Z.pos (Pos.size p)) with (Z.succ (Z.pos (Pos.size p) - 1)) in H0 by lia.
    rewrite Z.pow_succ_r in H0 by lia. lia.
  - pose proof (Pos.size_gt p) as H.
    assert (Z.pos p < Z.pos (2 ^ Pos.size p))%Z as H0 by lia.
    by rewrite Pos2Z.inj_pow in H0.
Qed.

Lemma bounded_inv m e :
  bounded prec emax m e = true →
  (emin64 ≤ e ≤ 971)%Z ∧ (Z.pos (digits2_pos m) ≤ 53)%Z ∧
  (emin64 < e → Z.pos (digits2_pos m) = 53)%Z.
Proof.
  unfold bounded, canonical_mantissa, fexp. rewrite emin_eq.
  unfold prec, emax, emin64.
  intros [H1 H2]%andb_prop.
  apply Z.eqb_eq in H1. apply Z.leb_le in H2. lia.
Qed.

Lemma bounded_mantissa m e :
  bounded prec emax m e = true →
  (Z.pos m < 2 ^ 53)%Z ∧ (emin64 < e → 2 ^ 52 ≤ Z.pos m)%Z.
Proof.
  intros (_ & Hd & Hn)%bounded_inv.
  pose proof (digits2_pos_bounds m) as [Hl Hu].
  split.
  - eapply Z.lt_le_trans; [exact Hu|]. apply Z.pow_le_mono_r; lia.
  - intros He. rewrite (Hn He) in Hl. exact Hl.
Qed.

Lemma mag_pos m e : (emin64 ≤ e)%Z → (0 < mag m e)%Z.
Proof.
  intros. unfold mag. pose proof (Z.pow_pos_nonneg 2 (e - emin64)). lia.
Qed.

Lemma mag_lt_exp m1 e1 m2 e2 :
  bounded prec emax m1 e1 = true → bounded prec emax m2 e2 = true →
  (e1 < e2)%Z → (mag m1 e1 < mag m2 e2)%Z.
Proof.
  intros H1 H2 He.
  pose proof (bounded_inv _ _ H1) as ([? ?] & _).
  pose proof (bounded_mantissa _ _ H1) as [Hu1 _].
  pose proof (bounded_mantissa _ _ H2) as [_ Hl2].
  specialize (Hl2 ltac:(lia)).
  unfold mag.
  replace (e2 - emin64)%Z with ((e1 - emin64) + (e2 - e1))%Z by lia.
  rewrite Z.pow_add_r by lia.
  assert (0 < 2 ^ (e1 - emin64))%Z as HA by (apply Z.pow_pos_nonneg; lia).
  assert (2 ^ 1 ≤ 2 ^ (e2 - e1))%Z as HK by (apply Z.pow_le_mono_r; lia).
  change (2 ^ 1)%Z with 2%Z in HK.
  change (2 ^ 53)%Z with (2 * 2 ^ 52)%Z in Hu1.
  set (A := (2 ^ (e1 - emin64))%Z) in *. set (K := (2 ^ (e2 - e1))%Z) in *.
  set (P := (2 ^ 52)%Z) in *.
  assert (0 < P)%Z by (subst P; lia).
  assert (Z.pos m1 * A < 2 * P * A)%Z by (apply Z.mul_lt_mono_pos_r; lia).
  assert (P * (A * 2) ≤ Z.pos m2 * (A * K))%Z.
  { apply Z.mul_le_mono_nonneg; try lia. apply Z.mul_le_mono_nonneg_l; lia. }
  lia.
Qed.

Lemma mag_lt_inf m e : bounded prec emax m e = true → (mag m e < inf_val)%Z.
Proof.
  intros H.
  pose proof (bounded_inv _ _ H) as ([? ?] & _).
  pose proof (bounded_mantissa _ _ H) as [Hu _].
  unfold mag, inf_val.
  assert (2 ^ (e - emin64) ≤ 2 ^ 2045)%Z by (apply Z.pow_le_mono_r; unfold emin64 in *; lia).
  assert (0 < 2 ^ (e - emin64))%Z by (apply Z.pow_pos_nonneg; lia).
  replace 2200%Z with (53 + 2045 + 102)%Z by lia.
  rewrite !Z.pow_add_r by lia.
  set (A := (2 ^ (e - emin64))%Z) in *. set (B := (2 ^ 2045)%Z) in *.
  set (P := (2 ^ 53)%Z) in *. 
  assert (1 < 2 ^ 102)%Z by (apply Z.pow_gt_1; lia).
  set (Q := (2 ^ 102)%Z) in *.
  assert (0 < P)%Z by (subst P; lia).
  assert (Z.pos m * A < P * B)%Z.
  { apply Z.le_lt_trans with (Z.pos m * B)%Z.
    - apply Z.mul_le_mono_nonneg_l; lia.
    - apply Z.mul_lt_mono_pos_r; lia. }
  assert (0 < P * B)%Z by lia.
  assert (P * B * 1 < P * B * Q)%Z by (apply Z.mul_lt_mono_pos_l; lia).
  lia.
Qed.

Lemma inf_val_pos : (0 < inf_val)%Z.
Proof. unfold inf_val. apply Z.pow_pos_nonneg; lia. Qed.

Ltac cmp_by_lia :=
  cbn [SFcompare SFval cond_Zopp]; try done; apply (f_equal Some); symmetry;
  first [ apply Z.compare_eq_iff; lia
        | apply Z.compare_lt_iff; lia
        | apply Z.compare_gt_iff; lia ].

Lemma SFcompare_finite_same_sign mx ex my ey :
  bounded prec emax mx ex = true → bounded prec emax my ey = true →
  match (ex ?= ey)%Z with
  | Eq => Pos.compare_cont Eq mx my
  | Lt => Lt
  | Gt => Gt
  end = (mag mx ex ?= mag my ey)%Z.
Proof.
  intros Hx Hy.
  pose proof (bounded_inv _ _ Hx) as ([? ?] & _).
  pose proof (bounded_inv _ _ Hy) as ([? ?] & _).
  destruct (Z.compare_spec ex ey) as [->|Hlt|Hgt].
  - change (Pos.compare_cont Eq mx my) with (mx ?= my)%positive.
    unfold mag. assert (0 < 2 ^ (ey - emin64))%Z by (apply Z.pow_pos_nonneg; lia).
    destruct (Pos.compare_spec mx my) as [->|Hlt|Hgt]; symmetry.
    + apply Z.compare_refl.
    + apply Z.compare_lt_iff, Z.mul_lt_mono_pos_r; lia.
    + apply Z.compare_gt_iff, Z.mul_lt_mono_pos_r; lia.
  - symmetry. apply Z.compare_lt_iff. by apply mag_lt_exp.
  - symmetry. apply Z.compare_gt_iff. by apply mag_lt_exp.
Qed.

Ltac finite_facts H :=
  lazymatch type of H with
  | bounded _ _ ?m ?e = true =>
      let B := fresh in
      pose proof (bounded_inv _ _ H) as B; destruct B as ([? ?] & _);
      pose proof (mag_lt_inf _ _ H);
      pose proof (mag_pos m e ltac:(lia))
  end.

Lemma SFcompare_val x y :
  valid_binary x = true → valid_binary y = true →
  SF_is_nan x = false → SF_is_nan y = false →
  SFcompare x y = Some (SFval x ?= SFval y)%Z.
Proof.
  intros Hx Hy Nx Ny. pose proof inf_val_pos.
  destruct x as [sx|sx| |sx mx ex], y as [sy|sy| |sy my ey]; try done; simpl in Hx, Hy;
    try finite_facts Hx; try finite_facts Hy.
  - destruct sy; cmp_by_lia.
  - destruct sy; cmp_by_lia.
  - destruct sx; cmp_by_lia.
  - destruct sx, sy; cmp_by_lia.
  - destruct sx, sy; cmp_by_lia.
  - destruct sx; cmp_by_lia.
  - destruct sx, sy; cmp_by_lia.
  - pose proof (SFcompare_finite_same_sign mx ex my ey Hx Hy) as Hxy.
    pose proof (SFcompare_finite_same_sign my ey mx ex Hy Hx) as Hyx.
    destruct sx, sy; [ | cmp_by_lia | cmp_by_lia | ];
      cbn [SFcompare SFval cond_Zopp]; apply (f_equal Some); [ | done ].
    rewrite Z.compare_opp, (Z.compare_antisym (mag mx ex)), <-Hxy.
    by destruct (ex ?= ey)%Z.
Qed.

(** Right shifts *)
Lemma shr_1_m mrs : (0 ≤ shr_m mrs)%Z → shr_m (shr_1 mrs) = (shr_m mrs / 2)%Z.
Proof.
  destruct mrs as [m r s]; cbn [shr_m]. intros Hm.
  destruct m as [|[p|p|]|p]; cbn -[Z.div]; try lia; try done.
  - apply Z.div_unique with 1%Z; lia.
  - apply Z.div_unique with 0%Z; lia.
Qed.

Lemma shr_1_nonneg mrs : (0 ≤ shr_m mrs)%Z → (0 ≤ shr_m (shr_1 mrs))%Z.
Proof. intros H. rewrite shr_1_m by done. apply Z.div_pos; lia. Qed.

Lemma iter_pos_shr_m p : ∀ mrs,
  (0 ≤ shr_m mrs)%Z →
  shr_m (iter_pos shr_1 p mrs) = (shr_m mrs / 2 ^ Z.pos p)%Z.
Proof.
  induction p as [p IH|p IH|]; intros mrs Hm; simpl.
  - assert (0 ≤ shr_m (shr_1 mrs))%Z by by apply shr_1_nonneg.
    assert (0 ≤ shr_m (iter_pos shr_1 p (shr_1 mrs)))%Z.
    { rewrite IH by done. apply Z.div_pos; [done|]. apply Z.pow_pos_nonneg; lia. }
    rewrite !IH, shr_1_m by done.
    rewrite !Z.div_div by (try apply Z.pow_pos_nonneg; lia).
    f_equal. rewrite (Pos2Z.inj_xI p).
    replace (2 * Z.pos p + 1)%Z with (Z.pos p + Z.pos p + 1)%Z by lia.
    rewrite !Z.pow_add_r by lia. change (2 ^ 1)%Z with 2%Z. lia.
  - assert (0 ≤ shr_m (iter_pos shr_1 p mrs))%Z.
    { rewrite IH by done. apply Z.div_pos; [done|]. apply Z.pow_pos_nonneg; lia. }
    rewrite !IH by done.
    rewrite !Z.div_div by (try apply Z.pow_pos_nonneg; lia).
    f_equal. rewrite (Pos2Z.inj_xO p).
    replace (2 * Z.pos p)%Z with (Z.pos p + Z.pos p)%Z by lia.
    by rewrite Z.pow_add_r by lia.
  - rewrite shr_1_m by done. done.
Qed.

Lemma shr_record_of_loc_m m l : shr_m (shr_record_of_loc m l) = m.
Proof. by destruct l as [|[]]. Qed.

Lemma shr_fexp_pos m e l :
  (0 < m)%Z → (emin64 ≤ e)%Z →
  (0 < shr_m (shr_fexp prec emax m e l).1)%Z ∧ (emin64 ≤ (shr_fexp prec emax m e l).2)%Z.
Proof.
  intros Hm He. destruct m as [|p|p]; try lia.
  unfold shr_fexp, shr, fexp. rewrite emin_eq. cbn [Zdigits2].
  pose proof (digits2_pos_bounds p) as [Hl _].
  set (d := Z.pos (digits2_pos p)) in *.
  destruct (Z.max (d + e - prec) emin64 - e)%Z as [|q|q] eqn:Hn;
    cbn [fst snd]; rewrite ?shr_record_of_loc_m; try lia.
  rewrite iter_pos_shr_m by (rewrite shr_record_of_loc_m; lia).
  rewrite shr_record_of_loc_m. unfold prec in *. split; [|lia].
  apply Z.div_str_pos. split; [apply Z.pow_pos_nonneg; lia|].
  etrans; [|exact Hl]. apply Z.pow_le_mono_r; lia.
Qed.

Lemma round_nearest_even_pos m l : (0 < m)%Z → (0 < round_nearest_even m l)%Z.
Proof. intros. destruct l as [|[]]; simpl; try case_match; lia. Qed.

Lemma binary_round_aux_signed s m e l :
  (0 < m)%Z → (emin64 ≤ e)%Z → SF_signed s (binary_round_aux prec emax s m e l).
Proof.
  intros Hm He. unfold binary_round_aux.
  pose proof (shr_fexp_pos m e l Hm He) as [H1 H2].
  destruct (shr_fexp prec emax m e l) as [mrs' e']. cbn [fst snd] in *.
  pose proof (round_nearest_even_pos _ (loc_of_shr_record mrs') H1) as H3.
  pose proof (shr_fexp_pos _ e' loc_Exact H3 H2) as [H4 H5].
  destruct (shr_fexp prec emax _ e' loc_Exact) as [mrs'' e'']. cbn [fst snd] in *.
  destruct (shr_m mrs''); try lia.
  by case_match.
Qed.

Lemma shl_align_spec m e e' :
  let r := shl_align m e e' in
  (r.2 = Z.min e e')%Z ∧ (Z.pos r.1 = Z.pos m * 2 ^ (e - r.2))%Z.
Proof.
  unfold shl_align. destruct (e' - e)%Z as [|d|d] eqn:Hd; cbn [fst snd].
  - split; [lia|]. rewrite Z.sub_diag. lia.
  - split; [lia|]. rewrite Z.sub_diag. lia.
  - split; [lia|]. replace (e - e')%Z with (Z.pos d) by lia.
    change (Pos.iter xO m d) with (shift_pos d m).
    rewrite Zpower.shift_pos_correct, Zpower.Zpower_pos_nat, Zpower.Zpower_nat_Z.
    rewrite positive_nat_Z. lia.
Qed.

Lemma binary_normalize_signed M e :
  (emin64 ≤ e)%Z →
  match M with
  | Z0 => binary_normalize prec emax M e false = S754_zero false
  | Z.pos _ => SF_signed false (binary_normalize prec emax M e false)
  | Z.neg _ => SF_signed true (binary_normalize prec emax M e false)
  end.
Proof.
  intros He. destruct M as [|p|p]; [done|..]; cbn [binary_normalize]; unfold binary_round.
  all: pose proof (shl_align_spec p e (fexp prec emax (Z.pos (digits2_pos p) + e))) as [H1 H2].
  all: destruct (shl_align p e _) as [mz ez]; cbn [fst snd] in *.
  all: apply binary_round_aux_signed; [lia|].
  all: unfold fexp in H1; rewrite emin_eq in H1; lia.
Qed.

Lemma mag_shl_align m e ez :
  (emin64 ≤ ez ≤ e)%Z →
  mag m e = (Z.pos (shl_align m e ez).1 * 2 ^ (ez - emin64))%Z.
Proof.
  intros He. pose proof (shl_align_spec m e ez) as [H1 H2].
  rewrite H2, H1. unfold mag. rewrite Z.min_r by lia.
  rewrite <-Z.mul_assoc, <-Z.pow_add_r by lia. do 2 f_equal. lia.
Qed.

Lemma SFsub_sign x y :
  valid_binary x = true → valid_binary y = true →
  SF_is_nan x = false → SF_is_nan y = false →
  match (SFval x ?= SFval y)%Z with
  | Gt => SF_signed false (SF64sub x y)
  | Lt => SF_signed true (SF64sub x y)
  | Eq => SF_zero_or_nan (SF64sub x y)
  end.
Proof.
  intros Hx Hy Nx Ny. pose proof inf_val_pos.
  destruct x as [sx|sx| |sx mx ex], y as [sy|sy| |sy my ey]; try done; simpl in Hx, Hy;
    try finite_facts Hx; try finite_facts Hy; cbn [SFval cond_Zopp].
  all: try (destruct sx, sy; cbn [cond_Zopp SF64sub SFsub];
            match goal with
            | |- context [(?a ?= ?b)%Z] => destruct (Z.compare_spec a b); try lia
            end; done).
  - unfold SF64sub, SFsub.
    set (ez := Z.min ex ey).
    set (M := (cond_Zopp sx (Z.pos (shl_align mx ex ez).1) -
               cond_Zopp sy (Z.pos (shl_align my ey ez).1))%Z).
    assert (0 < 2 ^ (ez - emin64))%Z as HT by (apply Z.pow_pos_nonneg; lia).
    assert (cond_Zopp sx (mag mx ex) - cond_Zopp sy (mag my ey) = M * 2 ^ (ez - emin64))%Z as HM.
    { rewrite (mag_shl_align mx ex ez), (mag_shl_align my ey ez) by lia.
      subst M. destruct sx, sy; cbn [cond_Zopp]; lia. }
    pose proof (binary_normalize_signed M ez ltac:(lia)) as HN.
    destruct (Z.compare_spec (cond_Zopp sx (mag mx ex)) (cond_Zopp sy (mag my ey))) as [E|E|E].
    + assert (M = 0)%Z as HM0 by nia. rewrite HM0 in HN. by rewrite HM0, HN.
    + assert (M < 0)%Z as HM0 by nia. destruct M; try lia. done.
    + assert (0 < M)%Z as HM0 by nia. destruct M; try lia. done.
Qed.

Lemma is_nan_spec x : is_nan x = SF_is_nan (Prim2SF x).
Proof.
  unfold is_nan. rewrite eqb_spec. unfold SFeqb.
  pose proof (Prim2SF_valid x) as Hv.
  destruct (SF_is_nan (Prim2SF x)) eqn:Hn.
  - by destruct (Prim2SF x).
  - by rewrite SFcompare_val, Z.compare_refl.
Qed.

Lemma ltb_val x y :
  is_nan x = false → is_nan y = false → (x <? y)%float = (fval x <? fval y)%Z.
Proof.
  rewrite !is_nan_spec, ltb_spec. intros Hx Hy. unfold SFltb.
  rewrite SFcompare_val by auto using Prim2SF_valid. done.
Qed.

Lemma leb_val x y :
  is_nan x = false → is_nan y = false → (x <=? y)%float = (fval x <=? fval y)%Z.
Proof.
  rewrite !is_nan_spec, leb_spec. intros Hx Hy. unfold SFleb.
  rewrite SFcompare_val by auto using Prim2SF_valid.
  unfold Z.leb, fval. by destruct (_ ?= _)%Z.
Qed.

Lemma eqb_val x y :
  is_nan x = false → is_nan y = false → (x =? y)%float = (fval x =? fval y)%Z.
Proof.
  rewrite !is_nan_spec, eqb_spec. intros Hx Hy. unfold SFeqb.
  rewrite SFcompare_val by auto using Prim2SF_valid.
  unfold fval.
  destruct (Z.eqb_spec (SFval (Prim2SF x)) (SFval (Prim2SF y))),
    (Z.compare_spec (SFval (Prim2SF x)) (SFval (Prim2SF y))); done || lia.
Qed.

Lemma leb_nan_l x y : is_nan x = true → (x <=? y)%float = false.
Proof.
  rewrite is_nan_spec, leb_spec. unfold SFleb. by destruct (Prim2SF x); simpl.
Qed.

Lemma leb_nan_r x y : is_nan y = true → (x <=? y)%float = false.
Proof.
  rewrite is_nan_spec, leb_spec. unfold SFleb.
  by destruct (Prim2SF x), (Prim2SF y); simpl.
Qed.

Lemma ltb_zero_signed d :
  SFltb (S754_zero false) d = true ↔ SF_signed false d.
Proof. destruct d as [|[]| |[]]; simpl; naive_solver. Qed.

Lemma sub_gt_0 a b :
  is_nan a = false → is_nan b = false →
  (0 <? a - b)%float = (fval b <? fval a)%Z.
Proof.
  intros Ha Hb. rewrite ltb_spec, sub_spec.
  change (Prim2SF 0) with (S754_zero false).
  rewrite !is_nan_spec in *.
  pose proof (SFsub_sign (Prim2SF a) (Prim2SF b) (Prim2SF_valid _) (Prim2SF_valid _) Ha Hb) as Hs.
  unfold fval. rewrite (Z.ltb_antisym), Z.leb_compare.
  destruct (SFval (Prim2SF a) ?= SFval (Prim2SF b))%Z; cbn [negb].
  - apply not_true_is_false. rewrite ltb_zero_signed.
    destruct (SF64sub _ _); naive_solver.
  - apply not_true_is_false. rewrite ltb_zero_signed.
    destruct (SF64sub _ _) as [|[]| |[]]; naive_solver.
  - by apply ltb_zero_signed.
Qed.

(** ** The stable sort *)

Section sort.
Context {A : Type} (comparefn : A → A → float).

Lemma sort_insert_perm x l : sort_insert comparefn x l ≡ₚ x :: l.
Proof.
  induction l as [|y l IH]; simpl; [done|].
  case_match; [|done]. rewrite IH. apply Permutation_swap.
Qed.

Lemma sort_cons x l :
  sort comparefn (x :: l) = sort_insert comparefn x (sort comparefn l).
Proof. done. Qed.

Lemma sort_perm l : sort comparefn l ≡ₚ l.
Proof.
  induction l as [|x l IH]; [done|].
  by rewrite sort_cons, sort_insert_perm, IH.
Qed.

Lemma sort_length l : length (sort comparefn l) = length l.
Proof. by rewrite sort_perm. Qed.
End sort.

Lemma sort_insert_fmap {A B} (f : A → B) (cmp : B → B → float) x l :
  sort_insert cmp (f x) (f <$> l) = f <$> sort_insert (λ a b, cmp (f a) (f b)) x l.
Proof.
  induction l as [|y l IH]; [done|].
  cbn [sort_insert fmap list_fmap].
  destruct (js_gt (cmp (f x) (f y)) 0); [|done].
  cbn [fmap list_fmap]. f_equal. apply IH.
Qed.

Lemma sort_fmap {A B} (f : A → B) (cmp : B → B → float) l :
  sort cmp (f <$> l) = f <$> sort (λ a b, cmp (f a) (f b)) l.
Proof.
  induction l as [|x l IH]; [done|].
  rewrite fmap_cons, !sort_cons, IH. apply sort_insert_fmap.
Qed.

(** Comparisons through [fval] *)
Lemma js_ge_not_nan a t : js_ge a t = true → is_nan a = false ∧ is_nan t = false.
Proof.
  unfold js_ge. intros H. split.
  - destruct (is_nan a) eqn:E; [|done]. by rewrite leb_nan_r in H.
  - destruct (is_nan t) eqn:E; [|done]. by rewrite leb_nan_l in H.
Qed.

Lemma ltb_nan_l x y : is_nan x = true → (x <? y)%float = false.
Proof.
  rewrite is_nan_spec, ltb_spec. unfold SFltb. by destruct (Prim2SF x); simpl.
Qed.
Lemma ltb_nan_r x y : is_nan y = true → (x <? y)%float = false.
Proof.
  rewrite is_nan_spec, ltb_spec. unfold SFltb.
  by destruct (Prim2SF x), (Prim2SF y); simpl.
Qed.
Lemma eqb_nan_l x y : is_nan x = true → (x =? y)%float = false.
Proof.
  rewrite is_nan_spec, eqb_spec. unfold SFeqb. by destruct (Prim2SF x); simpl.
Qed.
Lemma eqb_nan_r x y : is_nan y = true → (x =? y)%float = false.
Proof.
  rewrite is_nan_spec, eqb_spec. unfold SFeqb.
  by destruct (Prim2SF x), (Prim2SF y); simpl.
Qed.

Lemma js_gt_val a b :
  js_gt a b = true ↔ is_nan a = false ∧ is_nan b = false ∧ (fval b < fval a)%Z.
Proof.
  unfold js_gt. split.
  - intros H. destruct (is_nan a) eqn:Ea; [by rewrite ltb_nan_r in H|].
    destruct (is_nan b) eqn:Eb; [by rewrite ltb_nan_l in H|].
    rewrite ltb_val in H by done. split_and!; try done. by apply Z.ltb_lt.
  - intros (Ha & Hb & Hlt). rewrite ltb_val by done. by apply Z.ltb_lt.
Qed.

Lemma js_ge_val a b :
  js_ge a b = true ↔ is_nan a = false ∧ is_nan b = false ∧ (fval b ≤ fval a)%Z.
Proof.
  split.
  - intros H. destruct (js_ge_not_nan _ _ H) as [Ha Hb].
    unfold js_ge in H. rewrite leb_val in H by done. split_and!; try done. by apply Z.leb_le.
  - intros (Ha & Hb & Hlt). unfold js_ge. rewrite leb_val by done. by apply Z.leb_le.
Qed.

Lemma js_strict_eq_val a b :
  js_strict_eq a b = true ↔ is_nan a = false ∧ is_nan b = false ∧ fval a = fval b.
Proof.
  unfold js_strict_eq. split.
  - intros H. destruct (is_nan a) eqn:Ea; [by rewrite eqb_nan_l in H|].
    destruct (is_nan b) eqn:Eb; [by rewrite eqb_nan_r in H|].
    rewrite eqb_val in H by done. split_and!; try done. by apply Z.eqb_eq.
  - intros (Ha & Hb & Hlt). rewrite eqb_val by done. by apply Z.eqb_eq.
Qed.

(** The comparator of [search] is positive exactly when its second argument
    has the larger score. *)
Lemma by_similarity_gt a b :
  is_nan (similarity a) = false → is_nan (similarity b) = false →
  js_gt (JinaClipSearch.by_similarity a b) 0
  = (fval (similarity a) <? fval (similarity b))%Z.
Proof.
  intros Ha Hb. unfold js_gt, JinaClipSearch.by_similarity.
  by rewrite sub_gt_0.
Qed.

(** ** Sortedness of the stable sort *)

Section sort_sorted.
Context {A : Type} (comparefn : A → A → float) (idx : A → nat).
Context (P : A → Prop) (R : relation A) `{!Transitive R}.
Hypothesis comparefn_R : ∀ x y,
  P x → P y → idx x < idx y →
  if js_gt (comparefn x y) 0 then R y x else R x y.

Lemma sort_insert_sorted x l :
  P x → Forall P l →
  Forall (λ y, idx x < idx y) l →
  StronglySorted R l →
  StronglySorted R (sort_insert comparefn x l).
Proof.
  intros Hx HP Hidx Hs. induction Hs as [|y l Hs IH Hy]; cbn [sort_insert].
  { repeat constructor. }
  apply Forall_cons in HP as [HPy HP]. apply Forall_cons in Hidx as [Hxy Hidx].
  pose proof (comparefn_R x y Hx HPy Hxy) as HR.
  destruct (js_gt (comparefn x y) 0).
  - constructor; [by apply IH|].
    rewrite sort_insert_perm. by constructor.
  - constructor; [by constructor|].
    constructor; [done|]. eapply Forall_impl; [exact Hy|].
    intros z Hz. by etrans.
Qed.

Lemma sort_sorted l :
  Forall P l → StronglySorted (λ a b, idx a < idx b) l →
  StronglySorted R (sort comparefn l).
Proof.
  intros HP Hs. induction Hs as [|x l Hs IH Hx]; [constructor|].
  apply Forall_cons in HP as [HPx HP]. rewrite sort_cons.
  apply sort_insert_sorted; [done| | |by apply IH].
  - by rewrite sort_perm.
  - by rewrite sort_perm.
Qed.
End sort_sorted.

(** ** The ranker relation *)

Lemma ranks_before_val a b :
  ranks_before a b ↔
    is_nan (similarity a.2) = false ∧ is_nan (similarity b.2) = false ∧
    ((fval (similarity b.2) < fval (similarity a.2))%Z ∨
     (fval (similarity a.2) = fval (similarity b.2) ∧ a.1 < b.1)).
Proof.
  unfold ranks_before. rewrite js_gt_val, js_strict_eq_val. tauto.
Qed.

#[local] Instance ranks_before_trans : Transitive ranks_before.
Proof. intros a b c. rewrite !ranks_before_val. intros (?&?&?) (?&?&?). split_and!; [done..|lia]. Qed.

Lemma ranks_before_asym a b : ranks_before a b → ranks_before b a → False.
Proof. rewrite !ranks_before_val. lia. Qed.

Lemma stable_descending_unique entries s1 s2 :
  stable_descending entries s1 → stable_descending entries s2 → s1 = s2.
Proof.
  intros [Hp1 Hs1] [Hp2 Hs2].
  apply (StronglySorted_unique_strong ranks_before); [|done..|by rewrite Hp1, Hp2].
  intros x y _ _ Hxy Hyx. destruct (ranks_before_asym _ _ Hxy Hyx).
Qed.

Lemma enumerate_sorted_from {A} (l : list A) k :
  StronglySorted (λ a b : nat * A, a.1 < b.1) (imap (λ i x, (k + i, x)) l).
Proof.
  revert k. induction l as [|x l IH]; intros k; [constructor|].
  rewrite imap_cons. constructor.
  - rewrite (imap_ext _ (λ i x, (S k + i, x))); [apply IH|]. intros; simpl; f_equal; lia.
  - apply Forall_forall. intros [j y] Hy. apply elem_of_lookup_imap in Hy as (i & z & ? & _).
    simplify_eq/=. lia.
Qed.

Lemma enumerate_sorted {A} (l : list A) :
  StronglySorted (λ a b : nat * A, a.1 < b.1) (enumerate l).
Proof. apply (enumerate_sorted_from l 0). Qed.

Lemma enumerate_snd {A} (l : list A) : (enumerate l).*2 = l.
Proof.
  unfold enumerate. rewrite fmap_imap. simpl.
  rewrite (imap_ext _ (λ _ x, x)) by done. induction l; [done|].
  rewrite imap_cons. f_equal. done.
Qed.

Lemma StronglySorted_filter {A} (R : relation A) (P : A → Prop) `{!∀ x, Decision (P x)} l :
  StronglySorted R l → StronglySorted R (filter P l).
Proof.
  induction 1 as [|x l Hs IH Hx]; [constructor|].
  rewrite filter_cons. case_decide; [|done].
  constructor; [done|]. apply Forall_forall. intros y [_ Hy]%list_elem_of_filter.
  by eapply Forall_forall in Hx.
Qed.

(** The stable sort of the entries that reach the threshold. *)
Lemma sort_stable_descending t (entries : list (nat * SearchResult)) :
  StronglySorted (λ a b, a.1 < b.1) entries →
  stable_descending (filter (reaches t) entries)
    (sort (λ a b, JinaClipSearch.by_similarity a.2 b.2) (filter (reaches t) entries)).
Proof.
  intros Hs. split; [apply sort_perm|].
  apply (sort_sorted _ fst (λ e, is_nan (similarity e.2) = false)).
  - apply _.
  - intros x y Hx Hy Hlt. rewrite by_similarity_gt by done.
    destruct (Z.ltb_spec (fval (similarity x.2)) (fval (similarity y.2)));
      apply ranks_before_val; split_and!; try done; lia.
  - apply Forall_forall. intros e [He _]%list_elem_of_filter.
    by apply js_ge_not_nan in He as [? _].
  - by apply StronglySorted_filter.
Qed.

Import JinaClipSearch.

Lemma bind_Ok {A B} (m : result A) (f : A → result B) b :
  m ≫= f = Ok b ↔ ∃ a, m = Ok a ∧ f a = Ok b.
Proof.
  destruct m as [a|e]; simpl.
  - split; [by exists a|]. by intros (? & [= <-] & ?).
  - split; [done|]. by intros (? & [=] & _).
Qed.

Lemma bind_Ok_l {A B} (m : result A) (f : A → result B) a :
  m = Ok a → m ≫= f = f a.
Proof. by intros ->. Qed.

(** ** Slices *)

Lemma slice_index_0 len : slice_index len 0 = 0.
Proof. unfold slice_index. simpl. lia. Qed.

Lemma slice_prefix {A} (xs : list A) (m : Z) :
  slice xs 0 m = take (slice_index (length xs) m) xs.
Proof. unfold slice. rewrite slice_index_0, drop_0. f_equal. lia. Qed.

Lemma slice_nil {A} (a b : Z) : slice (@nil A) a b = [].
Proof. unfold slice. by rewrite drop_nil, take_nil. Qed.

Lemma slice_take {A} (xs : list A) (m : Z) :
  (0 ≤ m)%Z → slice xs 0 m = take (Z.to_nat m) xs.
Proof.
  intros Hm. rewrite slice_prefix. unfold slice_index.
  destruct (Z.ltb_spec m 0); [lia|].
  destruct (Nat.le_ge_cases (Z.to_nat m) (length xs)).
  - by rewrite Nat.min_l.
  - rewrite Nat.min_r by done. by rewrite !take_ge.
Qed.

(** ** The scoring loop *)

Lemma score_loop_spec h imagePaths : ∀ i embs q t acc,
  length imagePaths + i ≤ length embs →
  score_loop h imagePaths i embs q t acc
  = Ok (acc ++ filter (λ r, js_ge (similarity r) t = true)
                 (scored h imagePaths (drop i embs) q)).
Proof.
  induction imagePaths as [|p rest IH]; intros i embs q t acc Hlen.
  { simpl. by rewrite app_nil_r. }
  cbn [score_loop]. simpl in Hlen.
  destruct (lookup_lt_is_Some_2 embs i ltac:(lia)) as [e He].
  rewrite He, (drop_S _ _ _ He), IH by lia.
  unfold scored. cbn [zip_with]. rewrite filter_cons.
  cbn [similarity new_result].
  destruct (js_ge (dot e q) t) eqn:E.
  - rewrite decide_True by done. by rewrite <-app_assoc.
  - rewrite decide_False by done. done.
Qed.

Lemma score_loop_Ok h imagePaths : ∀ i embs q t acc res,
  i ≤ length embs →
  score_loop h imagePaths i embs q t acc = Ok res →
  length imagePaths + i ≤ length embs.
Proof.
  induction imagePaths as [|p rest IH]; intros i embs q t acc res Hi; simpl; [lia|].
  destruct (embs !! i) as [e|] eqn:He; [|done].
  apply lookup_lt_Some in He.
  intros H%IH; lia.
Qed.

(** ** What [search] returns *)

Lemma search_body_run h config this imagePaths images embs q :
  ready this →
  Utils.getImageFiles h (imageFolder config) = Ok imagePaths →
  mapM (RawImage_read h) imagePaths = Ok images →
  getImageEmbeddings this images = Ok embs →
  getTextEmbedding this (query config) = Ok q →
  length imagePaths ≤ length embs →
  let t := default default_threshold (threshold config) in
  let m := default default_maxResults (maxResults config) in
  let ranked :=
    imap set_rank
      (slice (sort by_similarity
                (filter (λ r, js_ge (similarity r) t = true)
                   (scored h imagePaths embs q))) 0 m) in
  search_body h config this
  = Ok {| results := ranked;
          stats := {| totalImages := Z.of_nat (length imagePaths);
                      matchingImages := Z.of_nat (length ranked);
                      processingTimeMs := Date_now_end h - Date_now_start h;
                      stats_query := query config |} |}.
Proof.
  intros Hready Hfiles Himages Hembs Hq Hlen t m ranked.
  unfold search_body. unfold ready in Hready.
  rewrite (bind_Ok_l _ _ _ Hready), (bind_Ok_l _ _ _ Hfiles).
  case_bool_decide as Hnil.
  - apply length_zero_iff_nil in Hnil. subst imagePaths ranked.
    unfold scored. cbn [zip_with]. rewrite filter_nil. unfold sort. cbn [foldr].
    by rewrite slice_nil.
  - rewrite (bind_Ok_l _ _ _ Himages), (bind_Ok_l _ _ _ Hembs), (bind_Ok_l _ _ _ Hq).
    rewrite score_loop_spec by lia. rewrite drop_0. done.
Qed.

Lemma search_body_inv h config this resp :
  search_body h config this = Ok resp →
  ∃ imagePaths embs q,
    ready this ∧
    Utils.getImageFiles h (imageFolder config) = Ok imagePaths ∧
    length imagePaths ≤ length embs ∧
    (imagePaths ≠ [] →
       ∃ images, mapM (RawImage_read h) imagePaths = Ok images ∧
                 getImageEmbeddings this images = Ok embs ∧
                 getTextEmbedding this (query config) = Ok q) ∧
    let t := default default_threshold (threshold config) in
    let m := default default_maxResults (maxResults config) in
    let ranked :=
      imap set_rank
        (slice (sort by_similarity
                  (filter (λ r, js_ge (similarity r) t = true)
                     (scored h imagePaths embs q))) 0 m) in
    resp = {| results := ranked;
              stats := {| totalImages := Z.of_nat (length imagePaths);
                          matchingImages := Z.of_nat (length ranked);
                          processingTimeMs := Date_now_end h - Date_now_start h;
                          stats_query := query config |} |}.
Proof.
  unfold search_body.
  intros ([] & Hready & H)%bind_Ok.
  apply bind_Ok in H as (imagePaths & Hfiles & H).
  case_bool_decide as Hnil.
  - apply length_zero_iff_nil in Hnil. subst imagePaths.
    exists [], [], []. split_and!; [done..|]. injection H as <-.
    unfold scored. cbn [zip_with]. rewrite filter_nil. unfold sort. cbn [foldr].
    by rewrite slice_nil.
  - apply bind_Ok in H as (images & Himages & H).
    apply bind_Ok in H as (embs & Hembs & H).
    apply bind_Ok in H as (q & Hq & H).
    apply bind_Ok in H as (res & Hloop & H).
    pose proof (score_loop_Ok _ _ _ _ _ _ _ _ (Nat.le_0_l _) Hloop) as Hlen.
    rewrite score_loop_spec, drop_0 in Hloop by lia.
    injection Hloop as <-. injection H as <-.
    exists imagePaths, embs, q. split_and!; [done|done|lia| |done].
    intros _. by exists images.
Qed.

(** ** Image enumeration *)

Lemma is_supported_image_stat h directory file fileStat :
  stat h (join (path h) directory file) = Ok fileStat →
  is_supported_image h directory file
  ↔ isFile fileStat && Utils.isImageFile (path h) file = true.
Proof. intros Hstat. unfold is_supported_image. by rewrite Hstat. Qed.

Lemma collectImages_Ok h directory files : ∀ acc imagePaths,
  Utils.collectImages h directory files acc = Ok imagePaths →
  imagePaths
  = acc ++ (join (path h) directory <$> filter (is_supported_image h directory) files).
Proof.
  induction files as [|file files IH]; intros acc imagePaths; cbn [Utils.collectImages].
  { intros [= <-]. by rewrite filter_nil, app_nil_r. }
  intros (fileStat & Hstat & H)%bind_Ok.
  rewrite filter_cons.
  pose proof (is_supported_image_stat _ _ _ _ Hstat) as Hs.
  destruct (isFile fileStat && Utils.isImageFile (path h) file) eqn:E.
  - rewrite decide_True by by apply Hs. apply IH in H as ->.
    by rewrite <-app_assoc.
  - rewrite decide_False by (rewrite Hs; congruence). by apply IH.
Qed.

Lemma collectImages_run h directory files : ∀ acc,
  Forall (λ file, ∃ fileStat, stat h (join (path h) directory file) = Ok fileStat) files →
  Utils.collectImages h directory files acc
  = Ok (acc ++ (join (path h) directory <$> filter (is_supported_image h directory) files)).
Proof.
  induction files as [|file files IH]; intros acc Hstat; cbn [Utils.collectImages].
  { by rewrite filter_nil, app_nil_r. }
  apply Forall_cons in Hstat as [[fileStat Hfile] Hstat].
  rewrite Hfile. cbn [mbind result_mbind result_bind].
  rewrite filter_cons.
  pose proof (is_supported_image_stat _ _ _ _ Hfile) as Hs.
  destruct (isFile fileStat && Utils.isImageFile (path h) file) eqn:E.
  - rewrite decide_True by by apply Hs. rewrite IH by done. by rewrite <-app_assoc.
  - rewrite decide_False by (rewrite Hs; congruence). by apply IH.
Qed.

Lemma getImageFiles_Ok h directory imagePaths :
  Utils.getImageFiles h directory = Ok imagePaths →
  ∃ files, readdir h directory = Ok files ∧
    imagePaths = join (path h) directory <$> filter (is_supported_image h directory) files.
Proof.
  unfold Utils.getImageFiles, try_catch.
  destruct (readdir h directory) as [files|e] eqn:Hread; cbn [mbind result_mbind result_bind].
  - destruct (Utils.collectImages h directory files []) as [ps|e] eqn:Hc.
    + intros [= <-]. exists files. split; [done|]. by apply collectImages_Ok in Hc.
    + by case_bool_decide.
  - by case_bool_decide.
Qed.

(** Any throw inside the [try] block reaches the caller through the
    [catch]: as [Directory not found] when its code is [ENOENT], as itself
    otherwise. *)
Lemma getImageFiles_readdir_throw h directory e :
  readdir h directory = Throw e →
  Utils.getImageFiles h directory
  = Throw (if bool_decide (code e = Some "ENOENT")
           then directory_not_found directory else e).
Proof.
  intros Hread. unfold Utils.getImageFiles, try_catch. rewrite Hread.
  cbn [mbind result_mbind result_bind]. by case_bool_decide.
Qed.

Lemma filter_reaches_snd t (l : list (nat * SearchResult)) :
  filter (λ r, js_ge (similarity r) t = true) l.*2 = (filter (reaches t) l).*2.
Proof.
  induction l as [|[i r] l IH]; [done|].
  rewrite fmap_cons, !filter_cons. cbn [snd].
  destruct (decide (js_ge (similarity r) t = true)), (decide (reaches t (i, r)));
    rewrite ?fmap_cons, IH; done.
Qed.

Lemma StronglySorted_take {A} (R : relation A) n l :
  StronglySorted R l → StronglySorted R (take n l).
Proof.
  intros Hs. rewrite <-(take_drop n l) in Hs. by apply StronglySorted_app_1_l in Hs.
Qed.

Lemma StronglySorted_lookup {A} (R : relation A) l : ∀ i j a b,
  StronglySorted R l → i < j → l !! i = Some a → l !! j = Some b → R a b.
Proof.
  induction l as [|x l IH]; intros i j a b Hs Hij Ha Hb; [done|].
  apply StronglySorted_cons in Hs as [Hall Hs].
  destruct j as [|j]; [lia|]. destruct i as [|i]; simplify_eq/=.
  - eapply Forall_forall in Hall; [done|]. by eapply list_elem_of_lookup_2.
  - eapply (IH i j); [done|lia|done..].
Qed.

(** The array that [search] sorts, seen with the enumeration indices. *)
Lemma sort_scored_entries t (rs : list SearchResult) :
  sort by_similarity (filter (λ r, js_ge (similarity r) t = true) rs)
  = (sort (λ a b, by_similarity a.2 b.2) (filter (reaches t) (enumerate rs))).*2.
Proof.
  rewrite <-(sort_fmap snd by_similarity). f_equal.
  rewrite <-(enumerate_snd rs) at 1.
  apply filter_reaches_snd.
Qed.

(** ** The ranking of [search] *)

(** The response of [search], before the ranks are read off. *)
Lemma search_ranked h config this imagePaths images embs q :
  ready this →
  Utils.getImageFiles h (imageFolder config) = Ok imagePaths →
  mapM (RawImage_read h) imagePaths = Ok images →
  JinaClipSearch.getImageEmbeddings this images = Ok embs →
  JinaClipSearch.getTextEmbedding this (query config) = Ok q →
  length imagePaths ≤ length embs →
  (0 ≤ default default_maxResults (maxResults config))%Z →
  ∃ resp sorted,
    search h config this = (Ok resp, this) ∧
    stable_descending
      (filter (reaches (default default_threshold (threshold config)))
         (enumerate (scored h imagePaths embs q)))
      sorted ∧
    results resp
    = imap set_rank
        (take (Z.to_nat (default default_maxResults (maxResults config))) sorted.*2).
Proof.
  intros Hready Hfiles Himages Hembs Hq Hlen Hm.
  eexists _, _. split_and!.
  - unfold search. by erewrite search_body_run.
  - apply sort_stable_descending, enumerate_sorted.
  - cbn [results]. by rewrite slice_take, sort_scored_entries.
Qed.

(** C2, for a [maxResults] that is not negative.  With threshold [t] and
    [maxResults = m >= 0], [search] returns the entries whose score reaches
    [t], in the stable descending order of the score (ties in enumeration
    order), cut to the first [m]: the result at position [i] (from 0) is the
    kept entry at that position, with its path, score and file name, and
    its [rank] is [i + 1]. *)
Theorem search_ranks_by_score h config this imagePaths images embs q :
  ready this →
  Utils.getImageFiles h (imageFolder config) = Ok imagePaths →
  mapM (RawImage_read h) imagePaths = Ok images →
  JinaClipSearch.getImageEmbeddings this images = Ok embs →
  JinaClipSearch.getTextEmbedding this (query config) = Ok q →
  length imagePaths ≤ length embs →
  (0 ≤ default default_maxResults (maxResults config))%Z →
  ∃ resp sorted,
    search h config this = (Ok resp, this) ∧
    stable_descending
      (filter (reaches (default default_threshold (threshold config)))
         (enumerate (scored h imagePaths embs q)))
      sorted ∧
    let kept := take (Z.to_nat (default default_maxResults (maxResults config))) sorted.*2 in
    length (results resp) = length kept ∧
    ∀ i entry, kept !! i = Some entry →
      ∃ r, results resp !! i = Some r ∧
        imagePath r = imagePath entry ∧ similarity r = similarity entry ∧
        fileName r = fileName entry ∧ rank r = (Z.of_nat i + 1)%Z.
Proof.
  intros Hready Hfiles Himages Hembs Hq Hlen Hm.
  destruct (search_ranked h config this imagePaths images embs q)
    as (resp & sorted & Hrun & Hsorted & Hres); [done..|].
  exists resp, sorted. split_and!; [done..|]. cbv zeta. rewrite Hres. split.
  - by rewrite length_imap.
  - intros i entry Hi. exists (set_rank i entry). split; [|done].
    by rewrite list_lookup_imap, Hi.
Qed.

Lemma search_ranks_by_score_witness :
  ∃ resp sorted,
    search demo_host demo_config demo_searcher = (Ok resp, demo_searcher) ∧
    stable_descending
      (filter (reaches 0.5%float)
         (enumerate (scored demo_host
            ["photos/mountain.jpg"; "photos/cat.PNG"; "photos/lake.jpeg"]
            (normalize <$> [[3%float; 4%float]; [4%float; 3%float]; [3%float; 4%float]])
            (normalize [3%float; 4%float]))))
      sorted ∧
    (let kept := take 2 sorted.*2 in
     length (results resp) = length kept ∧
     ∀ i entry, kept !! i = Some entry →
       ∃ r, results resp !! i = Some r ∧
         imagePath r = imagePath entry ∧ similarity r = similarity entry ∧
         fileName r = fileName entry ∧ rank r = (Z.of_nat i + 1)%Z) ∧
    (λ r, (imagePath r, rank r)) <$> results resp
    = [("photos/mountain.jpg", 1%Z); ("photos/lake.jpeg", 2%Z)].
Proof.
  destruct (search_ranks_by_score demo_host demo_config demo_searcher
              ["photos/mountain.jpg"; "photos/cat.PNG"; "photos/lake.jpeg"]
              [demo_image 1; demo_image 2; demo_image 3]
              (normalize <$> [[3%float; 4%float]; [4%float; 3%float]; [3%float; 4%float]])
              (normalize [3%float; 4%float]))
    as (resp & sorted & Hrun & Hsorted & Hkept);
    [reflexivity|reflexivity|reflexivity|reflexivity|reflexivity|simpl; lia
    |vm_compute; discriminate|].
  exists resp, sorted. split_and!; [exact Hrun|exact Hsorted|exact Hkept|].
  assert ((search demo_host demo_config demo_searcher).1 = Ok resp) as Hresp
    by (by rewrite Hrun).
  vm_compute in Hresp. injection Hresp as <-. reflexivity.
Defined.

(** C2 as it is worded, for every [maxResults], fails at [maxResults = -1]:
    [slice(0, -1)] keeps all the entries but the last one, and of the three
    images that reach the threshold two come back. *)
Lemma search_negative_maxResults_keeps_two :
  ∃ resp,
    search demo_host
      {| imageFolder := "photos"; query := "mountain";
         threshold := Some 0.5%float; maxResults := Some (-1)%Z;
         enableAuxScorer := None; fusionWeight := None |}
      demo_searcher = (Ok resp, demo_searcher) ∧
    (λ r, (imagePath r, rank r)) <$> results resp
    = [("photos/mountain.jpg", 1%Z); ("photos/lake.jpeg", 2%Z)] ∧
    (-1 < Z.of_nat (length (results resp)))%Z.
Proof. eexists. split; [reflexivity|]. split; [reflexivity|]. simpl. lia. Qed.

(** A negative [maxResults] makes [slice] count from the end: of the three
    images that reach the threshold, all but the last come back. *)
Example search_negative_maxResults :
  (λ r, (imagePath r, rank r)) <$>
    match (search demo_host
             {| imageFolder := "photos"; query := "mountain";
                threshold := Some 0.5%float; maxResults := Some (-1)%Z;
                enableAuxScorer := None; fusionWeight := None |}
             demo_searcher).1 with
    | Ok resp => results resp
    | Throw _ => []
    end
  = [("photos/mountain.jpg", 1%Z); ("photos/lake.jpeg", 2%Z)].
Proof. by vm_compute. Qed.

Lemma set_rank_similarity k r : similarity (set_rank k r) = similarity r.
Proof. done. Qed.

Lemma ranks_before_ge a b :
  ranks_before a b → js_ge (similarity a.2) (similarity b.2) = true.
Proof. rewrite ranks_before_val, js_ge_val. intros (?&?&?). split_and!; [done..|lia]. Qed.

Lemma imap_set_rank_ranks (rs : list SearchResult) :
  rank <$> imap set_rank rs = seqZ 1 (Z.of_nat (length rs)).
Proof.
  rewrite fmap_imap. apply list_eq. intros i.
  rewrite list_lookup_imap. destruct (rs !! i) as [r|] eqn:Hr; simpl.
  - apply lookup_lt_Some in Hr as Hi. symmetry.
    rewrite lookup_seqZ. split; lia.
  - apply lookup_ge_None in Hr. symmetry. apply lookup_seqZ_ge. lia.
Qed.

(** C3. Every returned result reaches the threshold; the scores do not
    increase along the list; the ranks of a list of length [n] are
    [1, 2, ..., n]. *)
Theorem search_results_invariants h config this resp this' :
  search h config this = (Ok resp, this') →
  Forall (λ r, js_ge (similarity r) (default default_threshold (threshold config)) = true)
    (results resp) ∧
  (∀ i j a b, i ≤ j → results resp !! i = Some a → results resp !! j = Some b →
     js_ge (similarity a) (similarity b) = true) ∧
  rank <$> results resp = seqZ 1 (Z.of_nat (length (results resp))).
Proof.
  unfold search. intros [= H <-].
  apply search_body_inv in H as (imagePaths & embs & q & _ & _ & _ & _ & ->).
  cbn [results]. set (t := default default_threshold (threshold config)).
  rewrite slice_prefix, sort_scored_entries.
  pose proof (sort_stable_descending t _ (enumerate_sorted (scored h imagePaths embs q)))
    as [Hperm Hsorted].
  set (sorted := sort _ _) in *. rewrite length_fmap.
  set (k := slice_index _ _).
  assert (Forall (reaches t) sorted) as Hreach.
  { rewrite Hperm. apply Forall_forall. by intros e [? _]%list_elem_of_filter. }
  split_and!.
  - apply Forall_forall. intros r (i & r' & -> & Hr')%elem_of_lookup_imap.
    rewrite set_rank_similarity.
    apply list_elem_of_lookup_2, subseteq_take in Hr'.
    apply list_elem_of_fmap in Hr' as (e & -> & He).
    by eapply Forall_forall in Hreach.
  - intros i j a b Hij. rewrite !list_lookup_imap.
    destruct (take k sorted.*2 !! i) as [a'|] eqn:Ha; [|done].
    destruct (take k sorted.*2 !! j) as [b'|] eqn:Hb; [|done].
    intros [= <-] [= <-]. rewrite !set_rank_similarity.
    rewrite <-fmap_take in Ha, Hb.
    apply list_lookup_fmap_Some in Ha as (ea & -> & Hea).
    apply list_lookup_fmap_Some in Hb as (eb & -> & Heb).
    destruct (decide (i = j)) as [Heq|Hne].
    + subst j. assert (eb = ea) as -> by congruence.
      apply list_elem_of_lookup_2, subseteq_take in Hea.
      eapply Forall_forall in Hreach; [|done].
      apply js_ge_not_nan in Hreach as [Hn _]. apply js_ge_val. split_and!; [done..|lia].
    + apply ranks_before_ge.
      apply (StronglySorted_lookup _ (take k sorted) i j); [|lia|done..].
      by apply StronglySorted_take.
  - rewrite length_imap. apply imap_set_rank_ranks.
Qed.

Lemma search_results_invariants_witness :
  ∃ resp,
    search demo_host demo_config demo_searcher = (Ok resp, demo_searcher) ∧
    length (results resp) = 2 ∧
    Forall (λ r, js_ge (similarity r) 0.5 = true) (results resp) ∧
    (∀ i j a b, i ≤ j → results resp !! i = Some a → results resp !! j = Some b →
       js_ge (similarity a) (similarity b) = true) ∧
    rank <$> results resp = [1; 2]%Z.
Proof.
  eexists. split; [vm_compute; reflexivity|]. split; [reflexivity|].
  eapply (search_results_invariants demo_host demo_config demo_searcher).
  vm_compute; reflexivity.
Defined.

(** ** The statistics of [search] *)

(** The files that [isImageFile] accepts are those of the allow-list. *)
Lemma listed_image_supported h directory file :
  is_supported_image h directory file ↔ listed_image h directory file = true.
Proof.
  unfold is_supported_image, listed_image.
  destruct (stat h _) as [fileStat|e]; [|done].
  unfold Utils.isImageFile, allowed_extension.
  by change ((λ name, "." +:+ name) <$> allow_list) with SUPPORTED_IMAGE_FORMATS.
Qed.

(** C4. [totalImages] is the number of directory entries that are regular
    files whose extension, whatever its letter case, is in the allow-list
    {jpg, jpeg, png, bmp, webp, gif}; the threshold has no part in it;
    [matchingImages] is the length of the returned list; an empty folder
    gives the empty list and two zeros. *)
Theorem search_stats h config this :
  (∀ resp this', search h config this = (Ok resp, this') →
   ∃ files, readdir h (imageFolder config) = Ok files ∧
     totalImages (stats resp)
     = Z.of_nat (length (filter (λ file, listed_image h (imageFolder config) file = true)
                           files)) ∧
     matchingImages (stats resp) = Z.of_nat (length (results resp))) ∧
  (ready this → readdir h (imageFolder config) = Ok [] →
   ∃ resp, search h config this = (Ok resp, this) ∧
     results resp = [] ∧
     totalImages (stats resp) = 0%Z ∧ matchingImages (stats resp) = 0%Z).
Proof.
  split.
  - unfold search. intros resp this' [= H <-].
    apply search_body_inv in H as (imagePaths & embs & q & _ & Hfiles & _ & _ & ->).
    apply getImageFiles_Ok in Hfiles as (files & Hread & ->).
    exists files. cbn [results stats totalImages matchingImages].
    rewrite length_fmap. split_and!; [done| |done].
    do 2 f_equal. apply list_filter_iff. intros file. apply listed_image_supported.
  - intros Hready Hread. unfold search, search_body. unfold ready in Hready.
    rewrite (bind_Ok_l _ _ _ Hready).
    unfold Utils.getImageFiles. rewrite Hread. cbn. eauto.
Qed.

Lemma search_stats_witness :
  (∃ resp,
     search demo_host
       {| imageFolder := "photos"; query := "mountain"; threshold := Some 2%float;
          maxResults := None; enableAuxScorer := None; fusionWeight := None |}
       demo_searcher = (Ok resp, demo_searcher) ∧
     totalImages (stats resp) = 3%Z ∧ matchingImages (stats resp) = 0%Z ∧
     results resp = []) ∧
  (∃ resp,
     search empty_folder_host
       {| imageFolder := "empty"; query := "mountain"; threshold := None;
          maxResults := None; enableAuxScorer := None; fusionWeight := None |}
       demo_searcher = (Ok resp, demo_searcher) ∧
     results resp = [] ∧
     totalImages (stats resp) = 0%Z ∧ matchingImages (stats resp) = 0%Z).
Proof.
  split.
  - eexists. split; [reflexivity|].
    destruct (proj1 (search_stats demo_host
                {| imageFolder := "photos"; query := "mountain"; threshold := Some 2%float;
                   maxResults := None; enableAuxScorer := None; fusionWeight := None |}
                demo_searcher) _ demo_searcher eq_refl)
      as (files & Hread & Htotal & Hmatch).
    vm_compute in Hread. injection Hread as <-.
    split_and!; [exact Htotal|exact Hmatch|reflexivity].
  - apply (proj2 (search_stats empty_folder_host
             {| imageFolder := "empty"; query := "mountain"; threshold := None;
                maxResults := None; enableAuxScorer := None; fusionWeight := None |}
             demo_searcher)); reflexivity.
Defined.

(** ** Errors of the enumeration *)

Lemma getImageFiles_throw h directory e :
  (readdir h directory ≫= λ files, Utils.collectImages h directory files []) = Throw e →
  Utils.getImageFiles h directory
  = Throw (if bool_decide (code e = Some "ENOENT")
           then directory_not_found directory else e).
Proof.
  intros Hbody. unfold Utils.getImageFiles, try_catch.
  change (files ← readdir h directory; Utils.collectImages h directory files [])
    with (readdir h directory ≫= λ files, Utils.collectImages h directory files []).
  rewrite Hbody. by case_bool_decide.
Qed.

Lemma search_getImageFiles_throw h config this e :
  ready this →
  Utils.getImageFiles h (imageFolder config) = Throw e →
  search h config this = (Throw e, this).
Proof.
  intros Hready He. unfold search, search_body. unfold ready in Hready.
  by rewrite (bind_Ok_l _ _ _ Hready), He.
Qed.




(** ** Calls before [initialize] *)

Lemma before_initialize_flag this :
  before_initialize this → isInitialized this = false.
Proof.
  induction 1 as [|h this e this' _ IH Hinit|h config this r this' _ IH Hcall
                 |h folder queries t this r this' _ IH Hcall
                 |h folder this r this' _ IH Hcall].
  - done.
  - unfold initialize in Hinit. rewrite IH in Hinit.
    destruct (AutoProcessor_from_pretrained h _); [|by injection Hinit as _ <-].
    destruct (AutoModel_from_pretrained h _); [done|].
    by injection Hinit as _ <-.
  - by injection Hcall as _ <-.
  - by injection Hcall as _ <-.
  - by injection Hcall as _ <-.
Qed.

Lemma ensureInitialized_flag this :
  isInitialized this = false → ensureInitialized this = Throw not_initialized.
Proof. intros H. unfold ensureInitialized. by rewrite H. Qed.

(** C10. On a searcher whose [initialize] has not completed, [search],
    [searchMultiple] and [selfCheck] throw the not-initialized error, give no
    result and leave the searcher as it was. *)
Theorem calls_before_initialize this :
  before_initialize this →
  ∀ h config imageFolder queries threshold,
    search h config this = (Throw not_initialized, this) ∧
    searchMultiple h imageFolder queries threshold this = (Throw not_initialized, this) ∧
    selfCheck h imageFolder this = (Throw not_initialized, this).
Proof.
  intros Hflag%before_initialize_flag%ensureInitialized_flag h config folder queries t.
  unfold search, search_body, searchMultiple, selfCheck. by rewrite Hflag.
Qed.

Lemma calls_before_initialize_witness :
  isInitialized failed_searcher = false ∧
  is_Some (processor failed_searcher) ∧
  ∀ h config imageFolder queries threshold,
    search h config failed_searcher = (Throw not_initialized, failed_searcher) ∧
    searchMultiple h imageFolder queries threshold failed_searcher
    = (Throw not_initialized, failed_searcher) ∧
    selfCheck h imageFolder failed_searcher = (Throw not_initialized, failed_searcher).
Proof.
  split; [reflexivity|]. split; [by eexists|].
  apply calls_before_initialize.
  apply (before_failed_initialize offline_host new (Error "Model initialization failed")).
  - apply before_new.
  - reflexivity.
Defined.

(** ** [Math.max] *)








Lemma Math_max_from_nan xs : ∀ highest,
  Exists (λ x, is_nan x = true) xs → Math_max_from highest xs = nan.
Proof.
  induction xs as [|x xs IH]; intros highest; [by intros ?%Exists_nil|].
  intros [Hx|Hxs]%Exists_cons; cbn [Math_max_from].
  - by rewrite Hx.
  - destruct (is_nan x); [done|]. repeat case_match; by apply IH.
Qed.

(** ** The semantic score *)

Import MobileNetScorer.

Lemma collect_similarities_spec this imageLabels q : ∀ similarities,
  collect_similarities this imageLabels q similarities
  = similarities
    ++ (dot q <$> omap (λ label, labelEmbeddings this !! label) imageLabels).
Proof.
  induction imageLabels as [|label rest IH]; intros sims; cbn [collect_similarities omap list_omap].
  { by rewrite app_nil_r. }
  destruct (labelEmbeddings this !! label) as [e|]; rewrite IH; [|done].
  by rewrite <-app_assoc.
Qed.






(** ** The labels of the classifier *)




(** A negative [topK] makes [slice] count from the end: all labels but the
    last ones come back. *)
Example getTopLabels_negative_topK :
  (getTopLabels demo_host (demo_image 1) (Some (-1)%Z) demo_scorer).1
  = Ok ["dog"; "mountain"; "unknown"].
Proof. by vm_compute. Qed.

(** ** Exact products and sums *)

Lemma is_finite_spec x : is_finite x = SF_finite (Prim2SF x).
Proof.
  unfold is_finite, is_infinity. rewrite is_nan_spec, eqb_spec, abs_spec.
  change (Prim2SF infinity) with (S754_infinity false).
  by destruct (Prim2SF x) as [|[]| |].
Qed.









(** ** The fused score *)



Lemma clamp_weight_range w :
  is_nan w = false →
  js_ge (clamp_weight w) 0 = true ∧ js_ge 1 (clamp_weight w) = true ∧
  (js_ge w 0 = true → js_ge 1 w = true → clamp_weight w = w).
Proof.
  intros Hw. unfold clamp_weight.
  destruct (js_gt 0 w) eqn:H0; [|destruct (js_gt w 1) eqn:H1].
  - split_and!; [done..|]. intros (_&_&?)%js_ge_val.
    apply js_gt_val in H0 as (_&_&?). lia.
  - split_and!; [done..|]. intros _ (_&_&?)%js_ge_val.
    apply js_gt_val in H1 as (_&_&?). lia.
  - split_and!; [| |done].
    + apply js_ge_val. split_and!; [done..|].
      destruct (Z.le_gt_cases (fval 0) (fval w)); [done|].
      assert (js_gt 0 w = true) by (apply js_gt_val; by split_and!). congruence.
    + apply js_ge_val. split_and!; [done..|].
      destruct (Z.le_gt_cases (fval w) (fval 1)); [done|].
      assert (js_gt w 1 = true) by (apply js_gt_val; by split_and!). congruence.
Qed.




(** ** The scores of [search] *)

Lemma getImageEmbeddings_Ok this images embs :
  JinaClipSearch.getImageEmbeddings this images = Ok embs →
  ∃ raws, embs = JinaClipSearch.normalize <$> raws.
Proof.
  unfold JinaClipSearch.getImageEmbeddings.
  intros ([] & _ & H)%bind_Ok.
  apply bind_Ok in H as (p & _ & H). apply bind_Ok in H as (inputs & _ & H).
  apply bind_Ok in H as (m & _ & H). apply bind_Ok in H as (outputs & _ & H).
  repeat case_match; try done;
    apply bind_Ok in H as (arr & _ & [= <-]); by exists arr.
Qed.

Lemma getTextEmbedding_Ok this text q :
  JinaClipSearch.getTextEmbedding this text = Ok q →
  ∃ raw, q = JinaClipSearch.normalize raw.
Proof.
  unfold JinaClipSearch.getTextEmbedding.
  intros ([] & _ & H)%bind_Ok.
  apply bind_Ok in H as (p & _ & H). apply bind_Ok in H as (inputs & _ & H).
  apply bind_Ok in H as (m & _ & H). apply bind_Ok in H as (outputs & _ & H).
  repeat case_match; try done; injection H as <-; by eexists.
Qed.

Lemma elem_of_scored h imagePaths embs q r :
  r ∈ scored h imagePaths embs q →
  ∃ i e, imagePaths !! i = Some (imagePath r) ∧ embs !! i = Some e ∧
         similarity r = JinaClipSearch.dot e q.
Proof.
  unfold scored. intros (i & p & e & -> & Hp & He)%elem_of_lookup_zip_with.
  by exists i, e.
Qed.

(** ** The cosine similarity of a vector with itself *)

(** ** Rounding to 53 bits *)

Lemma Zdigits2_le_53 m : (0 < m < 2 ^ 53)%Z → (Zdigits2 m ≤ 53)%Z.
Proof.
  intros [Hm Hu]. destruct m as [|p|p]; try lia. cbn [Zdigits2].
  pose proof (digits2_pos_bounds p) as [Hl _].
  destruct (Z.le_gt_cases (Z.pos (digits2_pos p)) 53) as [|Hgt]; [done|].
  assert (2 ^ 53 ≤ 2 ^ (Z.pos (digits2_pos p) - 1))%Z by (apply Z.pow_le_mono_r; lia).
  lia.
Qed.

Lemma shr_fexp_floor M E l :
  (0 < M)%Z → (emin64 ≤ E)%Z →
  let n := Z.max 0 (Zdigits2 M - 53) in
  shr_m (shr_fexp prec emax M E l).1 = (M / 2 ^ n)%Z ∧
  (shr_fexp prec emax M E l).2 = (E + n)%Z ∧
  (n = 0%Z → (shr_fexp prec emax M E l).1 = shr_record_of_loc M l).
Proof.
  intros HM HE n. unfold shr_fexp, shr, fexp. rewrite emin_eq.
  assert (Z.max (Zdigits2 M + E - prec) emin64 - E = n ∨
          (Z.max (Zdigits2 M + E - prec) emin64 - E ≤ 0 ∧ n = 0))%Z as Hn
    by (unfold prec, n; lia).
  destruct (Z.max (Zdigits2 M + E - prec) emin64 - E)%Z as [|q|q] eqn:Hq;
    cbn [fst snd]; rewrite ?shr_record_of_loc_m.
  - assert (n = 0)%Z as -> by lia. rewrite Z.div_1_r. split_and!; [lia..|done].
  - destruct Hn as [Hn|[? _]]; [|lia].
    rewrite iter_pos_shr_m by (rewrite shr_record_of_loc_m; lia).
    rewrite shr_record_of_loc_m, Hn. split_and!; [done..|lia].
  - assert (n = 0)%Z as -> by lia. rewrite Z.div_1_r. split_and!; [lia..|done].
Qed.

Lemma round_nearest_even_cases m l :
  round_nearest_even m l = m ∨ round_nearest_even m l = (m + 1)%Z.
Proof. destruct l as [|[]]; simpl; try case_match; auto. Qed.

(** The value that [binary_round_aux] returns for the mantissa [M] and the
    exponent [E]: the floor of [M] on 53 bits or its successor, on the
    exponent of that floor. *)
Lemma binary_round_aux_value s M E l :
  (0 < M)%Z → (emin64 ≤ E)%Z →
  let n := Z.max 0 (Zdigits2 M - 53) in
  (E + n + 1 ≤ 971)%Z →
  ∃ m2 mr er,
    (m2 = M / 2 ^ n ∨ m2 = M / 2 ^ n + 1)%Z ∧
    (l = loc_Exact → n = 0%Z → m2 = M) ∧
    binary_round_aux prec emax s M E l = S754_finite s mr er ∧
    (E + n ≤ er ≤ E + n + 1)%Z ∧
    mag mr er = (m2 * 2 ^ (E + n - emin64))%Z.
Proof.
  intros HM HE n Hover. unfold binary_round_aux.
  pose proof (shr_fexp_floor M E l HM HE) as (H1m & H1e & H1x). fold n in H1m, H1e, H1x.
  pose proof (shr_fexp_pos M E l HM HE) as [H1p _].
  destruct (shr_fexp prec emax M E l) as [mrs' e']. cbn [fst snd] in *.
  set (m1 := (M / 2 ^ n)%Z) in *.
  set (m2 := round_nearest_even (shr_m mrs') (loc_of_shr_record mrs')).
  assert (m2 = m1 ∨ m2 = m1 + 1)%Z as Hm2
    by (unfold m2; rewrite <-H1m; apply round_nearest_even_cases).
  assert (m1 < 2 ^ 53)%Z as Hm1.
  { unfold m1. apply Z.div_lt_upper_bound; [apply Z.pow_pos_nonneg; lia|].
    destruct M as [|p|p]; try lia. cbn [Zdigits2] in *.
    pose proof (digits2_pos_bounds p) as [_ Hu].
    eapply Z.lt_le_trans; [exact Hu|]. rewrite <-Z.pow_add_r by lia.
    apply Z.pow_le_mono_r; lia. }
  assert (0 < m2)%Z as Hm2p by lia.
  pose proof (shr_fexp_floor m2 e' loc_Exact Hm2p ltac:(lia)) as (H2m & H2e & _).
  pose proof (shr_fexp_pos m2 e' loc_Exact Hm2p ltac:(lia)) as [H2p _].
  destruct (shr_fexp prec emax m2 e' loc_Exact) as [mrs'' e'']. cbn [fst snd] in *.
  assert ((Zdigits2 m2 ≤ 53 ∧ m2 < 2 ^ 53) ∨ (m2 = 2 ^ 53 ∧ Zdigits2 m2 = 54))%Z as Hd.
  { destruct (Z.lt_ge_cases m2 (2 ^ 53)) as [Hlt|Hge].
    - left. split; [|done]. apply Zdigits2_le_53. lia.
    - right. assert (m2 = 2 ^ 53)%Z as -> by lia. done. }
  exists m2.
  destruct (shr_m mrs'') as [|mr|] eqn:Hmr; try lia.
  exists mr, e''.
  assert (e'' ≤ 971)%Z by lia.
  rewrite (proj2 (Z.leb_le _ _)) by (unfold emax, prec; lia).
  split_and!; [done| |done|lia|lia|].
  - intros -> Hn0. unfold m2. by rewrite (H1x Hn0).
  - unfold mag. destruct Hd as [[Hd _]|[Heq Hd]].
    + rewrite Z.max_l, Z.div_1_r in H2m by lia. rewrite Z.max_l in H2e by lia.
      rewrite H2m, H2e, H1e. do 2 f_equal. lia.
    + rewrite Hd in H2m, H2e. change (Z.max 0 (54 - 53)) with 1%Z in *.
      rewrite H2m, H2e, H1e, Heq.
      change (2 ^ 53 / 2 ^ 1)%Z with (2 ^ 52)%Z.
      replace (E + n + 1 - emin64)%Z with (1 + (E + n - emin64))%Z by lia.
      rewrite Z.pow_add_r by lia. change (2 ^ 53)%Z with (2 ^ 52 * 2 ^ 1)%Z. lia.
Qed.

Lemma Zdigits2_bounds M :
  (0 < M)%Z → (2 ^ (Zdigits2 M - 1) ≤ M < 2 ^ Zdigits2 M)%Z.
Proof. intros HM. destruct M as [|p|p]; try lia. apply digits2_pos_bounds. Qed.

(** The floor on 53 bits of a mantissa of at least 53 bits. *)
Lemma floor_53 M :
  (2 ^ 52 ≤ M)%Z →
  let n := Z.max 0 (Zdigits2 M - 53) in
  (0 ≤ n ∧ 2 ^ 52 ≤ M / 2 ^ n < 2 ^ 53 ∧
   M / 2 ^ n * 2 ^ n ≤ M < (M / 2 ^ n + 1) * 2 ^ n)%Z.
Proof.
  intros HM n. pose proof (Zdigits2_bounds M ltac:(lia)) as [Hl Hu].
  assert (53 ≤ Zdigits2 M)%Z as Hd.
  { destruct (Z.le_gt_cases 53 (Zdigits2 M)); [done|].
    assert (2 ^ Zdigits2 M ≤ 2 ^ 52)%Z by (apply Z.pow_le_mono_r; lia). lia. }
  assert (n = Zdigits2 M - 53)%Z as Hn by lia.
  assert (0 < 2 ^ n)%Z as Hp by (apply Z.pow_pos_nonneg; lia).
  pose proof (Z.div_mod M (2 ^ n) ltac:(lia)) as Hdm.
  pose proof (Z.mod_pos_bound M (2 ^ n) Hp) as Hmod.
  split; [lia|]. split; [split|nia].
  - apply Z.div_le_lower_bound; [done|]. rewrite <-Z.pow_add_r by lia.
    etrans; [|exact Hl]. apply Z.pow_le_mono_r; lia.
  - apply Z.div_lt_upper_bound; [done|]. rewrite <-Z.pow_add_r by lia.
    eapply Z.lt_le_trans; [exact Hu|]. apply Z.pow_le_mono_r; lia.
Qed.

Lemma Zdigits2_range M a b :
  (0 ≤ a)%Z → (2 ^ a ≤ M < 2 ^ b)%Z → (a + 1 ≤ Zdigits2 M ≤ b)%Z.
Proof.
  intros Ha [Hl Hu].
  assert (0 < M)%Z as HM by (pose proof (Z.pow_pos_nonneg 2 a); lia).
  pose proof (Zdigits2_bounds M HM) as [Hdl Hdu].
  assert (0 < Zdigits2 M)%Z by (destruct M; cbn; lia).
  split.
  - destruct (Z.le_gt_cases (a + 1) (Zdigits2 M)); [done|].
    assert (2 ^ Zdigits2 M ≤ 2 ^ a)%Z by (apply Z.pow_le_mono_r; lia). lia.
  - destruct (Z.le_gt_cases (Zdigits2 M) b); [done|].
    assert (2 ^ b ≤ 2 ^ (Zdigits2 M - 1))%Z by (apply Z.pow_le_mono_r; lia). lia.
Qed.

(** ** Relative distance of scaled values *)

Lemma approx_scale k A B T : approx k A B → (0 < T)%Z → approx k (A * T) (B * T).
Proof.
  intros [HB H] HT. split; [lia|].
  replace (A * T - B * T)%Z with ((A - B) * T)%Z by lia.
  rewrite Z.abs_mul, (Z.abs_eq T) by lia. nia.
Qed.

Lemma approx_unscale k A B T : approx k (A * T) (B * T) → (0 < T)%Z → approx k A B.
Proof.
  intros [HB H] HT. split; [nia|].
  replace (A * T - B * T)%Z with ((A - B) * T)%Z in H by lia.
  rewrite Z.abs_mul, (Z.abs_eq T) in H by lia. nia.
Qed.

Lemma approx_weaken k k' A B : approx k A B → (0 ≤ k' ≤ k)%Z → approx k' A B.
Proof.
  intros [HB H] Hk. split; [done|].
  assert (2 ^ k' ≤ 2 ^ k)%Z by (apply Z.pow_le_mono_r; lia).
  pose proof (Z.abs_nonneg (A - B)). nia.
Qed.

Lemma approx_bounds k A B :
  approx k A B → (1 ≤ k)%Z → (B ≤ 2 * A ∧ 2 * A ≤ 3 * B)%Z.
Proof.
  intros [HB H] Hk.
  assert (2 ^ 1 ≤ 2 ^ k)%Z by (apply Z.pow_le_mono_r; lia).
  change (2 ^ 1)%Z with 2%Z in *.
  assert (2 * Z.abs (A - B) ≤ 2 ^ k * Z.abs (A - B))%Z
    by (apply Z.mul_le_mono_nonneg_r; [apply Z.abs_nonneg|done]).
  lia.
Qed.

Lemma approx_sym k A B : approx k A B → (1 ≤ k)%Z → approx (k - 1) B A.
Proof.
  intros HAB Hk. pose proof (approx_bounds _ _ _ HAB Hk) as [H1 H2].
  destruct HAB as [HB H]. split; [lia|].
  replace k with (1 + (k - 1))%Z in H by lia. rewrite Z.pow_add_r in H by lia.
  change (2 ^ 1)%Z with 2%Z in H.
  replace (B - A)%Z with (- (A - B))%Z by lia. rewrite Z.abs_opp.
  assert (0 ≤ 2 ^ (k - 1) * Z.abs (A - B))%Z.
  { apply Z.mul_nonneg_nonneg; [apply Z.pow_nonneg; lia|apply Z.abs_nonneg]. }
  lia.
Qed.

Lemma approx_trans k A B C :
  approx k A B → approx k B C → (2 ≤ k)%Z → approx (k - 2) A C.
Proof.
  intros HAB HBC Hk. pose proof (approx_bounds _ _ _ HBC ltac:(lia)) as [H1 H2].
  destruct HAB as [HB H], HBC as [HC H'].
  split; [done|].
  replace k with (2 + (k - 2))%Z in H, H' by lia. rewrite Z.pow_add_r in H, H' by lia.
  change (2 ^ 2)%Z with 4%Z in *.
  assert (0 < 2 ^ (k - 2))%Z by (apply Z.pow_pos_nonneg; lia).
  pose proof (Z.abs_triangle (A - B) (B - C)) as Htri.
  replace (A - B + (B - C))%Z with (A - C)%Z in Htri by lia.
  nia.
Qed.

Lemma one_val_pos : (0 < one_val)%Z.
Proof. unfold one_val. apply Z.pow_pos_nonneg; lia. Qed.

Lemma normal_mantissa m e :
  bounded prec emax m e = true → (emin64 < e)%Z → (2 ^ 52 ≤ Z.pos m < 2 ^ 53)%Z.
Proof. intros [Hu Hl]%bounded_mantissa He. auto. Qed.

(** The rounded value against the exact one, for a mantissa of at least 53
    bits: both lie between the floor and its successor. *)
Lemma rounded_approx m2 M n T :
  (2 ^ 52 ≤ M / 2 ^ n)%Z →
  (M / 2 ^ n * 2 ^ n ≤ M < (M / 2 ^ n + 1) * 2 ^ n)%Z →
  (m2 = M / 2 ^ n ∨ m2 = M / 2 ^ n + 1)%Z →
  (0 < T)%Z → (0 ≤ n)%Z →
  approx 52 (m2 * (2 ^ n * T)) (M * T).
Proof.
  intros Hm1 [Hlo Hhi] Hm2 HT Hn.
  assert (0 < 2 ^ n)%Z as Hp by (apply Z.pow_pos_nonneg; lia).
  set (m1 := (M / 2 ^ n)%Z) in *. set (P := (2 ^ n)%Z) in *.
  split; [nia|].
  assert (Z.abs (m2 * (P * T) - M * T) ≤ P * T)%Z as Habs.
  { replace (m2 * (P * T) - M * T)%Z with ((m2 * P - M) * T)%Z by lia.
    rewrite Z.abs_mul, (Z.abs_eq T) by lia.
    apply Z.mul_le_mono_nonneg_r; [lia|]. destruct Hm2 as [->| ->]; lia. }
  assert (2 ^ 52 * (P * T) ≤ M * T)%Z.
  { etrans; [|apply Z.mul_le_mono_nonneg_r; [lia|exact Hlo]].
    rewrite Z.mul_assoc. apply Z.mul_le_mono_nonneg_r; [lia|].
    apply Z.mul_le_mono_nonneg_r; lia. }
  assert (0 ≤ P * T)%Z by nia.
  etrans; [apply Z.mul_le_mono_nonneg_l; [lia|exact Habs]|done].
Qed.

Lemma SFmul_approx mx ex my ey :
  bounded prec emax mx ex = true → bounded prec emax my ey = true →
  (emin64 < ex)%Z → (emin64 < ey)%Z → (emin64 ≤ ex + ey)%Z → (ex + ey ≤ 900)%Z →
  ∃ mr er,
    SF64mul (S754_finite false mx ex) (S754_finite false my ey) = S754_finite false mr er ∧
    (ex + ey + 52 ≤ er ≤ ex + ey + 54)%Z ∧
    approx 52 (mag mr er * one_val) (mag mx ex * mag my ey).
Proof.
  intros Hx Hy Hex Hey Hlo Hhi.
  pose proof (normal_mantissa _ _ Hx Hex) as [Hxl Hxu].
  pose proof (normal_mantissa _ _ Hy Hey) as [Hyl Hyu].
  unfold SF64mul, SFmul. cbn [xorb].
  set (M := Z.pos (mx * my)). set (E := (ex + ey)%Z).
  assert (M = Z.pos mx * Z.pos my)%Z as HM by (unfold M; lia).
  assert (2 ^ 104 ≤ M < 2 ^ 106)%Z as HMb.
  { change (2 ^ 104)%Z with (2 ^ 52 * 2 ^ 52)%Z. change (2 ^ 106)%Z with (2 ^ 53 * 2 ^ 53)%Z.
    rewrite HM. split.
    - apply Z.mul_le_mono_nonneg; lia.
    - apply Z.mul_lt_mono_nonneg; lia. }
  pose proof (Zdigits2_range M 104 106 ltac:(lia) HMb) as Hd.
  assert (2 ^ 52 ≤ M)%Z as HM52 by (change (2 ^ 104)%Z with (2 ^ 52 * 2 ^ 52)%Z in HMb; lia).
  pose proof (floor_53 M HM52) as (Hn0 & Hm1 & Hfl).
  destruct (binary_round_aux_value false M E loc_Exact) as (m2 & mr & er & Hm2 & _ & Hr & Her & Hmag);
    [lia|lia|lia|].
  set (n := Z.max 0 (Zdigits2 M - 53)) in *.
  exists mr, er. split_and!; [done|unfold E, n in *; lia|unfold E, n in *; lia|].
  rewrite Hmag.
  replace (mag mx ex * mag my ey)%Z with (M * (2 ^ (E - emin64) * one_val))%Z.
  2:{ unfold mag, one_val, E, emin64 in *. rewrite HM.
      rewrite <-(Z.pow_add_r 2 (ex + ey - -1074) 1074) by lia.
      replace (ex + ey - -1074 + 1074)%Z with ((ex - -1074) + (ey - -1074))%Z by lia.
      rewrite Z.pow_add_r by lia. lia. }
  replace (m2 * 2 ^ (E + n - emin64) * one_val)%Z
    with (m2 * (2 ^ n * (2 ^ (E - emin64) * one_val)))%Z.
  2:{ replace (E + n - emin64)%Z with (n + (E - emin64))%Z by lia.
      rewrite Z.pow_add_r by (unfold E, emin64 in *; lia). lia. }
  apply rounded_approx; [lia|done|done| |lia].
  pose proof one_val_pos. assert (0 < 2 ^ (E - emin64))%Z by (apply Z.pow_pos_nonneg; unfold E, emin64 in *; lia).
  nia.
Qed.

(** A value between [m1 * W] and [(m1 + 1) * W] against one of the two
    ends, for [m1] of 53 bits. *)
Lemma bracket_approx m1 m2 W Y :
  (2 ^ 52 ≤ m1)%Z → (0 < W)%Z →
  (m1 * W ≤ Y < (m1 + 1) * W)%Z →
  (m2 = m1 ∨ m2 = m1 + 1)%Z →
  approx 52 (m2 * W) Y.
Proof.
  intros Hm1 HW [Hlo Hhi] Hm2.
  assert (0 < 2 ^ 52)%Z by lia.
  assert (2 ^ 52 * W ≤ m1 * W)%Z by (apply Z.mul_le_mono_nonneg_r; lia).
  split; [lia|].
  assert (Z.abs (m2 * W - Y) ≤ W)%Z by (destruct Hm2 as [->| ->]; lia).
  etrans; [apply Z.mul_le_mono_nonneg_l; [lia|eassumption]|lia].
Qed.

Lemma bounded_digits m e :
  bounded prec emax m e = true → (emin64 < e)%Z → Zdigits2 (Z.pos m) = 53%Z.
Proof. intros (_ & _ & Hd)%bounded_inv He. by apply Hd. Qed.

Lemma SFdiv_approx mx ex my ey :
  bounded prec emax mx ex = true → bounded prec emax my ey = true →
  (emin64 < ex)%Z → (emin64 < ey)%Z →
  (emin64 + 53 ≤ ex - ey)%Z → (ex - ey ≤ 900)%Z →
  ∃ mr er,
    SF64div (S754_finite false mx ex) (S754_finite false my ey) = S754_finite false mr er ∧
    (ex - ey - 53 ≤ er ≤ ex - ey - 51)%Z ∧
    approx 52 (mag mr er * mag my ey) (mag mx ex * one_val).
Proof.
  intros Hx Hy Hex Hey Hlo Hhi.
  pose proof (normal_mantissa _ _ Hx Hex) as [Hxl Hxu].
  pose proof (normal_mantissa _ _ Hy Hey) as [Hyl Hyu].
  unfold SF64div, SFdiv, SFdiv_core_binary. cbn [xorb].
  rewrite (bounded_digits _ _ Hx Hex), (bounded_digits _ _ Hy Hey).
  unfold fexp. rewrite emin_eq.
  replace (Z.min (Z.max (53 + ex - (53 + ey) - prec) emin64) (ex - ey))
    with (ex - ey - 53)%Z by (unfold prec, emin64 in *; lia).
  replace (ex - ey - (ex - ey - 53))%Z with 53%Z by lia.
  rewrite Z.shiftl_mul_pow2 by lia.
  pose proof (Z_div_mod (Z.pos mx * 2 ^ 53) (Z.pos my) ltac:(lia)) as Hdm.
  destruct (Z.div_eucl (Z.pos mx * 2 ^ 53) (Z.pos my)) as [q r].
  destruct Hdm as [Hq Hr].
  assert (2 ^ 52 ≤ q < 2 ^ 54)%Z as Hqb.
  { split.
    - destruct (Z.le_gt_cases (2 ^ 52) q); [done|].
      assert (Z.pos my * (q + 1) ≤ Z.pos my * 2 ^ 52)%Z by (apply Z.mul_le_mono_nonneg_l; lia).
      assert (Z.pos my * 2 ^ 52 ≤ 2 ^ 53 * 2 ^ 52)%Z by (apply Z.mul_le_mono_nonneg_r; lia).
      assert (2 ^ 52 * 2 ^ 53 ≤ Z.pos mx * 2 ^ 53)%Z by (apply Z.mul_le_mono_nonneg_r; lia).
      lia.
    - destruct (Z.lt_ge_cases q (2 ^ 54)); [done|].
      assert (2 ^ 52 * 2 ^ 54 ≤ Z.pos my * q)%Z by (apply Z.mul_le_mono_nonneg; lia).
      assert (Z.pos mx * 2 ^ 53 < 2 ^ 53 * 2 ^ 53)%Z by (apply Z.mul_lt_mono_pos_r; lia).
      lia. }
  pose proof (Zdigits2_range q 52 54 ltac:(lia) Hqb) as Hd.
  pose proof (floor_53 q ltac:(lia)) as (Hn0 & Hm1 & Hfl).
  destruct (binary_round_aux_value false q (ex - ey - 53) (new_location (Z.pos my) r))
    as (m2 & mr & er & Hm2 & _ & Hres & Her & Hmag); [lia|lia|lia|].
  set (n := Z.max 0 (Zdigits2 q - 53)) in *.
  exists mr, er. split_and!; [done|unfold n in *; lia|unfold n in *; lia|].
  rewrite Hmag.
  set (T := (2 ^ (ex - 53 - 2 * emin64))%Z).
  assert (0 < T)%Z as HT by (apply Z.pow_pos_nonneg; unfold emin64 in *; lia).
  replace (mag mx ex * one_val)%Z with (Z.pos mx * 2 ^ 53 * T)%Z.
  2:{ unfold mag, one_val, T, emin64 in *.
      rewrite <-!Z.mul_assoc, <-!Z.pow_add_r by lia. do 2 f_equal. lia. }
  replace (m2 * 2 ^ (ex - ey - 53 + n - emin64) * mag my ey)%Z
    with (m2 * (2 ^ n * Z.pos my) * T)%Z.
  2:{ unfold mag, T, emin64 in *.
      replace (ex - ey - 53 + n - -1074)%Z with (n + (ex - ey - 53 - -1074))%Z by lia.
      rewrite Z.pow_add_r by lia.
      replace (ex - 53 - 2 * -1074)%Z with ((ex - ey - 53 - -1074) + (ey - -1074))%Z by lia.
      rewrite Z.pow_add_r by lia. lia. }
  apply approx_scale; [|done].
  assert (0 < 2 ^ n)%Z by (apply Z.pow_pos_nonneg; lia).
  apply (bracket_approx (q / 2 ^ n)); [lia|nia| |done].
  set (m1 := (q / 2 ^ n)%Z) in *. set (P := (2 ^ n)%Z) in *.
  split.
  - rewrite Z.mul_assoc. etrans; [apply Z.mul_le_mono_nonneg_r; [lia|apply Hfl]|]. lia.
  - eapply Z.lt_le_trans with ((q + 1) * Z.pos my)%Z; [lia|].
    rewrite Z.mul_assoc. apply Z.mul_le_mono_nonneg_r; lia.
Qed.

Lemma SFsqrt_approx m e :
  bounded prec emax m e = true →
  (-900 ≤ e ≤ 900)%Z →
  ∃ mr er,
    SF64sqrt (S754_finite false m e) = S754_finite false mr er ∧
    (e / 2 - 26 ≤ er ≤ e / 2 - 25)%Z ∧
    approx 50 (mag mr er * mag mr er) (mag m e * one_val).
Proof.
  intros Hx He.
  assert (emin64 < e)%Z as Hex by (unfold emin64; lia).
  pose proof (normal_mantissa _ _ Hx Hex) as [Hxl Hxu].
  unfold SF64sqrt, SFsqrt, SFsqrt_core_binary.
  rewrite (bounded_digits _ _ Hx Hex).
  unfold fexp. rewrite emin_eq, !Z.div2_div.
  assert (Z.min (Z.max ((53 + e + 1) / 2 - prec) emin64) (e / 2) = e / 2 - 26)%Z as ->.
  { unfold prec, emin64 in *.
    assert ((53 + e + 1) / 2 = e / 2 + 27)%Z as ->.
    { replace (53 + e + 1)%Z with (e + 27 * 2)%Z by lia. by rewrite Z.div_add. }
    assert (-450 ≤ e / 2)%Z by (apply Z.div_le_lower_bound; lia).
    rewrite Z.max_l by lia. rewrite Z.min_l by lia. lia. }
  assert (2 * (e / 2) ≤ e ≤ 2 * (e / 2) + 1)%Z as Hdiv.
  { pose proof (Z.div_mod e 2 ltac:(lia)). pose proof (Z.mod_pos_bound e 2 ltac:(lia)). lia. }
  set (s := (e - 2 * (e / 2 - 26))%Z).
  assert (s = 52 ∨ s = 53)%Z as Hs by (unfold s; lia).
  assert (Z.pos m * 2 ^ s = match s with
                            | Z.pos _ => Z.shiftl (Z.pos m) s
                            | 0%Z => Z.pos m
                            | Z.neg _ => 0%Z
                            end)%Z as <-.
  { destruct Hs as [-> | ->]; by rewrite Z.shiftl_mul_pow2. }
  set (m' := (Z.pos m * 2 ^ s)%Z).
  assert (2 ^ 104 ≤ m' < 2 ^ 106)%Z as Hm'.
  { unfold m'. destruct Hs as [-> | ->].
    - change (2 ^ 104)%Z with (2 ^ 52 * 2 ^ 52)%Z.
      change (2 ^ 106)%Z with (2 ^ 54 * 2 ^ 52)%Z. lia.
    - change (2 ^ 104)%Z with (2 ^ 51 * 2 ^ 53)%Z.
      change (2 ^ 106)%Z with (2 ^ 53 * 2 ^ 53)%Z. lia. }
  pose proof (Z.sqrtrem_spec m' ltac:(lia)) as Hsq.
  destruct (Z.sqrtrem m') as [q r]. destruct Hsq as [Hq Hr].
  assert (2 ^ 52 ≤ q < 2 ^ 53)%Z as Hqb.
  { split.
    - destruct (Z.le_gt_cases (2 ^ 52) q); [done|].
      assert ((q + 1) * (q + 1) ≤ 2 ^ 52 * 2 ^ 52)%Z by (apply Z.mul_le_mono_nonneg; lia).
      change (2 ^ 104)%Z with (2 ^ 52 * 2 ^ 52)%Z in Hm'. lia.
    - destruct (Z.lt_ge_cases q (2 ^ 53)); [done|].
      assert (2 ^ 53 * 2 ^ 53 ≤ q * q)%Z by (apply Z.mul_le_mono_nonneg; lia).
      change (2 ^ 106)%Z with (2 ^ 53 * 2 ^ 53)%Z in Hm'. lia. }
  pose proof (Zdigits2_range q 52 53 ltac:(lia) Hqb) as Hd.
  set (l := if (r =? 0)%Z then loc_Exact else loc_Inexact (if (r <=? q)%Z then Lt else Gt)).
  destruct (binary_round_aux_value false q (e / 2 - 26) l)
    as (m2 & mr & er & Hm2 & _ & Hres & Her & Hmag); [lia|unfold emin64; lia|lia|].
  replace (Z.max 0 (Zdigits2 q - 53)) with 0%Z in * by lia.
  rewrite Z.div_1_r, Z.add_0_r in *.
  exists mr, er. split_and!; [done|lia|lia|].
  rewrite Hmag.
  set (T := (2 ^ (2 * (e / 2 - 26) - 2 * emin64))%Z).
  assert (0 < T)%Z as HT by (apply Z.pow_pos_nonneg; unfold emin64 in *; lia).
  replace (mag m e * one_val)%Z with (m' * T)%Z.
  2:{ unfold mag, one_val, T, m', emin64 in *.
      rewrite <-!Z.mul_assoc, <-!Z.pow_add_r by lia. do 2 f_equal. lia. }
  replace (m2 * 2 ^ (e / 2 - 26 - emin64) * (m2 * 2 ^ (e / 2 - 26 - emin64)))%Z
    with (m2 * m2 * T)%Z.
  2:{ unfold T, emin64 in *.
      replace (2 * (e / 2 - 26) - 2 * -1074)%Z
        with ((e / 2 - 26 - -1074) + (e / 2 - 26 - -1074))%Z by lia.
      rewrite Z.pow_add_r by lia. lia. }
  apply approx_scale; [|done].
  split; [lia|].
  assert (Z.abs (m2 * m2 - m') ≤ 2 * q + 1)%Z as Habs by (destruct Hm2 as [-> | ->]; lia).
  assert (2 ^ 50 * (2 * q + 1) ≤ q * q)%Z as Hqq.
  { assert (2 ^ 52 * q ≤ q * q)%Z by (apply Z.mul_le_mono_nonneg_r; lia). lia. }
  etrans; [apply Z.mul_le_mono_nonneg_l; [lia|exact Habs]|lia].
Qed.

(** A number of at most 53 bits is not rounded. *)
Lemma binary_round_exact s p e :
  (emin64 ≤ e ≤ 900)%Z → (Z.pos p < 2 ^ 53)%Z →
  ∃ mr er, binary_round prec emax s p e = S754_finite s mr er ∧
    mag mr er = (Z.pos p * 2 ^ (e - emin64))%Z.
Proof.
  intros He Hp. unfold binary_round.
  pose proof (shl_align_spec p e (fexp prec emax (Z.pos (digits2_pos p) + e))) as Hsh.
  destruct (shl_align _ _ _) as [mz ez]. simpl in Hsh. destruct Hsh as [Hez Hmz].
  unfold fexp in Hez. rewrite emin_eq in Hez.
  pose proof (digits2_pos_bounds p) as [_ Hd].
  set (d := Z.pos (digits2_pos p)) in *.
  assert (0 < d)%Z by (unfold d; lia).
  assert (emin64 ≤ ez ≤ e)%Z as Hezb by (unfold prec, emin64 in *; lia).
  assert (Z.pos mz < 2 ^ 53)%Z as Hmzb.
  { rewrite Hmz. destruct (Z.eq_dec ez e) as [-> | Hne].
    - by rewrite Z.sub_diag, Z.mul_1_r.
    - assert (d + e - 53 ≤ ez)%Z by (unfold prec, emin64 in *; lia).
      apply Z.lt_le_trans with (2 ^ d * 2 ^ (e - ez))%Z.
      + apply Z.mul_lt_mono_pos_r; [apply Z.pow_pos_nonneg; lia|done].
      + rewrite <-Z.pow_add_r by lia. apply Z.pow_le_mono_r; lia. }
  pose proof (Zdigits2_le_53 (Z.pos mz) ltac:(lia)) as Hdz.
  destruct (binary_round_aux_value s (Z.pos mz) ez loc_Exact)
    as (m2 & mr & er & _ & Hex & Hres & _ & Hmag); [lia|lia| |].
  { replace (Z.max 0 (Zdigits2 (Z.pos mz) - 53)) with 0%Z by lia. lia. }
  replace (Z.max 0 (Zdigits2 (Z.pos mz) - 53)) with 0%Z in * by lia.
  rewrite Hex in Hmag by done.
  exists mr, er. split; [done|].
  rewrite Hmag, Hmz, Z.add_0_r, <-Z.mul_assoc, <-Z.pow_add_r by lia.
  do 2 f_equal. lia.
Qed.

(** The difference of two positive numbers that are close to each other is
    computed without rounding. *)
Lemma SFsub_exact mx ex my ey :
  bounded prec emax mx ex = true → bounded prec emax my ey = true →
  (ex ≤ 900)%Z → (ey ≤ 900)%Z →
  (Z.abs (mag mx ex - mag my ey) < 2 ^ 53 * 2 ^ (Z.min ex ey - emin64))%Z →
  let r := SF64sub (S754_finite false mx ex) (S754_finite false my ey) in
  SF_finite r = true ∧ SFval r = (mag mx ex - mag my ey)%Z.
Proof.
  intros Hx Hy Hex Hey Hclose.
  pose proof (bounded_inv _ _ Hx) as [Hex' _].
  pose proof (bounded_inv _ _ Hy) as [Hey' _].
  unfold SF64sub, SFsub. cbn [cond_Zopp].
  set (ez := Z.min ex ey) in *.
  assert (emin64 ≤ ez)%Z by (unfold ez; lia).
  rewrite (mag_shl_align mx ex ez), (mag_shl_align my ey ez) in * by (unfold ez; lia).
  set (a := Z.pos (shl_align mx ex ez).1) in *.
  set (b := Z.pos (shl_align my ey ez).1) in *.
  set (T := (2 ^ (ez - emin64))%Z) in *.
  assert (0 < T)%Z by (apply Z.pow_pos_nonneg; lia).
  rewrite <-Z.mul_sub_distr_r in *.
  assert (Z.abs (a - b) < 2 ^ 53)%Z as Hsmall.
  { rewrite Z.abs_mul, (Z.abs_eq T) in Hclose by lia.
    by apply Z.mul_lt_mono_pos_r in Hclose. }
  unfold binary_normalize. destruct (a - b)%Z as [|p|p] eqn:Hab.
  - done.
  - destruct (binary_round_exact false p ez) as (mr & er & -> & Hmag);
      [unfold ez; lia|lia|]. simpl. by rewrite Hmag.
  - destruct (binary_round_exact true p ez) as (mr & er & -> & Hmag);
      [unfold ez; lia|lia|]. simpl. rewrite Hmag. lia.
Qed.

Lemma valid_finite_bounded s m e :
  valid_binary (S754_finite s m e) = true → bounded prec emax m e = true.
Proof. done. Qed.

Lemma moderate_normal s :
  moderate s = true →
  ∃ m e, Prim2SF s = S754_finite false m e ∧
    bounded prec emax m e = true ∧ (-900 ≤ e ≤ 900)%Z.
Proof.
  unfold moderate. intros [Hlo Hhi]%andb_true_iff.
  assert (is_nan s = false) as Hn.
  { destruct (is_nan s) eqn:E; [|done]. by rewrite leb_nan_r in Hlo. }
  rewrite leb_val in Hlo, Hhi by done.
  apply Z.leb_le in Hlo, Hhi.
  pose proof (Prim2SF_valid s) as Hv.
  assert (Prim2SF norm_lo = S754_finite false 4503599627370496 (-852)) as Elo by done.
  assert (Prim2SF norm_hi = S754_finite false 4503599627370496 748) as Ehi by done.
  assert (bounded prec emax 4503599627370496 (-852) = true) as Blo by done.
  assert (bounded prec emax 4503599627370496 748 = true) as Bhi by done.
  pose proof (mag_pos 4503599627370496 (-852) ltac:(unfold emin64; lia)) as Plo.
  unfold fval in Hlo, Hhi. rewrite Elo in Hlo. rewrite Ehi in Hhi.
  destruct (Prim2SF s) as [sz|[]| |[] m e] eqn:Es; cbn [SFval cond_Zopp] in Hlo, Hhi.
  - lia.
  - pose proof inf_val_pos. lia.
  - pose proof (mag_lt_inf _ _ Bhi). lia.
  - lia.
  - pose proof (mag_pos m e ltac:(apply (bounded_inv _ _ Hv))). lia.
  - exists m, e. split_and!; [done|done| |].
    + destruct (Z.le_gt_cases (-852) e); [lia|].
      pose proof (mag_lt_exp _ _ _ _ Hv Blo ltac:(lia)). lia.
    + destruct (Z.le_gt_cases e 748); [lia|].
      pose proof (mag_lt_exp _ _ _ _ Bhi Hv ltac:(lia)). lia.
Qed.

Lemma sum_products_self s v :
  sum_products s v v = fold_left (λ s x, (s + x * x)%float) v s.
Proof. revert s. induction v as [|x v IH]; intros s; simpl; [done|apply IH]. Qed.

Lemma js_strict_eq_pos x m e :
  Prim2SF x = S754_finite false m e → js_strict_eq x 0 = false.
Proof.
  intros Hx. destruct (js_strict_eq x 0) eqn:E; [|done].
  apply js_strict_eq_val in E as (_ & _ & E).
  unfold fval in E. rewrite Hx in E. simpl in E.
  pose proof (Prim2SF_valid x) as Hv. rewrite Hx in Hv.
  pose proof (mag_pos m e ltac:(apply (bounded_inv _ _ Hv))).
  change (SFval (Prim2SF 0)) with 0%Z in E. lia.
Qed.

(** The quotient of a moderate positive number by the square of its square
    root: each of the three operations rounds once. *)
Lemma self_quotient s :
  moderate s = true →
  ∃ mr er mc ec,
    Prim2SF (sqrt s) = S754_finite false mr er ∧
    Prim2SF (s / (sqrt s * sqrt s)) = S754_finite false mc ec ∧
    (-57 ≤ ec ≤ -50)%Z ∧
    approx 45 (mag mc ec) one_val.
Proof.
  intros (m & e & Hs & Hb & He)%moderate_normal.
  destruct (SFsqrt_approx m e Hb He) as (mr & er & Hr & Her & H1).
  assert (2 * (e / 2) ≤ e ≤ 2 * (e / 2) + 1)%Z as Hdiv.
  { pose proof (Z.div_mod e 2 ltac:(lia)). pose proof (Z.mod_pos_bound e 2 ltac:(lia)). lia. }
  assert (-450 ≤ e / 2 ≤ 450)%Z as Hhalf by lia.
  assert (Prim2SF (sqrt s) = S754_finite false mr er) as Hr' by (by rewrite sqrt_spec, Hs).
  pose proof (Prim2SF_valid (sqrt s)) as Hbr. rewrite Hr' in Hbr.
  apply valid_finite_bounded in Hbr.
  destruct (SFmul_approx mr er mr er Hbr Hbr) as (mp & ep & Hp & Hep & H2);
    [unfold emin64; lia..|].
  assert (Prim2SF (sqrt s * sqrt s) = S754_finite false mp ep) as Hp'
    by (by rewrite mul_spec, Hr').
  pose proof (Prim2SF_valid (sqrt s * sqrt s)) as Hbp. rewrite Hp' in Hbp.
  apply valid_finite_bounded in Hbp.
  destruct (SFdiv_approx m e mp ep Hb Hbp) as (mc & ec & Hc & Hec & H3);
    [unfold emin64; lia..|].
  exists mr, er, mc, ec. split_and!; [done| |lia|lia|].
  { by rewrite div_spec, Hs, Hp'. }
  set (S := mag m e) in *. set (R := mag mr er) in *.
  set (P := mag mp ep) in *. set (C := mag mc ec) in *.
  assert (0 < P)%Z as HP by (apply mag_pos, (bounded_inv _ _ Hbp)).
  assert (approx 48 (P * one_val) (S * one_val)) as H4.
  { apply (approx_trans 50 _ (R * R)%Z); [|done|lia].
    apply (approx_weaken 52); [done|lia]. }
  assert (approx 47 (S * one_val) (P * one_val)) as H5
    by (apply (approx_sym 48); [done|lia]).
  assert (approx 45 (C * P) (one_val * P)) as H6.
  { rewrite (Z.mul_comm one_val). apply (approx_trans 47 _ (S * one_val)%Z); [|done|lia].
    apply (approx_weaken 52); [done|lia]. }
  by apply approx_unscale in H6.
Qed.

Lemma within_of_approx c mc ec :
  Prim2SF c = S754_finite false mc ec →
  (-57 ≤ ec ≤ -50)%Z →
  approx 45 (mag mc ec) one_val →
  within tol_1e6 c 1 = true.
Proof.
  intros Hc Hec [_ Happ].
  pose proof (Prim2SF_valid c) as Hbc. rewrite Hc in Hbc.
  apply valid_finite_bounded in Hbc.
  assert (Prim2SF 1 = S754_finite false 4503599627370496 (-52)) as H1 by done.
  assert (bounded prec emax 4503599627370496 (-52) = true) as B1 by done.
  assert (mag 4503599627370496 (-52) = one_val) as M1 by done.
  set (C := mag mc ec) in *.
  assert (Z.abs (C - one_val) ≤ 2 ^ 1029)%Z as Hsmall.
  { change one_val with (2 ^ 45 * 2 ^ 1029)%Z in Happ at 2.
    apply Z.mul_le_mono_pos_l in Happ; [done|lia]. }
  destruct (SFsub_exact mc ec 4503599627370496 (-52) Hbc B1) as [Hfin Hval];
    [lia|lia| |].
  { rewrite M1. fold C. apply Z.le_lt_trans with (2 ^ 1029)%Z; [done|].
    apply Z.lt_le_trans with (2 ^ 53 * 2 ^ (-57 - emin64))%Z; [done|].
    apply Z.mul_le_mono_nonneg_l; [lia|].
    apply Z.pow_le_mono_r; unfold emin64; lia. }
  rewrite M1 in Hval. fold C in Hval.
  unfold within.
  assert (Prim2SF (abs (c - 1)) = SFabs (SF64sub (Prim2SF c) (Prim2SF 1))) as Habs
    by (by rewrite abs_spec, sub_spec).
  rewrite Hc, H1 in Habs.
  pose proof (Prim2SF_valid (c - 1)) as Hv. rewrite sub_spec, Hc, H1 in Hv.
  assert (is_nan (abs (c - 1)) = false ∧ fval (abs (c - 1)) = Z.abs (C - one_val))
    as [Hn Hf].
  { unfold fval. rewrite is_nan_spec, Habs.
    destruct (SF64sub _ _) as [sz|sz| |sz mz ez]; try done.
    - simpl in *. split; [done|lia].
    - apply valid_finite_bounded in Hv.
      pose proof (mag_pos mz ez ltac:(apply (bounded_inv _ _ Hv))).
      cbn [SFabs SFval cond_Zopp SF_is_nan] in *. split; [done|].
      destruct sz; simpl in Hval; lia. }
  rewrite leb_val by done. apply Z.leb_le. rewrite Hf.
  etrans; [exact Hsmall|]. by apply Z.leb_le.
Qed.

Lemma cosineSimilarity_self_moderate v :
  moderate (sum_squares v) = true →
  within tol_1e6 (cosineSimilarity v v) 1 = true.
Proof.
  intros Hs. unfold cosineSimilarity.
  rewrite sum_products_self. fold (sum_squares v).
  destruct (self_quotient _ Hs) as (mr & er & mc & ec & Hr & Hc & Hec & Happ).
  rewrite (js_strict_eq_pos _ _ _ Hr). simpl.
  by apply (within_of_approx _ mc ec).
Qed.

Lemma is_zero_cases x : is_zero x = true → x = 0%float ∨ x = (-0)%float.
Proof.
  intros (Hn & _ & Hv)%js_strict_eq_val.
  unfold fval in Hv. change (SFval (Prim2SF 0)) with 0%Z in Hv.
  rewrite is_nan_spec in Hn.
  pose proof (Prim2SF_valid x) as Hb.
  destruct (Prim2SF x) as [[]|[]| |s m e] eqn:E.
  - right. apply Prim2SF_inj. by rewrite E.
  - left. apply Prim2SF_inj. by rewrite E.
  - simpl in Hv. pose proof inf_val_pos. lia.
  - simpl in Hv. pose proof inf_val_pos. lia.
  - done.
  - apply valid_finite_bounded in Hb.
    pose proof (mag_pos m e ltac:(apply (bounded_inv _ _ Hb))).
    destruct s; simpl in Hv; lia.
Qed.

Lemma sum_squares_zero_vector v : zero_vector v = true → sum_squares v = 0%float.
Proof.
  unfold zero_vector, sum_squares.
  induction v as [|x v IH]; simpl; [done|].
  intros [[-> | ->]%is_zero_cases Hv]%andb_true_iff; by apply IH.
Qed.

Lemma cosineSimilarity_zero_vector a b :
  zero_vector a = true ∨ zero_vector b = true → cosineSimilarity a b = 0%float.
Proof.
  unfold cosineSimilarity.
  intros [->%sum_squares_zero_vector | ->%sum_squares_zero_vector].
  - done.
  - change (js_strict_eq (sqrt 0) 0) with true. by rewrite orb_true_r.
Qed.

(** C9, the second half and the first on moderate vectors: the cosine
    similarity of a vector with itself is within [1e-6] of [1] when the
    squared norm that the code computes lies between [2 ^ -800] and
    [2 ^ 800], which every normalized vector satisfies; and when one of the
    two vectors is a zero vector, [cosineSimilarity] returns [0] and divides
    nothing. *)
Theorem cosineSimilarity_self (v a b : list float) :
  (moderate (sum_squares v) = true →
   within tol_1e6 (cosineSimilarity v v) 1 = true) ∧
  (zero_vector a = true ∨ zero_vector b = true →
   cosineSimilarity a b = 0%float).
Proof.
  split.
  - apply cosineSimilarity_self_moderate.
  - apply cosineSimilarity_zero_vector.
Qed.

Lemma cosineSimilarity_self_witness :
  let v := [0x1.3333333333333p-1; 0x1.999999999999ap-1]%float in
  moderate (sum_squares v) = true ∧
  within tol_1e6 (cosineSimilarity v v) 1 = true ∧
  zero_vector [0; -0]%float = true ∧
  cosineSimilarity [0; -0]%float v = 0%float.
Proof.
  pose proof (cosineSimilarity_self
    [0x1.3333333333333p-1; 0x1.999999999999ap-1]%float
    [0; -0]%float
    [0x1.3333333333333p-1; 0x1.999999999999ap-1]%float) as [H1 H2].
  split_and!.
  - by vm_compute.
  - apply H1. by vm_compute.
  - by vm_compute.
  - apply H2. left. by vm_compute.
Defined.

(** C9 as it is worded, for every nonzero vector, fails on binary64: the
    vector [[huge]] is not a zero vector and its similarity with itself is
    [Infinity / Infinity], not a number; the vector [[tiny]] is not a zero
    vector either, its squared norm underflows to [0], and its similarity
    with itself is the [0] of the zero guard. *)
Lemma cosineSimilarity_self_not_1 :
  zero_vector [huge] = false ∧
  is_nan (cosineSimilarity [huge] [huge]) = true ∧
  within tol_1e6 (cosineSimilarity [huge] [huge]) 1 = false ∧
  zero_vector [tiny] = false ∧
  cosineSimilarity [tiny] [tiny] = 0%float ∧
  within tol_1e6 (cosineSimilarity [tiny] [tiny]) 1 = false.
Proof. by vm_compute. Qed.

(** * Further properties of the code *)

(** ** [JinaClipSearch.initialize] *)

Lemma reachable_invariant this :
  reachable this →
  modelId this = "jinaai/jina-clip-v2" ∧
  (JinaClipSearch.isInitialized this = true →
   is_Some (model this) ∧ is_Some (processor this)).
Proof.
  induction 1 as [|h this r this' _ [IHid IH] Hinit|h config this r this' _ IH Hcall
                 |h folder queries t this r this' _ IH Hcall
                 |h folder this r this' _ IH Hcall].
  - done.
  - unfold JinaClipSearch.initialize in Hinit.
    destruct (JinaClipSearch.isInitialized this) eqn:Hflag.
    { injection Hinit as _ <-. auto. }
    destruct (AutoProcessor_from_pretrained h _);
      [|injection Hinit as _ <-; split; [done|congruence]].
    destruct (AutoModel_from_pretrained h _); injection Hinit as _ <-; simpl.
    + split; [done|]. intros _. by split; eexists.
    + split; [done|congruence].
  - by injection Hcall as _ <-.
  - by injection Hcall as _ <-.
  - by injection Hcall as _ <-.
Qed.

Lemma initialize_Ok_ready h this this' :
  reachable this →
  JinaClipSearch.initialize h this = (Ok (), this') →
  JinaClipSearch.isInitialized this' = true ∧ ready this'.
Proof.
  intros Hreach Hinit.
  assert (JinaClipSearch.isInitialized this' = true) as Hflag.
  { unfold JinaClipSearch.initialize in Hinit.
    destruct (JinaClipSearch.isInitialized this) eqn:Hflag.
    { by injection Hinit as <-. }
    destruct (AutoProcessor_from_pretrained h _); [|done].
    destruct (AutoModel_from_pretrained h _); [|done].
    by injection Hinit as <-. }
  destruct (reachable_invariant this') as [_ Hinv].
  { by eapply reachable_initialize. }
  destruct (Hinv Hflag) as [Hm Hp]. split; [done|].
  unfold ready, ensureInitialized.
  by rewrite Hflag, !bool_decide_eq_true_2.
Qed.

Lemma initialize_Throw h this e this' :
  JinaClipSearch.initialize h this = (Throw e, this') →
  e = initialization_failed ∧ JinaClipSearch.isInitialized this' = false.
Proof.
  intros Hinit. unfold JinaClipSearch.initialize in Hinit.
  destruct (JinaClipSearch.isInitialized this) eqn:Hflag; [done|].
  destruct (AutoProcessor_from_pretrained h _).
  - destruct (AutoModel_from_pretrained h _); [done|].
    injection Hinit as <- <-. split; [done|]. simpl. congruence.
  - injection Hinit as <- <-. split; [done|congruence].
Qed.

(** X1. On a searcher in any state its methods can leave, a call of
    [initialize] that returns makes the searcher ready: [ensureInitialized]
    passes.  From then on [initialize] returns at once on every host, loads
    nothing and changes nothing. *)
Theorem initialize_makes_ready h this this' :
  reachable this →
  JinaClipSearch.initialize h this = (Ok (), this') →
  ready this' ∧
  ∀ h', JinaClipSearch.initialize h' this' = (Ok (), this').
Proof.
  intros Hreach Hinit.
  destruct (initialize_Ok_ready h this this' Hreach Hinit) as [Hflag Hready].
  split; [done|].
  intros h'. unfold JinaClipSearch.initialize. by rewrite Hflag.
Qed.

Lemma initialize_makes_ready_witness :
  ready demo_searcher ∧
  ∀ h', JinaClipSearch.initialize h' demo_searcher = (Ok (), demo_searcher).
Proof.
  apply (initialize_makes_ready demo_host JinaClipSearch.new).
  - apply reachable_new.
  - reflexivity.
Defined.

(** X2. A call of [initialize] that throws, throws the one error
    "Model initialization failed" whatever the loader threw; the searcher is
    still not initialized, so that [search] throws the not-initialized error;
    and a further [initialize] on a host whose two loaders answer succeeds. *)
Theorem initialize_failure h this e this' :
  JinaClipSearch.initialize h this = (Throw e, this') →
  e = initialization_failed ∧
  JinaClipSearch.isInitialized this' = false ∧
  (∀ h' config, search h' config this' = (Throw not_initialized, this')) ∧
  (∀ h' p m,
     AutoProcessor_from_pretrained h' (modelId this') = Ok p →
     AutoModel_from_pretrained h' (modelId this') = Ok m →
     ∃ this'', JinaClipSearch.initialize h' this' = (Ok (), this'') ∧ ready this'').
Proof.
  intros Hinit.
  destruct (initialize_Throw h this e this' Hinit) as [-> Hflag].
  split_and!; [done|done| |].
  - intros h' config. unfold search, search_body.
    by rewrite (ensureInitialized_flag _ Hflag).
  - intros h' p m Hp Hm. eexists. split.
    + unfold JinaClipSearch.initialize. by rewrite Hflag, Hp, Hm.
    + done.
Qed.

Lemma initialize_failure_witness :
  JinaClipSearch.initialize offline_host JinaClipSearch.new
  = (Throw initialization_failed, failed_searcher) ∧
  JinaClipSearch.isInitialized failed_searcher = false ∧
  (∀ h' config, search h' config failed_searcher = (Throw not_initialized, failed_searcher)) ∧
  ∃ this'', JinaClipSearch.initialize demo_host failed_searcher = (Ok (), this'') ∧
            ready this''.
Proof.
  destruct (initialize_failure offline_host JinaClipSearch.new initialization_failed
              failed_searcher eq_refl) as (_ & Hflag & Hsearch & Hretry).
  split_and!; [reflexivity|exact Hflag|exact Hsearch|].
  apply (Hretry demo_host demo_processor demo_model); reflexivity.
Defined.

(** ** [getImageFiles] *)

Lemma collectImages_stats h directory files : ∀ acc imagePaths,
  Utils.collectImages h directory files acc = Ok imagePaths →
  Forall (λ file, ∃ fileStat, stat h (join (path h) directory file) = Ok fileStat) files.
Proof.
  induction files as [|file files IH]; intros acc imagePaths Hrun; [by constructor|].
  simpl in Hrun. apply bind_Ok in Hrun as (fileStat & Hstat & Hrest).
  constructor; [by eexists|].
  destruct (isFile fileStat && Utils.isImageFile (path h) file); eauto.
Qed.

Lemma collectImages_stat_throw h directory pre file post e : ∀ acc,
  Forall (λ f, ∃ fileStat, stat h (join (path h) directory f) = Ok fileStat) pre →
  stat h (join (path h) directory file) = Throw e →
  Utils.collectImages h directory (pre ++ file :: post) acc = Throw e.
Proof.
  induction pre as [|f pre IH]; intros acc Hpre Hstat; simpl.
  - by rewrite Hstat.
  - apply Forall_cons in Hpre as [[fileStat Hf] Hpre]. rewrite Hf. simpl.
    destruct (isFile fileStat && Utils.isImageFile (path h) f); by apply IH.
Qed.

(** X3. [getImageFiles] returns the full paths [join(directory, file)] of
    the directory entries that are regular files with a supported extension,
    in the order of [readdir], and nothing else; it returns exactly when
    [readdir] and the [stat] of every entry answer. *)
Theorem getImageFiles_lists_supported h directory :
  (∀ imagePaths, Utils.getImageFiles h directory = Ok imagePaths →
     ∃ files, readdir h directory = Ok files ∧
       Forall (λ file, ∃ fileStat, stat h (join (path h) directory file) = Ok fileStat)
         files ∧
       imagePaths
       = join (path h) directory <$> filter (is_supported_image h directory) files) ∧
  (∀ files, readdir h directory = Ok files →
     Forall (λ file, ∃ fileStat, stat h (join (path h) directory file) = Ok fileStat)
       files →
     Utils.getImageFiles h directory
     = Ok (join (path h) directory <$> filter (is_supported_image h directory) files)).
Proof.
  split.
  - intros imagePaths Hrun.
    destruct (getImageFiles_Ok _ _ _ Hrun) as (files & Hread & ->).
    exists files. split_and!; [done| |done].
    unfold Utils.getImageFiles, try_catch in Hrun. rewrite Hread in Hrun. simpl in Hrun.
    destruct (Utils.collectImages h directory files []) as [paths|e] eqn:Hc.
    + by eapply collectImages_stats.
    + by case_bool_decide.
  - intros files Hread Hstats.
    unfold Utils.getImageFiles, try_catch. rewrite Hread. simpl.
    by rewrite collectImages_run.
Qed.

Lemma getImageFiles_lists_supported_witness :
  Utils.getImageFiles demo_host "photos"
  = Ok ["photos/mountain.jpg"; "photos/cat.PNG"; "photos/lake.jpeg"].
Proof.
  rewrite (proj2 (getImageFiles_lists_supported demo_host "photos")
             ["mountain.jpg"; "notes.txt"; "cat.PNG"; "album.gif"; "lake.jpeg"]).
  - reflexivity.
  - reflexivity.
  - repeat constructor; by eexists.
Defined.

(** X4. When [stat] throws on an entry that [readdir] listed, the whole
    enumeration throws and the paths collected so far are lost.  If that
    error carries the code [ENOENT] (a dangling link, a file removed in
    between), the caller is told that the directory was not found, although
    [readdir] has just read it. *)
Theorem getImageFiles_stat_failure h directory pre file post e :
  readdir h directory = Ok (pre ++ file :: post) →
  Forall (λ f, ∃ fileStat, stat h (join (path h) directory f) = Ok fileStat) pre →
  stat h (join (path h) directory file) = Throw e →
  Utils.getImageFiles h directory
  = Throw (if bool_decide (code e = Some "ENOENT")
           then directory_not_found directory else e).
Proof.
  intros Hread Hpre Hstat. apply getImageFiles_throw.
  rewrite Hread. simpl. by apply collectImages_stat_throw.
Qed.

Lemma getImageFiles_stat_failure_witness :
  readdir dangling_host "photos"
  = Ok ["mountain.jpg"; "notes.txt"; "cat.PNG"; "album.gif"; "lake.jpeg"] ∧
  Utils.getImageFiles dangling_host "photos" = Throw (directory_not_found "photos").
Proof.
  split; [reflexivity|].
  apply (getImageFiles_stat_failure dangling_host "photos"
           ["mountain.jpg"] "notes.txt" ["cat.PNG"; "album.gif"; "lake.jpeg"]
           (Thrown (Some "ENOENT") "ENOENT: no such file or directory, stat")).
  - reflexivity.
  - repeat constructor. by eexists.
  - reflexivity.
Defined.

(** ** [tensor2DToArrays] *)

Lemma slice_nonneg {A} (xs : list A) (a b : Z) :
  (0 ≤ a)%Z → (0 ≤ b)%Z → (a + b ≤ Z.of_nat (length xs))%Z →
  slice xs a (a + b) = take (Z.to_nat b) (drop (Z.to_nat a) xs).
Proof.
  intros Ha Hb Hlen. unfold slice, slice_index.
  rewrite !(proj2 (Z.ltb_ge _ _)) by lia.
  f_equal; [lia|]. f_equal. lia.
Qed.

Lemma rows_concat (data : list float) (dim : Z) (n : nat) :
  (0 ≤ dim)%Z → (Z.of_nat n * dim ≤ Z.of_nat (length data))%Z →
  concat ((λ i : Z, slice data (i * dim) (i * dim + dim)) <$> seqZ 0 (Z.of_nat n))
  = take (Z.to_nat (Z.of_nat n * dim)) data.
Proof.
  intros Hdim. induction n as [|n IH]; intros Hlen.
  - done.
  - replace (Z.of_nat (S n)) with (Z.of_nat n + 1)%Z in * by lia.
    rewrite seqZ_app by lia. rewrite fmap_app, concat_app, IH by nia.
    simpl. rewrite app_nil_r, Z.add_0_l.
    rewrite slice_nonneg by nia.
    rewrite take_take_drop. f_equal. nia.
Qed.

Lemma tensor2DToArrays_Ok (t : Tensor.t) batch dim :
  Tensor.dims t = [batch; dim] →
  (0 ≤ batch)%Z → (0 ≤ dim)%Z →
  Z.of_nat (length (Tensor.data t)) = (batch * dim)%Z →
  ∃ rows, tensor2DToArrays t = Ok rows ∧
    Z.of_nat (length rows) = batch ∧
    Forall (λ row, Z.of_nat (length row) = dim) rows ∧
    concat rows = Tensor.data t.
Proof.
  intros Hdims Hbatch Hdim Hlen.
  unfold tensor2DToArrays. rewrite Hdims. eexists. split; [done|].
  split_and!.
  - rewrite length_fmap, length_seqZ. lia.
  - apply Forall_fmap, Forall_forall. intros i [Hi0 Hi]%elem_of_seqZ. simpl.
    rewrite slice_nonneg by nia. rewrite length_take, length_drop. nia.
  - replace batch with (Z.of_nat (Z.to_nat batch)) by lia.
    rewrite rows_concat by lia. apply take_ge. lia.
Qed.

(** X5. [tensor2DToArrays] cuts the flat data of a [batch x dim] tensor into
    [batch] rows of [dim] numbers each, and the rows put end to end are the
    data again; a tensor whose [dims] has not two entries is refused with an
    error. *)
Theorem tensor2DToArrays_rows (t : Tensor.t) :
  (∀ batch dim, Tensor.dims t = [batch; dim] →
     (0 ≤ batch)%Z → (0 ≤ dim)%Z →
     Z.of_nat (length (Tensor.data t)) = (batch * dim)%Z →
     ∃ rows, tensor2DToArrays t = Ok rows ∧
       Z.of_nat (length rows) = batch ∧
       Forall (λ row, Z.of_nat (length row) = dim) rows ∧
       concat rows = Tensor.data t) ∧
  (length (Tensor.dims t) ≠ 2 → ∃ e, tensor2DToArrays t = Throw e).
Proof.
  split.
  - apply tensor2DToArrays_Ok.
  - intros Hdims. unfold tensor2DToArrays.
    destruct (Tensor.dims t) as [|? [|? [|? ?]]]; simpl in Hdims; try lia; by eexists.
Qed.

Lemma tensor2DToArrays_rows_witness :
  let t := {| Tensor.dims := [2; 3]%Z;
              Tensor.data := [1; 2; 3; 4; 5; 6]%float |} in
  (∃ rows, tensor2DToArrays t = Ok rows ∧
     Z.of_nat (length rows) = 2%Z ∧
     Forall (λ row, Z.of_nat (length row) = 3%Z) rows ∧
     concat rows = Tensor.data t) ∧
  (∃ e, tensor2DToArrays
          {| Tensor.dims := [6]%Z; Tensor.data := [1; 2; 3; 4; 5; 6]%float |}
        = Throw e).
Proof.
  split.
  - apply (tensor2DToArrays_rows
             {| Tensor.dims := [2; 3]%Z; Tensor.data := [1; 2; 3; 4; 5; 6]%float |});
      [reflexivity|lia|lia|reflexivity].
  - apply (tensor2DToArrays_rows
             {| Tensor.dims := [6]%Z; Tensor.data := [1; 2; 3; 4; 5; 6]%float |}).
    simpl. lia.
Defined.

(** ** [dot] and [normalize] *)

Lemma is_nan_add_l s y : is_nan s = true → is_nan (s + y) = true.
Proof.
  rewrite !is_nan_spec, add_spec. by destruct (Prim2SF s).
Qed.

Lemma is_nan_add_r s y : is_nan y = true → is_nan (s + y) = true.
Proof.
  rewrite !is_nan_spec, add_spec. by destruct (Prim2SF s), (Prim2SF y).
Qed.

Lemma is_nan_mul_r x y : is_nan y = true → is_nan (x * y) = true.
Proof.
  rewrite !is_nan_spec, mul_spec. by destruct (Prim2SF x), (Prim2SF y).
Qed.

Lemma sum_products_nan a : ∀ s b, is_nan s = true → is_nan (sum_products s a b) = true.
Proof.
  induction a as [|x a IH]; intros s b Hs; simpl; [done|].
  by apply IH, is_nan_add_l.
Qed.

Lemma sum_products_short a : ∀ s b,
  length b < length a → is_nan (sum_products s a b) = true.
Proof.
  induction a as [|x a IH]; intros s b Hlen; simpl in *; [lia|].
  destruct b as [|y b]; simpl in *.
  - apply sum_products_nan, is_nan_add_r, is_nan_mul_r. done.
  - apply IH. lia.
Qed.

Lemma sum_products_take a : ∀ s b,
  length a ≤ length b → sum_products s a b = sum_products s a (take (length a) b).
Proof.
  induction a as [|x a IH]; intros s b Hlen; simpl in *; [done|].
  destruct b as [|y b]; simpl in *; [lia|]. apply IH. lia.
Qed.

(** X6. [dot] runs over the indices of its first argument.  When the second
    vector is shorter, the missing components read as [undefined] and the
    result is [NaN]; when it is longer, its surplus components are not read.
    The [dot] of the scorer is the same function. *)
Theorem dot_lengths (a b : list float) :
  (length b < length a → is_nan (JinaClipSearch.dot a b) = true) ∧
  (length a ≤ length b →
   JinaClipSearch.dot a b = JinaClipSearch.dot a (take (length a) b)) ∧
  MobileNetScorer.dot a b = JinaClipSearch.dot a b.
Proof.
  split_and!.
  - apply sum_products_short.
  - apply sum_products_take.
  - done.
Qed.

Lemma dot_lengths_witness :
  is_nan (JinaClipSearch.dot [1; 2; 3]%float [1; 2]%float) = true ∧
  JinaClipSearch.dot [1; 2]%float [3; 4; 5]%float
  = JinaClipSearch.dot [1; 2]%float [3; 4]%float.
Proof.
  split.
  - apply (proj1 (dot_lengths [1; 2; 3]%float [1; 2]%float)). simpl. lia.
  - apply (proj1 (proj2 (dot_lengths [1; 2]%float [3; 4; 5]%float))). simpl. lia.
Defined.

Lemma div_infinity_zero x : is_finite x = true → is_zero (x / infinity) = true.
Proof.
  rewrite is_finite_spec. intros Hx.
  unfold is_zero, js_strict_eq. rewrite eqb_spec, div_spec.
  change (Prim2SF infinity) with (S754_infinity false).
  change (Prim2SF 0) with (S754_zero false).
  by destruct (Prim2SF x) as [[]|[]| |[] m e].
Qed.

(** X7. [normalize] keeps the dimension of the vector; it returns a zero
    vector as it is, dividing nothing; and when the sum of the squares
    overflows to [Infinity], every finite component is divided by [Infinity]:
    the normalized vector is a zero vector. *)
Theorem normalize_shape (v : list float) :
  length (normalize v) = length v ∧
  (zero_vector v = true → normalize v = v) ∧
  (sum_squares v = infinity → Forall (λ x, is_finite x = true) v →
   zero_vector (normalize v) = true).
Proof.
  unfold normalize. split_and!.
  - destruct (js_strict_eq _ _); [done|apply length_fmap].
  - intros ->%sum_squares_zero_vector. done.
  - intros -> Hfin.
    change (js_strict_eq (sqrt infinity) 0) with false. cbv iota.
    change (sqrt infinity) with infinity.
    unfold zero_vector. apply forallb_forall. intros y Hy%list_elem_of_In.
    apply list_elem_of_fmap in Hy as (x & -> & Hx).
    apply div_infinity_zero. by eapply Forall_forall in Hfin.
Qed.

Lemma normalize_shape_witness :
  normalize [0; -0]%float = [0; -0]%float ∧
  zero_vector (normalize [huge; 1]%float) = true.
Proof.
  split.
  - apply (proj1 (proj2 (normalize_shape [0; -0]%float))). reflexivity.
  - apply (proj2 (proj2 (normalize_shape [huge; 1]%float))).
    + reflexivity.
    + by repeat constructor.
Defined.

(** ** Symmetry of the similarities *)

Lemma mul_comm x y : (x * y = y * x)%float.
Proof.
  apply Prim2SF_inj. rewrite !mul_spec.
  destruct (Prim2SF x) as [sx|sx| |sx mx ex], (Prim2SF y) as [sy|sy| |sy my ey];
    unfold SF64mul, SFmul; rewrite ?(xorb_comm sx sy); try done.
  by rewrite (Pos.mul_comm mx my), (Z.add_comm ex ey).
Qed.

Lemma sum_products_comm a : ∀ s b,
  length a = length b → sum_products s a b = sum_products s b a.
Proof.
  induction a as [|x a IH]; intros s [|y b] Hlen; simpl in *; try done.
  rewrite (mul_comm x y). apply IH. lia.
Qed.

(** X8. On two vectors of one length, [dot] and [cosineSimilarity] are
    symmetric: exchanging the vectors gives the same number, bit for bit. *)
Theorem cosineSimilarity_symmetric (a b : list float) :
  length a = length b →
  JinaClipSearch.dot a b = JinaClipSearch.dot b a ∧
  cosineSimilarity a b = cosineSimilarity b a.
Proof.
  intros Hlen. split; [by apply sum_products_comm|].
  unfold cosineSimilarity.
  rewrite (sum_products_comm a 0 b Hlen), orb_comm.
  by rewrite (mul_comm (sqrt (sum_squares a))).
Qed.

Lemma cosineSimilarity_symmetric_witness :
  JinaClipSearch.dot [3; 4]%float [4; 3]%float
  = JinaClipSearch.dot [4; 3]%float [3; 4]%float ∧
  cosineSimilarity [3; 4]%float [4; 3]%float
  = cosineSimilarity [4; 3]%float [3; 4]%float.
Proof. apply (cosineSimilarity_symmetric [3; 4]%float [4; 3]%float). reflexivity. Defined.

(** ** The shape of a response of [search] *)

Lemma elem_of_ranked (m : Z) (rs : list SearchResult) r :
  r ∈ imap set_rank (slice (sort by_similarity rs) 0 m) →
  ∃ k r', r = set_rank k r' ∧ r' ∈ rs.
Proof.
  intros (k & r' & -> & Hr')%elem_of_lookup_imap.
  apply list_elem_of_lookup_2 in Hr'. rewrite slice_prefix in Hr'.
  apply subseteq_take in Hr'. rewrite sort_perm in Hr'. eauto.
Qed.

Lemma length_ranked (m : Z) (rs : list SearchResult) :
  length (imap set_rank (slice (sort by_similarity rs) 0 m)) ≤ length rs ∧
  ((0 ≤ m)%Z → (Z.of_nat (length (imap set_rank (slice (sort by_similarity rs) 0 m))) ≤ m)%Z).
Proof.
  rewrite length_imap, slice_prefix, length_take, sort_length. split; [lia|].
  intros Hm. unfold slice_index. rewrite (proj2 (Z.ltb_ge _ _)) by lia. lia.
Qed.

(** X9. A response of [search] never counts more matches than images, nor
    more than a non-negative [maxResults]; every result names the file of its
    path ([basename]) and carries none of the optional score fields; the
    statistics repeat the query; and the searcher is left as it was. *)
Theorem search_response_shape h config this resp this' :
  search h config this = (Ok resp, this') →
  this' = this ∧
  (matchingImages (stats resp) ≤ totalImages (stats resp))%Z ∧
  ((0 ≤ default default_maxResults (maxResults config))%Z →
   (matchingImages (stats resp) ≤ default default_maxResults (maxResults config))%Z) ∧
  Forall (λ r, fileName r = basename (path h) (imagePath r) ∧
               clipScore r = None ∧ auxScore r = None ∧ predictedLabels r = None)
    (results resp) ∧
  stats_query (stats resp) = query config.
Proof.
  unfold search. intros [= Hbody <-]. split; [done|].
  apply search_body_inv in Hbody as (imagePaths & embs & q & _ & _ & _ & _ & ->).
  cbn [results stats totalImages matchingImages stats_query].
  set (rs := filter _ _).
  destruct (length_ranked (default default_maxResults (maxResults config)) rs) as [Hle Hm].
  assert (length rs ≤ length imagePaths) as Hrs.
  { unfold rs. etrans; [apply length_filter|].
    unfold scored. rewrite length_zip_with. lia. }
  split_and!; [lia|done| |done].
  apply Forall_forall. intros r (k & r' & -> & Hr')%elem_of_ranked.
  unfold rs in Hr'. apply list_elem_of_filter in Hr' as [_ Hr'].
  unfold scored in Hr'.
  by apply elem_of_lookup_zip_with in Hr' as (i & p & e & -> & _ & _).
Qed.

Lemma search_response_shape_witness :
  ∃ resp,
    search demo_host demo_config demo_searcher = (Ok resp, demo_searcher) ∧
    (matchingImages (stats resp) ≤ totalImages (stats resp))%Z ∧
    (matchingImages (stats resp) ≤ 2)%Z ∧
    fileName <$> results resp = ["mountain.jpg"; "lake.jpeg"].
Proof.
  eexists. split; [reflexivity|].
  destruct (search_response_shape demo_host demo_config demo_searcher _ demo_searcher eq_refl)
    as (_ & Htotal & Hmax & _).
  split_and!; [exact Htotal|by apply Hmax|reflexivity].
Defined.

(** ** Embeddings that do not fit the images *)

Lemma score_loop_short h imagePaths : ∀ i embs q t acc,
  i ≤ length embs → length embs < length imagePaths + i →
  score_loop h imagePaths i embs q t acc = Throw undefined_length.
Proof.
  induction imagePaths as [|p imagePaths IH]; intros i embs q t acc Hi Hlen; simpl in *.
  - lia.
  - destruct (embs !! i) as [e|] eqn:He; [|done].
    apply lookup_lt_Some in He. apply IH; lia.
Qed.

(** X10. When the model returns fewer embeddings than there are images,
    [search] throws the [TypeError] of reading [imageEmbeddings[i].length]
    on the first image without an embedding: no result is returned, not
    even for the images that have one. *)
Theorem search_too_few_embeddings h config this imagePaths images embs q :
  ready this →
  Utils.getImageFiles h (imageFolder config) = Ok imagePaths →
  mapM (RawImage_read h) imagePaths = Ok images →
  getImageEmbeddings this images = Ok embs →
  getTextEmbedding this (query config) = Ok q →
  length embs < length imagePaths →
  search h config this = (Throw undefined_length, this).
Proof.
  intros Hready Hpaths Himages Hembs Hq Hlen.
  unfold search, search_body. unfold ready in Hready.
  rewrite (bind_Ok_l _ _ _ Hready), (bind_Ok_l _ _ _ Hpaths).
  rewrite bool_decide_eq_false_2 by (destruct imagePaths; simpl in *; [lia|done]).
  rewrite (bind_Ok_l _ _ _ Himages), (bind_Ok_l _ _ _ Hembs), (bind_Ok_l _ _ _ Hq).
  by rewrite score_loop_short by lia.
Qed.

Lemma search_too_few_embeddings_witness :
  search (with_model one_row_model) demo_config (searcher_on (with_model one_row_model))
  = (Throw undefined_length, searcher_on (with_model one_row_model)).
Proof.
  apply (search_too_few_embeddings (with_model one_row_model) demo_config _
           ["photos/mountain.jpg"; "photos/cat.PNG"; "photos/lake.jpeg"]
           [demo_image 1; demo_image 2; demo_image 3]
           [normalize [3; 4]%float] (normalize [3; 4]%float)).
  - reflexivity.
  - reflexivity.
  - reflexivity.
  - reflexivity.
  - reflexivity.
  - simpl. lia.
Defined.

(** ** Tightening the threshold or the limit *)

Lemma js_ge_trans a b c : js_ge a b = true → js_ge b c = true → js_ge a c = true.
Proof. rewrite !js_ge_val. intros (?&?&?) (?&?&?). split_and!; [done..|lia]. Qed.

Lemma filter_none {A} (P : A → Prop) `{!∀ x, Decision (P x)} (l : list A) :
  Forall (λ x, ¬ P x) l → filter P l = [].
Proof.
  induction 1 as [|x l Hx Hl IH]; [done|].
  by rewrite filter_cons, decide_False.
Qed.

Lemma filter_reaches_prefix t (l : list (nat * SearchResult)) :
  StronglySorted ranks_before l → filter (reaches t) l `prefix_of` l.
Proof.
  induction 1 as [|x l Hl IH Hx]; [done|].
  rewrite filter_cons. case_decide as Hr.
  - by apply prefix_cons.
  - rewrite filter_none; [apply prefix_nil|].
    apply Forall_forall. intros y Hy Hry.
    eapply Forall_forall in Hx; [|done]. apply ranks_before_ge in Hx.
    apply Hr. unfold reaches in *. by eapply js_ge_trans.
Qed.

Lemma filter_reaches_weaken t1 t2 (l : list (nat * SearchResult)) :
  js_ge t2 t1 = true →
  filter (reaches t2) (filter (reaches t1) l) = filter (reaches t2) l.
Proof.
  intros Ht. rewrite list_filter_filter. apply list_filter_iff.
  intros x. unfold reaches. split; [by intros [? _]|].
  intros Hx. split; [done|]. by eapply js_ge_trans.
Qed.

Lemma prefix_take_take {A} (l1 l2 : list A) m1 m2 :
  l1 `prefix_of` l2 → m1 ≤ m2 → take m1 l1 `prefix_of` take m2 l2.
Proof.
  intros [k ->] Hm.
  destruct (decide (m2 ≤ length l1)) as [Hle|Hgt].
  - rewrite (take_app_le l1 k m2) by done.
    replace m1 with (m1 `min` m2) by lia. rewrite <-take_take. apply prefix_take.
  - rewrite take_app, (take_ge l1 m2) by lia.
    etrans; [apply prefix_take|]. by eexists.
Qed.

Lemma prefix_imap {A B} (f : nat → A → B) (l1 l2 : list A) :
  l1 `prefix_of` l2 → imap f l1 `prefix_of` imap f l2.
Proof. intros [k ->]. rewrite imap_app. by eexists. Qed.

Lemma prefix_fmap {A B} (f : A → B) (l1 l2 : list A) :
  l1 `prefix_of` l2 → f <$> l1 `prefix_of` f <$> l2.
Proof. intros [k ->]. rewrite fmap_app. by eexists. Qed.

(** The ranked list of a threshold and a limit, from the scored images. *)
Lemma ranked_prefix (rs : list SearchResult) t1 t2 (m1 m2 : nat) :
  js_ge t2 t1 = true → m2 ≤ m1 →
  imap set_rank
    (take m2 (sort by_similarity (filter (λ r, js_ge (similarity r) t2 = true) rs)))
  `prefix_of`
  imap set_rank
    (take m1 (sort by_similarity (filter (λ r, js_ge (similarity r) t1 = true) rs))).
Proof.
  intros Ht Hm. rewrite !sort_scored_entries.
  pose proof (sort_stable_descending t1 _ (enumerate_sorted rs)) as [Hp1 Hs1].
  pose proof (sort_stable_descending t2 _ (enumerate_sorted rs)) as H2.
  set (S1 := sort _ (filter (reaches t1) _)) in *.
  set (S2 := sort _ (filter (reaches t2) _)) in *.
  assert (S2 = filter (reaches t2) S1) as ->.
  { apply (stable_descending_unique _ _ _ H2). split.
    - rewrite Hp1. by rewrite filter_reaches_weaken.
    - by apply StronglySorted_filter. }
  apply prefix_imap, prefix_take_take; [|done].
  by apply prefix_fmap, filter_reaches_prefix.
Qed.

(** X11. Raising the threshold or lowering [maxResults] only cuts the end of
    the result list: on the same folder and query, the results of the
    tighter search are the first results of the other one, with the same
    ranks and scores. *)
Theorem search_tighter_is_prefix h config1 config2 this resp1 resp2 this1 this2 :
  imageFolder config2 = imageFolder config1 →
  query config2 = query config1 →
  js_ge (default default_threshold (threshold config2))
        (default default_threshold (threshold config1)) = true →
  (0 ≤ default default_maxResults (maxResults config2)
     ≤ default default_maxResults (maxResults config1))%Z →
  search h config1 this = (Ok resp1, this1) →
  search h config2 this = (Ok resp2, this2) →
  results resp2 `prefix_of` results resp1.
Proof.
  intros Hfolder Hquery Ht Hm [= H1 _] [= H2 _].
  apply search_body_inv in H1 as (paths1 & embs1 & q1 & _ & Hp1 & _ & Hrun1 & ->).
  apply search_body_inv in H2 as (paths2 & embs2 & q2 & _ & Hp2 & _ & Hrun2 & ->).
  rewrite Hfolder, Hp1 in Hp2. injection Hp2 as <-.
  cbn [results]. rewrite !slice_take by lia.
  destruct (decide (paths1 = [])) as [->|Hne].
  { unfold scored. simpl. rewrite !take_nil. done. }
  destruct (Hrun1 Hne) as (images1 & Hi1 & He1 & Hq1).
  destruct (Hrun2 Hne) as (images2 & Hi2 & He2 & Hq2).
  rewrite Hi1 in Hi2. injection Hi2 as <-.
  rewrite He1 in He2. injection He2 as <-.
  rewrite Hquery, Hq1 in Hq2. injection Hq2 as <-.
  apply ranked_prefix; [done|lia].
Qed.

Lemma search_tighter_is_prefix_witness :
  ∃ resp1 resp2,
    search demo_host
      {| imageFolder := "photos"; query := "mountain"; threshold := Some 0.5%float;
         maxResults := None; enableAuxScorer := None; fusionWeight := None |}
      demo_searcher = (Ok resp1, demo_searcher) ∧
    search demo_host
      {| imageFolder := "photos"; query := "mountain"; threshold := Some 1%float;
         maxResults := Some 1%Z; enableAuxScorer := None; fusionWeight := None |}
      demo_searcher = (Ok resp2, demo_searcher) ∧
    length (results resp1) = 3 ∧ length (results resp2) = 1 ∧
    results resp2 `prefix_of` results resp1.
Proof.
  eexists _, _. split; [reflexivity|]. split; [reflexivity|].
  split; [reflexivity|]. split; [reflexivity|].
  eapply (search_tighter_is_prefix demo_host
            {| imageFolder := "photos"; query := "mountain"; threshold := Some 0.5%float;
               maxResults := None; enableAuxScorer := None; fusionWeight := None |}
            {| imageFolder := "photos"; query := "mountain"; threshold := Some 1%float;
               maxResults := Some 1%Z; enableAuxScorer := None; fusionWeight := None |}
            demo_searcher _ _ demo_searcher demo_searcher);
    [reflexivity|reflexivity|reflexivity|unfold default_maxResults; simpl; lia
    |reflexivity|reflexivity].
Defined.

(** ** Embeddings of different dimensions *)

(** X12. An image whose embedding has more components than the embedding of
    the query scores [NaN], which reaches no threshold: the image is left out
    of the results, and no error is raised. *)
Theorem search_drops_mismatched h config this imagePaths images embs q resp this' i p e :
  search h config this = (Ok resp, this') →
  Utils.getImageFiles h (imageFolder config) = Ok imagePaths →
  mapM (RawImage_read h) imagePaths = Ok images →
  getImageEmbeddings this images = Ok embs →
  getTextEmbedding this (query config) = Ok q →
  NoDup imagePaths →
  imagePaths !! i = Some p → embs !! i = Some e →
  length q < length e →
  p ∉ imagePath <$> results resp.
Proof.
  intros [= Hbody _] Hpaths Himages Hembs Hq Hnodup Hp He Hlen.
  apply search_body_inv in Hbody as (paths' & embs' & q' & _ & Hp' & _ & Hrun & ->).
  rewrite Hpaths in Hp'. injection Hp' as <-.
  destruct Hrun as (images' & Hi' & He' & Hq'); [by intros ->|].
  rewrite Himages in Hi'. injection Hi' as <-.
  rewrite Hembs in He'. injection He' as <-.
  rewrite Hq in Hq'. injection Hq' as <-.
  cbn [results]. intros (r & -> & Hr)%list_elem_of_fmap.
  apply elem_of_ranked in Hr as (k & r' & -> & Hr').
  apply list_elem_of_filter in Hr' as [Hge Hr'].
  apply elem_of_scored in Hr' as (j & e' & Hj & He' & Hsim).
  simpl in Hp. rewrite (NoDup_lookup _ _ _ _ Hnodup Hj Hp) in He'.
  rewrite He in He'. injection He' as <-.
  apply js_ge_not_nan in Hge as [Hnan _].
  rewrite Hsim in Hnan. unfold JinaClipSearch.dot in Hnan.
  by rewrite sum_products_short in Hnan.
Qed.

Lemma search_drops_mismatched_witness :
  ∃ resp,
    search (with_model short_text_model)
      {| imageFolder := "photos"; query := "mountain"; threshold := Some (-1)%float;
         maxResults := None; enableAuxScorer := None; fusionWeight := None |}
      (searcher_on (with_model short_text_model))
    = (Ok resp, searcher_on (with_model short_text_model)) ∧
    totalImages (stats resp) = 3%Z ∧
    "photos/mountain.jpg" ∉ imagePath <$> results resp.
Proof.
  eexists. split; [reflexivity|]. split; [reflexivity|].
  eapply (search_drops_mismatched (with_model short_text_model)
            {| imageFolder := "photos"; query := "mountain"; threshold := Some (-1)%float;
               maxResults := None; enableAuxScorer := None; fusionWeight := None |}
            (searcher_on (with_model short_text_model))
            ["photos/mountain.jpg"; "photos/cat.PNG"; "photos/lake.jpeg"]
            [demo_image 1; demo_image 2; demo_image 3]
            (normalize <$> [[3; 4]; [4; 3]; [3; 4]]%float) (normalize [1]%float)
            _ _ 0 "photos/mountain.jpg" (normalize [3; 4]%float));
    [reflexivity|reflexivity|reflexivity|reflexivity|reflexivity| |reflexivity|reflexivity
    |simpl; lia].
  by apply (bool_decide_unpack (NoDup _)); vm_compute.
Defined.

(** ** [searchMultiple] *)

Lemma map_set_keys {V} k (v : V) m q : q ∈ (map_set k v m).*1 ↔ q = k ∨ q ∈ m.*1.
Proof.
  induction m as [|[k' v'] m IH]; simpl.
  - rewrite list_elem_of_singleton, elem_of_nil. tauto.
  - case_bool_decide as Hk; simpl.
    + subst. rewrite !elem_of_cons. tauto.
    + rewrite !elem_of_cons, IH. tauto.
Qed.

Lemma map_set_NoDup {V} k (v : V) m : NoDup m.*1 → NoDup (map_set k v m).*1.
Proof.
  induction m as [|[k' v'] m IH]; simpl; intros Hm.
  - apply NoDup_singleton.
  - apply NoDup_cons in Hm as [Hk' Hm]. case_bool_decide as Hk; simpl.
    + subst. by apply NoDup_cons.
    + apply NoDup_cons. split; [|by apply IH].
      rewrite map_set_keys. intros [?|?]; [congruence|done].
Qed.

Lemma map_set_elem {V} k (v : V) m q r :
  (q, r) ∈ map_set k v m → (q, r) = (k, v) ∨ (q, r) ∈ m.
Proof.
  induction m as [|[k' v'] m IH]; simpl.
  - rewrite list_elem_of_singleton. auto.
  - case_bool_decide as Hk; rewrite !elem_of_cons.
    + intros [?|?]; auto.
    + intros [?|?]; auto. destruct IH; auto.
Qed.

Lemma searchMultiple_loop_Ok h folder t this queries : ∀ acc m,
  searchMultiple_loop h folder queries t this acc = Ok m →
  (∀ q, q ∈ m.*1 ↔ q ∈ acc.*1 ∨ q ∈ queries) ∧
  (NoDup acc.*1 → NoDup m.*1) ∧
  (∀ q r, (q, r) ∈ m →
     (q, r) ∈ acc ∨
     search_body h (query_config folder q (Some t)) this = Ok r).
Proof.
  induction queries as [|query queries IH]; intros acc m Hrun; simpl in Hrun.
  - injection Hrun as <-. split_and!; [|done|auto].
    intros q. rewrite elem_of_nil. tauto.
  - apply bind_Ok in Hrun as (response & Hresp & Hrun).
    apply IH in Hrun as (Hkeys & Hnodup & Helem). split_and!.
    + intros q. rewrite Hkeys, map_set_keys, elem_of_cons. tauto.
    + intros Hacc. by apply Hnodup, map_set_NoDup.
    + intros q r [Hq|Hq]%Helem; [|by right].
      apply map_set_elem in Hq as [[= -> ->]|Hq]; [by right|by left].
Qed.

(** X13. The map that [searchMultiple] returns has one entry for each
    distinct query, and the response under a query is the one [search]
    returns for the folder, that query and the threshold ([0.3] when none is
    given), with the default [maxResults]. *)
Theorem searchMultiple_entries h folder queries threshold this m this' :
  searchMultiple h folder queries threshold this = (Ok m, this') →
  this' = this ∧
  NoDup m.*1 ∧
  (∀ q, q ∈ m.*1 ↔ q ∈ queries) ∧
  (∀ q r, (q, r) ∈ m →
     search h (query_config folder q threshold) this = (Ok r, this)).
Proof.
  unfold searchMultiple. intros [= Hrun <-]. split; [done|].
  apply bind_Ok in Hrun as ([] & _ & Hrun).
  apply searchMultiple_loop_Ok in Hrun as (Hkeys & Hnodup & Helem).
  split_and!.
  - apply Hnodup. constructor.
  - intros q. rewrite Hkeys. simpl. rewrite elem_of_nil. tauto.
  - intros q r [Hq|Hq]%Helem; [by apply elem_of_nil in Hq|].
    unfold search. by rewrite <-Hq.
Qed.

Lemma searchMultiple_entries_witness :
  ∃ m,
    searchMultiple demo_host "photos" ["mountain"; "cat"; "mountain"] None demo_searcher
    = (Ok m, demo_searcher) ∧
    m.*1 = ["mountain"; "cat"] ∧
    ∀ q r, (q, r) ∈ m →
      search demo_host (query_config "photos" q None) demo_searcher = (Ok r, demo_searcher).
Proof.
  eexists. split; [reflexivity|]. split; [reflexivity|].
  eapply (searchMultiple_entries demo_host "photos" ["mountain"; "cat"; "mountain"] None
            demo_searcher _ demo_searcher).
  reflexivity.
Defined.

Lemma searchMultiple_loop_throw h folder t this pre q post e : ∀ acc,
  Forall (λ q', ∃ r, search_body h (query_config folder q' (Some t)) this = Ok r) pre →
  search_body h (query_config folder q (Some t)) this = Throw e →
  searchMultiple_loop h folder (pre ++ q :: post) t this acc = Throw e.
Proof.
  induction pre as [|q' pre IH]; intros acc Hpre Hq; simpl.
  - unfold query_config in Hq. simpl in Hq. by rewrite Hq.
  - apply Forall_cons in Hpre as [[r Hr] Hpre].
    unfold query_config in Hr. simpl in Hr. rewrite Hr. simpl. by apply IH.
Qed.

(** X14. [searchMultiple] stops at the first query whose [search] throws
    and throws that error: the responses of the queries before it are lost,
    and the queries after it are not run. *)
Theorem searchMultiple_first_error h folder pre q post threshold this e :
  Forall (λ q', ∃ r, search h (query_config folder q' threshold) this = (Ok r, this)) pre →
  search h (query_config folder q threshold) this = (Throw e, this) →
  searchMultiple h folder (pre ++ q :: post) threshold this = (Throw e, this).
Proof.
  intros Hpre [= Hq]. unfold searchMultiple. f_equal.
  destruct (ensureInitialized this) as [[]|e'] eqn:Hready.
  - simpl. apply searchMultiple_loop_throw; [|done].
    eapply Forall_impl; [done|]. by intros q' [r [= Hr]]; exists r.
  - unfold search_body in Hq. rewrite Hready in Hq. simpl in *. congruence.
Qed.

Lemma searchMultiple_first_error_witness :
  searchMultiple demo_host "nowhere" ["mountain"; "cat"] None demo_searcher
  = (Throw (directory_not_found "nowhere"), demo_searcher).
Proof.
  apply (searchMultiple_first_error demo_host "nowhere" [] "mountain" ["cat"] None
           demo_searcher).
  - constructor.
  - reflexivity.
Defined.

(** ** [selfCheck] *)

(** X15. On a ready searcher, [selfCheck] passes on an error of the
    enumeration as it is, and returns without a report, reading no image and
    calling no model, when the folder holds no image.  When it reports, the
    report is made from the first image alone; and the cosine of its
    embedding with itself is within [1e-6] of [1] as soon as the squared norm
    of the embedding lies between [2 ^ -800] and [2 ^ 800]. *)
Theorem selfCheck_outcomes h folder this :
  ready this →
  (∀ e, Utils.getImageFiles h folder = Throw e →
     selfCheck h folder this = (Throw e, this)) ∧
  (Utils.getImageFiles h folder = Ok [] → selfCheck h folder this = (Ok None, this)) ∧
  (∀ log this', selfCheck h folder this = (Ok (Some log), this') →
     ∃ p rest oneImage emb embs,
       Utils.getImageFiles h folder = Ok (p :: rest) ∧
       RawImage_read h p = Ok oneImage ∧
       getImageEmbeddings this [oneImage] = Ok (emb :: embs) ∧
       image_dim log = length emb ∧
       cosine_self log = cosineSimilarity emb emb ∧
       (moderate (sum_squares emb) = true →
        within tol_1e6 (cosine_self log) 1 = true)).
Proof.
  intros Hready. unfold ready in Hready. unfold selfCheck. split_and!.
  - intros e He. by rewrite (bind_Ok_l _ _ _ Hready), He.
  - intros Hfiles. by rewrite (bind_Ok_l _ _ _ Hready), (bind_Ok_l _ _ _ Hfiles).
  - intros log this' [= Hrun _]. rewrite (bind_Ok_l _ _ _ Hready) in Hrun.
    apply bind_Ok in Hrun as ([|p rest] & Hfiles & Hrun); [done|].
    apply bind_Ok in Hrun as (oneImage & Hread & Hrun).
    apply bind_Ok in Hrun as ([|emb embs] & Hembs & Hrun);
      apply bind_Ok in Hrun as (txt & Htxt & Hrun); [done|].
    injection Hrun as <-. exists p, rest, oneImage, emb, embs.
    split_and!; [done..|]. simpl. apply cosineSimilarity_self_moderate.
Qed.

Lemma selfCheck_outcomes_witness :
  selfCheck demo_host "nowhere" demo_searcher
  = (Throw (directory_not_found "nowhere"), demo_searcher) ∧
  ∃ log, selfCheck demo_host "photos" demo_searcher = (Ok (Some log), demo_searcher) ∧
         image_dim log = 2 ∧ within tol_1e6 (cosine_self log) 1 = true.
Proof.
  destruct (selfCheck_outcomes demo_host "nowhere" demo_searcher eq_refl) as (Herr & _).
  destruct (selfCheck_outcomes demo_host "photos" demo_searcher eq_refl) as (_ & _ & Hlog).
  split; [by apply Herr|].
  eexists. split; [reflexivity|].
  destruct (Hlog _ _ eq_refl)
    as (p & rest & img & emb & embs & Hfiles & Hread & Hembs & Hdim & Hcos & Hnear).
  vm_compute in Hfiles. injection Hfiles as <- <-.
  vm_compute in Hread. injection Hread as <-.
  vm_compute in Hembs. injection Hembs as <- <-.
  split; [exact Hdim|]. apply Hnear. by vm_compute.
Defined.

(** ** [MobileNetScorer.initialize] *)

Lemma precompute_loop_lookup fn todo : ∀ table l,
  precompute_loop fn todo table !! l
  = if decide (l ∈ todo)
    then match fn l with Ok e => Some e | Throw _ => table !! l end
    else table !! l.
Proof.
  induction todo as [|x todo IH]; intros table l; cbn [precompute_loop].
  - destruct (decide (l ∈ [])) as [H|H]; [by apply elem_of_nil in H|done].
  - destruct (fn x) as [e|err] eqn:Hx; rewrite IH;
      destruct (decide (l ∈ x :: todo)) as [H1|H1],
               (decide (l ∈ todo)) as [H2|H2],
               (decide (l = x)) as [->|H3];
      rewrite ?Hx, ?lookup_insert_eq, ?lookup_insert_ne by done; try done;
      rewrite elem_of_cons in H1; tauto.
Qed.

(** X16. When the session is created and the labels are read,
    [MobileNetScorer.initialize] succeeds whether or not the labels can be
    embedded: it keeps the session and the labels, and the table holds the
    embedding of every label that the embedding function embeds; a label
    whose embedding throws is passed over, and gets no entry on a new
    scorer.  A further [initialize] returns at once and changes nothing. *)
Theorem scorer_initialize_table h fn this s ls :
  MobileNetScorer.isInitialized this = false →
  InferenceSession_create h "models/mobilenet_v2.onnx" = Ok s →
  read_labels h = Ok ls →
  ∃ this',
    MobileNetScorer.initialize h fn this = (Ok (), this') ∧
    MobileNetScorer.isInitialized this' = true ∧
    session this' = Some s ∧ labels this' = ls ∧
    (∀ l, labelEmbeddings this' !! l
          = if decide (l ∈ ls)
            then match fn l with
                 | Ok e => Some e
                 | Throw _ => labelEmbeddings this !! l
                 end
            else labelEmbeddings this !! l) ∧
    ∀ h' fn', MobileNetScorer.initialize h' fn' this' = (Ok (), this').
Proof.
  intros Hflag Hs Hls. unfold MobileNetScorer.initialize.
  rewrite Hflag, Hs, Hls. cbn. eexists. split; [done|]. cbn.
  split_and!; [done..| |done]. intros l. apply precompute_loop_lookup.
Qed.

Lemma scorer_initialize_table_witness :
  ∃ this',
    MobileNetScorer.initialize demo_host
      (λ l, if bool_decide (l = "dog") then Throw (Error "no embedding") else Ok [1%float])
      MobileNetScorer.new = (Ok (), this') ∧
    labels this' = ["cat"; "dog"; ""; "mountain"] ∧
    labelEmbeddings this' !! "cat" = Some [1%float] ∧
    labelEmbeddings this' !! "dog" = None ∧
    labelEmbeddings this' !! "zebra" = None.
Proof.
  destruct (scorer_initialize_table demo_host
              (λ l, if bool_decide (l = "dog") then Throw (Error "no embedding")
                    else Ok [1%float])
              MobileNetScorer.new
              (default {| run := λ _, Ok ∅; outputNames := [] |} (session demo_scorer))
              ["cat"; "dog"; ""; "mountain"] eq_refl eq_refl eq_refl)
    as (this' & Hinit & _ & _ & Hlabels & Htable & _).
  exists this'. split; [exact Hinit|]. split; [exact Hlabels|].
  rewrite !Htable. split_and!; reflexivity.
Defined.

(** X17. A call of the scorer's [initialize] that throws, throws the one
    error "MobileNet initialization failed"; the scorer is still not
    initialized, even when its session was created before the failure, and
    [getTopLabels] throws the not-initialized error on it. *)
Theorem scorer_initialize_failure h fn this e this' :
  MobileNetScorer.initialize h fn this = (Throw e, this') →
  e = scorer_initialization_failed ∧
  MobileNetScorer.isInitialized this' = false ∧
  ∀ h' image topK,
    getTopLabels h' image topK this' = (Throw scorer_not_initialized, this').
Proof.
  intros Hinit.
  assert (e = scorer_initialization_failed ∧ MobileNetScorer.isInitialized this' = false)
    as [-> Hflag].
  { unfold MobileNetScorer.initialize in Hinit.
    destruct (MobileNetScorer.isInitialized this) eqn:Hflag; [done|].
    destruct (InferenceSession_create h _); [|by injection Hinit as <- <-].
    destruct (read_labels h); [|by injection Hinit as <- <-].
    done. }
  split_and!; [done..|]. intros h' image topK.
  unfold getTopLabels. by rewrite Hflag.
Qed.

Lemma scorer_initialize_failure_witness :
  ∃ this',
    MobileNetScorer.initialize offline_host (λ _, Ok []) MobileNetScorer.new
    = (Throw scorer_initialization_failed, this') ∧
    MobileNetScorer.isInitialized this' = false ∧
    ∀ h' image topK,
      getTopLabels h' image topK this' = (Throw scorer_not_initialized, this').
Proof.
  eexists. split; [reflexivity|].
  eapply (scorer_initialize_failure offline_host (λ _, Ok []) MobileNetScorer.new).
  reflexivity.
Defined.

(** ** The order of the labels *)

Lemma logit_before_val a b :
  logit_before a b ↔
    is_nan a.1 = false ∧ is_nan b.1 = false ∧
    ((fval b.1 < fval a.1)%Z ∨ (fval a.1 = fval b.1 ∧ a.2 < b.2)).
Proof. unfold logit_before. rewrite js_gt_val, js_strict_eq_val. tauto. Qed.

#[local] Instance logit_before_trans : Transitive logit_before.
Proof.
  intros a b c. rewrite !logit_before_val.
  intros (?&?&?) (?&?&?). split_and!; [done..|lia].
Qed.

Lemma classes_sorted_from (logits : list float) k :
  StronglySorted (λ a b : float * nat, a.2 < b.2) (imap (λ i x, (x, k + i)) logits).
Proof.
  revert k. induction logits as [|x l IH]; intros k; [constructor|].
  rewrite imap_cons. constructor.
  - rewrite (imap_ext _ (λ i x, (x, S k + i))); [apply IH|]. intros; simpl; f_equal; lia.
  - apply Forall_forall. intros [y j] Hy.
    apply elem_of_lookup_imap in Hy as (i & z & ? & _). simplify_eq/=. lia.
Qed.

Lemma sort_classes (logits : list float) :
  Forall (λ x, is_nan x = false) logits →
  sort by_val (classes logits) ≡ₚ classes logits ∧
  StronglySorted logit_before (sort by_val (classes logits)).
Proof.
  intros Hnan. split; [apply sort_perm|].
  apply (sort_sorted _ snd (λ c, is_nan c.1 = false)).
  - apply _.
  - intros x y Hx Hy Hlt. unfold by_val, js_gt at 1. rewrite sub_gt_0 by done.
    destruct (Z.ltb_spec (fval x.1) (fval y.1));
      apply logit_before_val; split_and!; try done; lia.
  - apply Forall_forall. intros c (i & x & -> & Hx)%elem_of_lookup_imap.
    apply list_elem_of_lookup_2 in Hx. by eapply Forall_forall in Hnan.
  - apply (classes_sorted_from logits 0).
Qed.

(** X18. When the inference gives logits and none of them is [NaN],
    [getTopLabels] returns the labels of the classes in descending order of
    logit, equal logits in the order of their indices, cut to the first
    [topK]: exactly [min(topK, number of classes)] labels.  A class without
    a label (or with the empty label) reads ["unknown"]. *)
Theorem getTopLabels_order h image topK this s inputTensor outputs name logits :
  MobileNetScorer.isInitialized this = true → session this = Some s →
  preprocessImage h image = Ok inputTensor →
  run s inputTensor = Ok outputs →
  outputNames s !! 0 = Some name →
  outputs !! name = Some {| OrtTensor.data := Some logits |} →
  Forall (λ x, is_nan x = false) logits →
  (0 ≤ default default_topK topK)%Z →
  ∃ sorted,
    sorted ≡ₚ classes logits ∧
    StronglySorted logit_before sorted ∧
    getTopLabels h image topK this
    = (Ok (label_at this <$> (take (Z.to_nat (default default_topK topK)) sorted).*2),
       this) ∧
    length (take (Z.to_nat (default default_topK topK)) sorted)
    = Z.to_nat (default default_topK topK) `min` length logits.
Proof.
  intros Hflag Hsession Hpre Hrun Hname Hout Hnan Hk.
  destruct (sort_classes logits Hnan) as [Hperm Hsorted].
  exists (sort by_val (classes logits)). split_and!; [done..| |].
  - unfold getTopLabels, infer_labels. rewrite Hflag, Hsession.
    rewrite (bind_Ok_l _ _ _ Hpre), (bind_Ok_l _ _ _ Hrun), Hname.
    cbv zeta. cbn [default from_option id]. rewrite Hout.
    cbn [mbind option_bind OrtTensor.data try_catch]. by rewrite slice_take by done.
  - rewrite length_take, sort_length. unfold classes. by rewrite length_imap.
Qed.

Lemma getTopLabels_order_witness :
  ∃ sorted,
    sorted ≡ₚ classes [1; 5; 3; 4]%float ∧
    StronglySorted logit_before sorted ∧
    getTopLabels demo_host (demo_image 1) (Some 3%Z) demo_scorer
    = (Ok (label_at demo_scorer <$> (take 3 sorted).*2), demo_scorer) ∧
    length (take 3 sorted) = 3.
Proof.
  apply (getTopLabels_order demo_host (demo_image 1) (Some 3%Z) demo_scorer
           (default {| run := λ _, Ok ∅; outputNames := [] |} (session demo_scorer))
           {| Tensor.dims := [1%Z; 3%Z; 224%Z; 224%Z]; Tensor.data := [] |}
           {[ "logits" := {| OrtTensor.data := Some [1; 5; 3; 4]%float |} ]}
           "logits" [1; 5; 3; 4]%float);
    try reflexivity.
  - by repeat constructor.
  - vm_compute. discriminate.
Defined.

(** ** A label embedding shorter than the query embedding *)

(** X19. When one of the predicted labels has a table entry with fewer
    components than the query embedding, its similarity is [NaN] and so is
    the semantic score, whatever the other labels score. *)
Theorem computeSemanticScore_mismatch this imageLabels queryEmbedding label labelEmbedding :
  label ∈ imageLabels →
  labelEmbeddings this !! label = Some labelEmbedding →
  length labelEmbedding < length queryEmbedding →
  is_nan (computeSemanticScore this imageLabels queryEmbedding) = true.
Proof.
  intros Hin Hentry Hlen. unfold computeSemanticScore.
  rewrite bool_decide_eq_false_2 by (by destruct imageLabels; [apply elem_of_nil in Hin|]).
  rewrite collect_similarities_spec, app_nil_l.
  set (sims := MobileNetScorer.dot queryEmbedding <$> _).
  assert (Exists (λ x, is_nan x = true) sims) as Hnan.
  { apply Exists_exists. exists (MobileNetScorer.dot queryEmbedding labelEmbedding). split.
    - apply list_elem_of_fmap. exists labelEmbedding. split; [done|].
      apply list_elem_of_omap. eauto.
    - by apply sum_products_short. }
  rewrite bool_decide_eq_true_2.
  - unfold Math_max. by rewrite Math_max_from_nan.
  - destruct sims; [by apply Exists_nil in Hnan|simpl; lia].
Qed.

Lemma computeSemanticScore_mismatch_witness :
  is_nan (computeSemanticScore axes_scorer ["dog"; "cat"] [0.5; 0.5; 0.5]%float) = true.
Proof.
  apply (computeSemanticScore_mismatch axes_scorer ["dog"; "cat"] [0.5; 0.5; 0.5]%float
           "cat" [1; 0]%float).
  - apply elem_of_cons. right. apply elem_of_cons. by left.
  - reflexivity.
  - simpl. lia.
Defined.

(** ** A zero embedding *)

Lemma is_zero_mul x y : is_finite x = true → is_zero y = true → is_zero (x * y) = true.
Proof.
  rewrite is_finite_spec. intros Hx Hy%is_zero_cases.
  unfold is_zero, js_strict_eq. rewrite eqb_spec, mul_spec.
  change (Prim2SF 0) with (S754_zero false).
  destruct Hy as [-> | ->].
  - change (Prim2SF 0) with (S754_zero false).
    by destruct (Prim2SF x) as [[]|[]| |[] m e].
  - change (Prim2SF (-0)) with (S754_zero true).
    by destruct (Prim2SF x) as [[]|[]| |[] m e].
Qed.

Lemma is_zero_add x y : is_zero x = true → is_zero y = true → is_zero (x + y) = true.
Proof. by intros [-> | ->]%is_zero_cases [-> | ->]%is_zero_cases. Qed.

Lemma sum_products_zero a : ∀ s b,
  is_zero s = true → Forall (λ x, is_finite x = true) a →
  zero_vector b = true → length a ≤ length b →
  is_zero (sum_products s a b) = true.
Proof.
  induction a as [|x a IH]; intros s b Hs Ha Hb Hlen; simpl in *; [done|].
  destruct b as [|y b]; simpl in *; [lia|].
  apply Forall_cons in Ha as [Hx Ha]. apply andb_true_iff in Hb as [Hy Hb].
  apply IH; [|done|done|lia]. by apply is_zero_add, is_zero_mul.
Qed.

(** X20. An embedding that is a zero vector scores [0] against every finite
    embedding that is not longer: [dot] returns [0] or [-0]. *)
Theorem dot_zero_vector (a b : list float) :
  Forall (λ x, is_finite x = true) a →
  zero_vector b = true → length a ≤ length b →
  js_strict_eq (JinaClipSearch.dot a b) 0 = true.
Proof. intros Ha Hb Hlen. by apply (sum_products_zero a 0 b). Qed.

Lemma dot_zero_vector_witness :
  js_strict_eq (JinaClipSearch.dot [3; -4]%float [0; 0]%float) 0 = true.
Proof.
  apply (dot_zero_vector [3; -4]%float [0; 0]%float).
  - by repeat constructor.
  - reflexivity.
  - simpl. lia.
Defined.

(** ** The image embeddings *)

(** X21. [getImageEmbeddings] takes the first of the outputs
    [l2norm_image_embeddings], [image_embeds], [image_embeddings] that the
    model returned; from a [batch x dim] tensor it returns [batch]
    embeddings of [dim] components each, the rows of the tensor normalized.
    When the model returned none of the three, it throws. *)
Theorem getImageEmbeddings_rows this images p m inputs outputs :
  ready this → processor this = Some p → model this = Some m →
  processor_call p None (Some images) = Ok inputs →
  model_call m inputs = Ok outputs →
  (∀ t batch dim,
     l2norm_image_embeddings outputs ∪ image_embeds outputs ∪ image_embeddings outputs
     = Some t →
     Tensor.dims t = [batch; dim] → (0 ≤ batch)%Z → (0 ≤ dim)%Z →
     Z.of_nat (length (Tensor.data t)) = (batch * dim)%Z →
     ∃ rows,
       getImageEmbeddings this images = Ok (normalize <$> rows) ∧
       concat rows = Tensor.data t ∧
       Z.of_nat (length (normalize <$> rows)) = batch ∧
       Forall (λ e, Z.of_nat (length e) = dim) (normalize <$> rows)) ∧
  (l2norm_image_embeddings outputs ∪ image_embeds outputs ∪ image_embeddings outputs
   = None →
   getImageEmbeddings this images = Throw no_image_embeddings).
Proof.
  intros Hready Hp Hm Hproc Hmodel. unfold ready in Hready.
  assert (the_processor this = Ok p) as Hp' by (unfold the_processor; by rewrite Hp).
  assert (the_model this = Ok m) as Hm' by (unfold the_model; by rewrite Hm).
  unfold getImageEmbeddings.
  rewrite (bind_Ok_l _ _ _ Hready), (bind_Ok_l _ _ _ Hp'), (bind_Ok_l _ _ _ Hproc),
    (bind_Ok_l _ _ _ Hm'), (bind_Ok_l _ _ _ Hmodel). split.
  - intros t batch dim Ht Hdims Hbatch Hdim Hlen.
    destruct (tensor2DToArrays_Ok t batch dim Hdims Hbatch Hdim Hlen)
      as (rows & Hrows & Hn & Hrow & Hcat).
    exists rows.
    assert (∀ o : result (list (list float)),
              (tensor2DToArrays t ≫= λ arr : list (list float), Ok (normalize <$> arr)) = o →
              o = Ok (normalize <$> rows)) as Hcall.
    { intros o <-. by rewrite Hrows. }
    split_and!; [|done| |].
    + destruct (l2norm_image_embeddings outputs) as [t1|],
        (image_embeds outputs) as [t2|], (image_embeddings outputs) as [t3|];
        cbv in Ht; try done; injection Ht as ->; by apply Hcall.
    + by rewrite length_fmap.
    + apply Forall_fmap. eapply Forall_impl; [done|]. intros row <-. simpl.
      f_equal. unfold normalize. destruct (js_strict_eq _ _); [done|apply length_fmap].
  - intros Hnone.
    by destruct (l2norm_image_embeddings outputs), (image_embeds outputs),
      (image_embeddings outputs).
Qed.

Lemma getImageEmbeddings_rows_witness :
  ∃ rows,
    getImageEmbeddings demo_searcher [demo_image 1; demo_image 2] = Ok (normalize <$> rows) ∧
    concat rows = [3; 4; 4; 3]%float ∧
    Z.of_nat (length (normalize <$> rows)) = 2%Z ∧
    Forall (λ e, Z.of_nat (length e) = 2%Z) (normalize <$> rows).
Proof.
  eapply (proj1 (getImageEmbeddings_rows demo_searcher [demo_image 1; demo_image 2]
                   demo_processor demo_model _ _
                   eq_refl eq_refl eq_refl eq_refl eq_refl)
            {| Tensor.dims := [2; 2]%Z; Tensor.data := [3; 4; 4; 3]%float |});
    [reflexivity|reflexivity|lia|lia|reflexivity].
Defined.

(** ** No image twice, and a threshold that is not a number *)

Lemma scored_paths h imagePaths embs q :
  imagePath <$> scored h imagePaths embs q `sublist_of` imagePaths.
Proof.
  unfold scored. revert embs. induction imagePaths as [|p ps IH]; intros [|e es]; simpl;
    try apply sublist_nil_l.
  by apply sublist_skip.
Qed.

(** X22. When the enumeration lists no path twice, no image comes twice in
    the results of [search]. *)
Theorem search_results_distinct h config this resp this' imagePaths :
  search h config this = (Ok resp, this') →
  Utils.getImageFiles h (imageFolder config) = Ok imagePaths →
  NoDup imagePaths →
  NoDup (imagePath <$> results resp).
Proof.
  intros [= Hbody _] Hpaths Hnodup.
  apply search_body_inv in Hbody as (paths' & embs & q & _ & Hp' & _ & _ & ->).
  rewrite Hpaths in Hp'. injection Hp' as <-. cbn [results].
  rewrite fmap_imap, (imap_ext _ (const imagePath)) by done. rewrite imap_const.
  rewrite slice_prefix.
  eapply sublist_NoDup; [|apply fmap_sublist, sublist_take].
  rewrite sort_perm.
  eapply sublist_NoDup; [|apply fmap_sublist, sublist_filter].
  eapply sublist_NoDup; [done|apply scored_paths].
Qed.

Lemma search_results_distinct_witness :
  ∃ resp,
    search demo_host demo_config demo_searcher = (Ok resp, demo_searcher) ∧
    NoDup (imagePath <$> results resp).
Proof.
  eexists. split; [reflexivity|].
  eapply (search_results_distinct demo_host demo_config demo_searcher _ demo_searcher
            ["photos/mountain.jpg"; "photos/cat.PNG"; "photos/lake.jpeg"]);
    [reflexivity|reflexivity|].
  by apply (bool_decide_unpack (NoDup _)); vm_compute.
Defined.

(** X23. With a threshold that is [NaN], no score reaches the threshold:
    every [search] that returns, returns no result and counts no match,
    however many images the folder holds. *)
Theorem search_nan_threshold h config this resp this' t :
  threshold config = Some t → is_nan t = true →
  search h config this = (Ok resp, this') →
  results resp = [] ∧ matchingImages (stats resp) = 0%Z.
Proof.
  intros Ht Hnan [= Hbody _].
  apply search_body_inv in Hbody as (paths & embs & q & _ & _ & _ & _ & ->).
  cbn [results stats matchingImages]. rewrite Ht. cbn [default from_option id].
  rewrite filter_none.
  - unfold sort. cbn [foldr]. by rewrite slice_nil.
  - apply Forall_forall. intros r _ Hge.
    apply js_ge_not_nan in Hge as [_ Hge]. congruence.
Qed.

Lemma search_nan_threshold_witness :
  ∃ resp,
    search demo_host
      {| imageFolder := "photos"; query := "mountain"; threshold := Some nan;
         maxResults := None; enableAuxScorer := None; fusionWeight := None |}
      demo_searcher = (Ok resp, demo_searcher) ∧
    totalImages (stats resp) = 3%Z ∧
    results resp = [] ∧ matchingImages (stats resp) = 0%Z.
Proof.
  eexists. split; [reflexivity|]. split; [reflexivity|].
  eapply (search_nan_threshold demo_host
            {| imageFolder := "photos"; query := "mountain"; threshold := Some nan;
               maxResults := None; enableAuxScorer := None; fusionWeight := None |}
            demo_searcher _ demo_searcher nan);
    reflexivity.
Defined.

(** ** The text embedding *)

(** X24. [getTextEmbedding] takes the first of the outputs
    [l2norm_text_embeddings], [text_embeds], [text_embeddings] that the
    model returned for the prefixed query and normalizes its whole data,
    whatever its [dims]: the embedding has as many components as the data.
    When the model returned none of the three, it throws. *)
Theorem getTextEmbedding_data this text p m inputs outputs :
  ready this → processor this = Some p → model this = Some m →
  processor_call p (Some [query_prefix +:+ text]) None = Ok inputs →
  model_call m inputs = Ok outputs →
  (∀ t,
     l2norm_text_embeddings outputs ∪ text_embeds outputs ∪ text_embeddings outputs
     = Some t →
     getTextEmbedding this text = Ok (normalize (Tensor.data t)) ∧
     length (normalize (Tensor.data t)) = length (Tensor.data t)) ∧
  (l2norm_text_embeddings outputs ∪ text_embeds outputs ∪ text_embeddings outputs
   = None →
   getTextEmbedding this text = Throw no_text_embeddings).
Proof.
  intros Hready Hp Hm Hproc Hmodel. unfold ready in Hready.
  assert (the_processor this = Ok p) as Hp' by (unfold the_processor; by rewrite Hp).
  assert (the_model this = Ok m) as Hm' by (unfold the_model; by rewrite Hm).
  unfold getTextEmbedding.
  rewrite (bind_Ok_l _ _ _ Hready), (bind_Ok_l _ _ _ Hp'), (bind_Ok_l _ _ _ Hproc),
    (bind_Ok_l _ _ _ Hm'), (bind_Ok_l _ _ _ Hmodel). split.
  - intros t Ht. split.
    + destruct (l2norm_text_embeddings outputs) as [t1|],
        (text_embeds outputs) as [t2|], (text_embeddings outputs) as [t3|];
        cbv in Ht; try done; by injection Ht as ->.
    + unfold normalize. destruct (js_strict_eq _ _); [done|apply length_fmap].
  - intros Hnone.
    by destruct (l2norm_text_embeddings outputs), (text_embeds outputs),
      (text_embeddings outputs).
Qed.

Lemma getTextEmbedding_data_witness :
  getTextEmbedding demo_searcher "mountain" = Ok (normalize [3; 4]%float) ∧
  length (normalize [3; 4]%float) = 2.
Proof.
  apply (proj1 (getTextEmbedding_data demo_searcher "mountain" demo_processor demo_model
                  _ _ eq_refl eq_refl eq_refl eq_refl eq_refl)
           {| Tensor.dims := [1; 2]%Z; Tensor.data := [3; 4]%float |}).
  reflexivity.
Defined.

(** ** [main] *)

Lemma starts_with_app sub rest : starts_with sub (sub +:+ rest) = true.
Proof.
  induction sub as [|c sub IH]; [done|]. simpl.
  by rewrite bool_decide_eq_true_2, IH.
Qed.

Lemma includes_prefix sub rest : includes (sub +:+ rest) sub = true.
Proof.
  destruct (sub +:+ rest) eqn:E; simpl; rewrite <-E, starts_with_app; done.
Qed.

(** X25. [main] ends in one of three ways.  When the model cannot be
    loaded it exits with code 1 on the message "Model initialization
    failed", without the hint.  When the model is loaded and the folder
    [./images] does not exist, it exits with code 1 on the directory-not-found
    message and prints the hint to create the folder, with or without the
    self-check.  And what it hands to [printResults] is the response of
    [search] on the initialized searcher for the fixed configuration. *)
Theorem main_outcomes h SELF_CHECK :
  (∀ e this', JinaClipSearch.initialize h JinaClipSearch.new = (Throw e, this') →
     main h SELF_CHECK = Exit1 "Model initialization failed" false) ∧
  (∀ this' e,
     JinaClipSearch.initialize h JinaClipSearch.new = (Ok (), this') →
     readdir h "./images" = Throw e → code e = Some "ENOENT" →
     main h SELF_CHECK = Exit1 "Directory not found: ./images" true) ∧
  (∀ response, main h SELF_CHECK = Printed response →
     ∃ this', JinaClipSearch.initialize h JinaClipSearch.new = (Ok (), this') ∧
              search h main_config this' = (Ok response, this')).
Proof.
  split_and!.
  - intros e this' Hinit. unfold main. rewrite Hinit.
    by destruct (initialize_Throw h _ _ _ Hinit) as [-> _].
  - intros this' e Hinit Hread Hcode. unfold main. rewrite Hinit.
    destruct (initialize_Ok_ready h _ _ reachable_new Hinit) as [_ Hready].
    assert (Utils.getImageFiles h "./images" = Throw (directory_not_found "./images"))
      as Hfiles.
    { rewrite (getImageFiles_readdir_throw _ _ _ Hread).
      by rewrite bool_decide_eq_true_2. }
    destruct SELF_CHECK.
    + unfold selfCheck. unfold ready in Hready.
      rewrite (bind_Ok_l _ _ _ Hready). cbn [imageFolder main_config].
      rewrite Hfiles. done.
    + rewrite (search_getImageFiles_throw h main_config this' _ Hready Hfiles). done.
  - intros response. unfold main.
    destruct (JinaClipSearch.initialize h JinaClipSearch.new) as [[[]|e] this'] eqn:Hinit;
      [|done].
    intros Hmain. exists this'. split; [done|].
    destruct SELF_CHECK.
    + destruct (selfCheck h _ this') as [[log|e] this''] eqn:Hself; [|done].
      injection Hself as _ <-.
      destruct (search h main_config this') as [[r|e] this3] eqn:Hsearch; [|done].
      injection Hmain as <-. by injection Hsearch as _ <-.
    + destruct (search h main_config this') as [[r|e] this3] eqn:Hsearch; [|done].
      injection Hmain as <-. by injection Hsearch as _ <-.
Qed.

Lemma main_outcomes_witness :
  main offline_host true = Exit1 "Model initialization failed" false ∧
  main demo_host true = Exit1 "Directory not found: ./images" true ∧
  main demo_host false = Exit1 "Directory not found: ./images" true.
Proof.
  split_and!.
  - apply (proj1 (main_outcomes offline_host true) initialization_failed failed_searcher).
    reflexivity.
  - apply (proj1 (proj2 (main_outcomes demo_host true)) demo_searcher
             (Thrown (Some "ENOENT") "ENOENT: no such file or directory, scandir"));
      reflexivity.
  - apply (proj1 (proj2 (main_outcomes demo_host false)) demo_searcher
             (Thrown (Some "ENOENT") "ENOENT: no such file or directory, scandir"));
      reflexivity.
Defined.

(** ** The scores of [search], without fusion *)




